(** * image-transition: the transition controller, its textures and its shaders

    A shallow embedding of the two shaders of shader.ts, of the class
    [ImageTransition] (the controller), of the class [Texture], of the
    event dispatcher and of the helpers on powers of two, with the
    properties of the specification, and further properties of the code,
    stated over it.

    Conventions of the embedding.
    - A JavaScript [number] is a [number] below: a finite value is a
      rational (zero has no sign), and the three IEEE special values are
      kept, so that a division by zero gives what JavaScript gives. The
      operations of [Num] are exact; those of [Rounded] round each result,
      with [round53] as binary64 does, and the transitions are given with
      both.
    - The calls a function issues on the WebGL context, on DOM objects and on
      event dispatchers are appended, in program order, to a trace.
    - [requestAnimationFrame] appends a closure to a queue of the state; the
      browser running one animation frame is the function [frame].
    - [performance.now()] is an argument of the function that reads it. *)

From Stdlib Require Import QArith ZArith NArith List Bool.
From Stdlib Require Import Reals Qreals Psatz.
From Stdlib Require Import Qabs Qround Qpower.
From Stdlib Require String.
Import ListNotations.

Close Scope R_scope.
Close Scope Q_scope.

(** ** JavaScript numbers *)

Module Num.

Inductive number : Type :=
| Fin (q : Q)
| PosInf
| NegInf
| NaN.

Definition sgn (x : Q) : comparison := (x ?= 0)%Q.

Definition inf_of (c : comparison) : number :=
  match c with Gt => PosInf | Lt => NegInf | Eq => NaN end.

Definition neg (a : number) : number :=
  match a with
  | Fin x => Fin (- x)
  | PosInf => NegInf
  | NegInf => PosInf
  | NaN => NaN
  end.

Definition add (a b : number) : number :=
  match a, b with
  | NaN, _ | _, NaN => NaN
  | Fin x, Fin y => Fin (x + y)
  | PosInf, NegInf | NegInf, PosInf => NaN
  | PosInf, _ | _, PosInf => PosInf
  | NegInf, _ | _, NegInf => NegInf
  end.

Definition sub (a b : number) : number := add a (neg b).

Definition mul (a b : number) : number :=
  match a, b with
  | NaN, _ | _, NaN => NaN
  | Fin x, Fin y => Fin (x * y)
  | Fin x, PosInf | PosInf, Fin x => inf_of (sgn x)
  | Fin x, NegInf | NegInf, Fin x => inf_of (CompOpp (sgn x))
  | PosInf, PosInf | NegInf, NegInf => PosInf
  | PosInf, NegInf | NegInf, PosInf => NegInf
  end.

(** [x / 0] is [Infinity], [-Infinity] or [NaN] after the sign of [x];
    a finite value over an infinite one is [0]. *)
Definition div (a b : number) : number :=
  match a, b with
  | NaN, _ | _, NaN => NaN
  | Fin x, Fin y => if Qeq_bool y 0 then inf_of (sgn x) else Fin (x / y)
  | Fin _, (PosInf | NegInf) => Fin 0
  | PosInf, Fin y => if Qle_bool 0 y then PosInf else NegInf
  | NegInf, Fin y => if Qle_bool 0 y then NegInf else PosInf
  | (PosInf | NegInf), (PosInf | NegInf) => NaN
  end.

(** [Math.max] and [Math.min]: [NaN] as soon as one argument is [NaN]. *)
Definition max (a b : number) : number :=
  match a, b with
  | NaN, _ | _, NaN => NaN
  | PosInf, _ | _, PosInf => PosInf
  | NegInf, x | x, NegInf => x
  | Fin x, Fin y => if Qle_bool x y then Fin y else Fin x
  end.

Definition min (a b : number) : number :=
  match a, b with
  | NaN, _ | _, NaN => NaN
  | NegInf, _ | _, NegInf => NegInf
  | PosInf, x | x, PosInf => x
  | Fin x, Fin y => if Qle_bool x y then Fin x else Fin y
  end.

(** [a === b] on numbers: [NaN] equals nothing. *)
Definition eqb (a b : number) : bool :=
  match a, b with
  | Fin x, Fin y => Qeq_bool x y
  | PosInf, PosInf | NegInf, NegInf => true
  | _, _ => false
  end.

(** [a < b]: false as soon as one argument is [NaN]. *)
Definition ltb (a b : number) : bool :=
  match a, b with
  | NaN, _ | _, NaN => false
  | Fin x, Fin y => negb (Qle_bool y x)
  | NegInf, (Fin _ | PosInf) => true
  | Fin _, PosInf => true
  | _, _ => false
  end.

Definition of_N (n : N) : number := Fin (inject_Z (Z.of_N n)).

(** The two numbers denote the same value ([NaN] included, finite values up
    to the equality of rationals). *)
Definition same (a b : number) : Prop :=
  match a, b with
  | Fin x, Fin y => (x == y)%Q
  | PosInf, PosInf | NegInf, NegInf | NaN, NaN => True
  | _, _ => False
  end.

(** The number is finite and lies in the closed interval [0,1]. *)
Definition in_unit (a : number) : bool :=
  match a with
  | Fin x => Qle_bool 0 x && Qle_bool x 1
  | _ => false
  end.

Definition is_finite (a : number) : bool :=
  match a with Fin _ => true | _ => false end.

(** The number is finite and not zero. *)
Definition is_nonzero (a : number) : bool :=
  match a with Fin x => negb (Qeq_bool x 0) | _ => false end.

End Num.

Export Num.

Declare Scope num_scope.
Delimit Scope num_scope with num.
Bind Scope num_scope with number.
Infix "+" := Num.add : num_scope.
Infix "-" := Num.sub : num_scope.
Infix "*" := Num.mul : num_scope.
Infix "/" := Num.div : num_scope.
Infix "===" := Num.eqb (at level 70, no associativity) : num_scope.
Infix "<?" := Num.ltb : num_scope.

(** [clamp], of the module of the controller. *)
Definition clamp (num min max : number) : number :=
  Num.min (Num.max num min) max.

(** ** DOM objects and the effect trace *)

(** Modelled from the spec: [src/types.ts], which declares [TextureSource],
    is not part of the sources. The spec names a raster image and a
    renderable surface; [Texture] tests [instanceof HTMLCanvasElement],
    [instanceof HTMLVideoElement] and reads [naturalWidth] otherwise. A value
    is the state of the object when the code reads it: the natural size of an
    image (0 by 0 until it is decoded), the [width] and [height] attributes
    of a canvas or a video. *)
Inductive TextureSource : Type :=
| HTMLImageElement (naturalWidth naturalHeight : N)
| HTMLCanvasElement (width height : N)
| HTMLVideoElement (width height : N).

(** A [WebGLTexture], named by the order of the [gl.createTexture()] calls. *)
Definition WebGLTexture := nat.

Inductive WebGLBuffer := VertexBuffer | UvBuffer.
Inductive WebGLShader := VertexShader | FragmentShader.

Inductive uniform :=
| Uintensity | Udirection | Uprogress | UuvScale
| UtextureFrom | UtextureTo | UtextureDisplacement
| UdisableFromImage | UdisableToImage.

Inductive attribute := Aposition | Auv.

Inductive min_filter := LINEAR_MIPMAP_NEAREST | LINEAR.

(** The argument of [gl.uniform1f]: a number, or [easeInOutSine] of a number.
    The cosine of a rational is not rational, so the eased value is kept as
    the call [easeInOutSine x] and is given its real value by [easeInOutSine]
    below. *)
Inductive glfloat :=
| Lit (x : number)
| EaseInOutSine (x : number).

(** The calls of the code on its [WebGLRenderingContext]. Constant arguments
    are part of the constructor's name. *)
Inductive glcall : Type :=
| createBuffer (b : WebGLBuffer)
| createShader (s : WebGLShader)
| shaderSource (s : WebGLShader)
| compileShader (s : WebGLShader)
| createProgram
| attachShader (s : WebGLShader)
| linkProgram
| useProgram
| enable_BLEND
| blendFuncSeparate_SRC_ALPHA_ONE_MINUS_SRC_ALPHA_ONE_ZERO
| bindBuffer_ARRAY_BUFFER (b : option WebGLBuffer)
| bufferData_ARRAY_BUFFER_STATIC_DRAW (data : list Z)
| getAttribLocation (a : attribute)
| vertexAttribPointer_2_FLOAT (a : attribute)
| enableVertexAttribArray (a : attribute)
| getUniformLocation (u : uniform)
| uniform1f (u : uniform) (x : glfloat)
| uniform1i (u : uniform) (x : Z)
| uniform2f (u : uniform) (x y : number)
| createTexture (t : WebGLTexture)
| activeTexture (unit : nat)
| bindTexture_TEXTURE_2D (t : option WebGLTexture)
| texImage2D_RGBA_UNSIGNED_BYTE_array (width height : N) (data : list N)
| texImage2D_RGBA_UNSIGNED_BYTE (source : TextureSource)
| pixelStorei_UNPACK_FLIP_Y_WEBGL (flip : bool)
| texParameteri_TEXTURE_MIN_FILTER (f : min_filter)
| texParameteri_TEXTURE_MAG_FILTER_LINEAR
| texParameteri_TEXTURE_WRAP_S_CLAMP_TO_EDGE
| texParameteri_TEXTURE_WRAP_T_CLAMP_TO_EDGE
| generateMipmap_TEXTURE_2D
| viewport (x y w h : N)
| clearColor (r g b a : Z)
| clear_COLOR_BUFFER_BIT_DEPTH_BUFFER_BIT
| drawArrays_TRIANGLES (first count : N)
| flush
| deleteTexture (t : WebGLTexture)
| deleteBuffer (b : WebGLBuffer)
| deleteShader (s : WebGLShader)
| deleteProgram.

(** Events of the two [EventDispatcher]s: ['updated'] of a texture (named by
    its handle) and ['transitionEnd'] of the controller. *)
Inductive event :=
| updated (target : WebGLTexture)
| transitionEnd.

(** One entry of the trace. *)
Inductive effect : Type :=
| GL (c : glcall)
| addEventListener_load (image : TextureSource)
| removeEventListener_load (image : TextureSource)
| dispatchEvent (e : event)
| removeChild_canvas.

Definition is_GL (e : effect) : bool :=
  match e with GL _ => true | _ => false end.

Definition is_transitionEnd (e : effect) : bool :=
  match e with dispatchEvent transitionEnd => true | _ => false end.

Definition is_draw (e : effect) : bool :=
  match e with GL (drawArrays_TRIANGLES _ _) => true | _ => false end.

(** The calls on the WebGL context in a trace, and the number of
    ['transitionEnd'] notifications in it. *)
Definition gl_calls (tr : list effect) : list effect := filter is_GL tr.
Definition transitionEnds (tr : list effect) : nat :=
  length (filter is_transitionEnd tr).
Definition draws (tr : list effect) : nat := length (filter is_draw tr).

(** [isPowerOfTwo] of webgl-utils.ts, on a size. For [value = 0] the
    JavaScript [value - 1] is [-1] and [0 & -1] is [0]; the truncated
    subtraction of [N] gives the same test. *)
Definition isPowerOfTwo (value : N) : bool :=
  (N.land value (value - 1) =? 0)%N && negb (value =? 0)%N.

(** ** The class Texture *)

(** [defaultImage]: a canvas element of 2 by 2, never drawn on. *)
Definition defaultImage : TextureSource := HTMLCanvasElement 2 2.

Module Texture.

Record t : Type := mk {
  image : option TextureSource;
  texture : WebGLTexture
}.

Definition set_image (i : option TextureSource) (s : t) : t :=
  {| image := i; texture := texture s |}.

(** [get isLoaded]. *)
Definition isLoaded (s : t) : bool :=
  match image s with
  | None => false
  | Some (HTMLCanvasElement _ _) => true
  | Some (HTMLVideoElement _ _) => true
  | Some (HTMLImageElement naturalWidth _) => negb (naturalWidth =? 0)%N
  end.

Definition width_of (i : TextureSource) : N :=
  match i with
  | HTMLImageElement w _ => w
  | HTMLCanvasElement w _ | HTMLVideoElement w _ => w
  end.

Definition height_of (i : TextureSource) : N :=
  match i with
  | HTMLImageElement _ h => h
  | HTMLCanvasElement _ h | HTMLVideoElement _ h => h
  end.

(** The second half of [setImage], from the computation of [width] on:
    the upload of [_image] and the ['updated'] notification. [_gl] is never
    null in a constructed texture, so the early exit on [! _gl] is not
    taken. *)
Definition upload (s : t) (_image : TextureSource) : list effect :=
  let width := width_of _image in
  let height := height_of _image in
  let isPowerOfTwoSize := isPowerOfTwo width && isPowerOfTwo height in
  [ GL (bindTexture_TEXTURE_2D (Some (texture s)));
    GL (pixelStorei_UNPACK_FLIP_Y_WEBGL true);
    GL (texParameteri_TEXTURE_MIN_FILTER
          (if isPowerOfTwoSize then LINEAR_MIPMAP_NEAREST else LINEAR));
    GL texParameteri_TEXTURE_MAG_FILTER_LINEAR;
    GL texParameteri_TEXTURE_WRAP_S_CLAMP_TO_EDGE;
    GL texParameteri_TEXTURE_WRAP_T_CLAMP_TO_EDGE;
    GL (texImage2D_RGBA_UNSIGNED_BYTE _image) ]
  ++ (if isPowerOfTwoSize then [GL generateMipmap_TEXTURE_2D] else [])
  ++ [ GL (bindTexture_TEXTURE_2D None);
       dispatchEvent (updated (texture s)) ].

(** [onLoad()], with the method it calls on a loaded image as an argument:
    [onLoad] and [setImage] call each other. *)
Definition onLoad_with (setImage : option TextureSource -> t -> t * list effect)
    (s : t) : t * list effect :=
  match image s with
  | None => (s, [])
  | Some i =>
      if isLoaded s then setImage (Some i) s
      else (s, [addEventListener_load i])
  end.

(** [setImage( image? )]. It calls [onLoad] only where [isLoaded] is false,
    and there [onLoad] does not call back (see [setImage_eq]). *)
Definition setImage (image : option TextureSource) (s : t) : t * list effect :=
  let s := set_image image s in
  match Texture.image s with
  | None => (s, upload s defaultImage)
  | Some i =>
      if isLoaded s then (s, upload s i)
      else
        let '(s', e) := onLoad_with (fun _ s => (s, [])) s in
        (s', e ++ upload s' defaultImage)
  end.

Definition onLoad : t -> t * list effect := onLoad_with setImage.

(** The closure [onLoad] that [onLoad()] registers on the image, run by the
    browser when the image fires ['load']. *)
Definition onLoad_listener (s : t) : t * list effect :=
  match image s with
  | None => (s, [])
  | Some i =>
      let '(s', e) := setImage (Some i) s in
      (s', removeEventListener_load i :: e)
  end.

(** [new Texture( gl, image? )], [h] being what [gl.createTexture()]
    returns. *)
Definition new (h : WebGLTexture) (image : option TextureSource)
    : t * list effect :=
  let s := {| image := image; texture := h |} in
  let e0 :=
    [ GL (createTexture h);
      GL (bindTexture_TEXTURE_2D (Some h));
      GL (texImage2D_RGBA_UNSIGNED_BYTE_array 1 1 [0; 0; 0; 255]%N) ] in
  let '(s', e) :=
    match image with
    | Some _ => onLoad s
    | None => setImage None s
    end in
  (s', e0 ++ e).

(** The image the texture refers to finishes decoding with the natural
    size [w] by [h] (nothing changes for a canvas, a video or no image). *)
Definition decoded (w h : N) (s : t) : t :=
  match image s with
  | Some (HTMLImageElement _ _) => set_image (Some (HTMLImageElement w h)) s
  | _ => s
  end.

End Texture.

(** ** The class ImageTransition *)

(** The canvas the controller renders into: its [width] and [height]
    attributes and whether it has a [parentNode]. *)
Record Canvas : Type := {
  width : N;
  height : N;
  parentNode : bool
}.

(** The closures handed to [requestAnimationFrame]: the [tick] of [enter]
    and of [leave], each with the two constants it captures, and the arrow
    function of [_onUpdate]. *)
Inductive callback : Type :=
| enter_tick (startTime startElapsedTime : number)
| leave_tick (startTime startElapsedTime : number)
| lazy_render.

(** The fields of an [ImageTransition], the trace of what it has done so far
    (oldest first), and the callbacks waiting for the next animation frame.
    [_program] is set by the constructor and never cleared, and is left out;
    so are the handles that only name GL objects. *)
Record ImageTransition : Type := {
  duration : number;
  _progress : number;
  _canvas : Canvas;
  _textureFrom : Texture.t;
  _textureTo : Texture.t;
  _textureDisplacement : Texture.t;
  _isEntering : bool;
  _isLeaving : bool;
  _hasUpdated : bool;
  _destroyed : bool;
  trace : list effect;
  animationFrames : list callback
}.

Definition set_progress (x : number) (s : ImageTransition) :=
  {| duration := duration s; _progress := x; _canvas := _canvas s;
     _textureFrom := _textureFrom s; _textureTo := _textureTo s;
     _textureDisplacement := _textureDisplacement s;
     _isEntering := _isEntering s; _isLeaving := _isLeaving s;
     _hasUpdated := _hasUpdated s; _destroyed := _destroyed s;
     trace := trace s; animationFrames := animationFrames s |}.

(** [duration] is a public field: [transition.duration = x]. *)
Definition set_duration (x : number) (s : ImageTransition) :=
  {| duration := x; _progress := _progress s; _canvas := _canvas s;
     _textureFrom := _textureFrom s; _textureTo := _textureTo s;
     _textureDisplacement := _textureDisplacement s;
     _isEntering := _isEntering s; _isLeaving := _isLeaving s;
     _hasUpdated := _hasUpdated s; _destroyed := _destroyed s;
     trace := trace s; animationFrames := animationFrames s |}.

Definition set_canvas (x : Canvas) (s : ImageTransition) :=
  {| duration := duration s; _progress := _progress s; _canvas := x;
     _textureFrom := _textureFrom s; _textureTo := _textureTo s;
     _textureDisplacement := _textureDisplacement s;
     _isEntering := _isEntering s; _isLeaving := _isLeaving s;
     _hasUpdated := _hasUpdated s; _destroyed := _destroyed s;
     trace := trace s; animationFrames := animationFrames s |}.

Definition set_textureFrom (x : Texture.t) (s : ImageTransition) :=
  {| duration := duration s; _progress := _progress s; _canvas := _canvas s;
     _textureFrom := x; _textureTo := _textureTo s;
     _textureDisplacement := _textureDisplacement s;
     _isEntering := _isEntering s; _isLeaving := _isLeaving s;
     _hasUpdated := _hasUpdated s; _destroyed := _destroyed s;
     trace := trace s; animationFrames := animationFrames s |}.

Definition set_textureTo (x : Texture.t) (s : ImageTransition) :=
  {| duration := duration s; _progress := _progress s; _canvas := _canvas s;
     _textureFrom := _textureFrom s; _textureTo := x;
     _textureDisplacement := _textureDisplacement s;
     _isEntering := _isEntering s; _isLeaving := _isLeaving s;
     _hasUpdated := _hasUpdated s; _destroyed := _destroyed s;
     trace := trace s; animationFrames := animationFrames s |}.

Definition set_textureDisplacement (x : Texture.t) (s : ImageTransition) :=
  {| duration := duration s; _progress := _progress s; _canvas := _canvas s;
     _textureFrom := _textureFrom s; _textureTo := _textureTo s;
     _textureDisplacement := x;
     _isEntering := _isEntering s; _isLeaving := _isLeaving s;
     _hasUpdated := _hasUpdated s; _destroyed := _destroyed s;
     trace := trace s; animationFrames := animationFrames s |}.

Definition set_isEntering (x : bool) (s : ImageTransition) :=
  {| duration := duration s; _progress := _progress s; _canvas := _canvas s;
     _textureFrom := _textureFrom s; _textureTo := _textureTo s;
     _textureDisplacement := _textureDisplacement s;
     _isEntering := x; _isLeaving := _isLeaving s;
     _hasUpdated := _hasUpdated s; _destroyed := _destroyed s;
     trace := trace s; animationFrames := animationFrames s |}.

Definition set_isLeaving (x : bool) (s : ImageTransition) :=
  {| duration := duration s; _progress := _progress s; _canvas := _canvas s;
     _textureFrom := _textureFrom s; _textureTo := _textureTo s;
     _textureDisplacement := _textureDisplacement s;
     _isEntering := _isEntering s; _isLeaving := x;
     _hasUpdated := _hasUpdated s; _destroyed := _destroyed s;
     trace := trace s; animationFrames := animationFrames s |}.

Definition set_hasUpdated (x : bool) (s : ImageTransition) :=
  {| duration := duration s; _progress := _progress s; _canvas := _canvas s;
     _textureFrom := _textureFrom s; _textureTo := _textureTo s;
     _textureDisplacement := _textureDisplacement s;
     _isEntering := _isEntering s; _isLeaving := _isLeaving s;
     _hasUpdated := x; _destroyed := _destroyed s;
     trace := trace s; animationFrames := animationFrames s |}.

Definition set_destroyed (x : bool) (s : ImageTransition) :=
  {| duration := duration s; _progress := _progress s; _canvas := _canvas s;
     _textureFrom := _textureFrom s; _textureTo := _textureTo s;
     _textureDisplacement := _textureDisplacement s;
     _isEntering := _isEntering s; _isLeaving := _isLeaving s;
     _hasUpdated := _hasUpdated s; _destroyed := x;
     trace := trace s; animationFrames := animationFrames s |}.

Definition set_animationFrames (x : list callback) (s : ImageTransition) :=
  {| duration := duration s; _progress := _progress s; _canvas := _canvas s;
     _textureFrom := _textureFrom s; _textureTo := _textureTo s;
     _textureDisplacement := _textureDisplacement s;
     _isEntering := _isEntering s; _isLeaving := _isLeaving s;
     _hasUpdated := _hasUpdated s; _destroyed := _destroyed s;
     trace := trace s; animationFrames := x |}.

(** Appending to the trace; [gl] appends one call on the context. *)
Definition emit (es : list effect) (s : ImageTransition) :=
  {| duration := duration s; _progress := _progress s; _canvas := _canvas s;
     _textureFrom := _textureFrom s; _textureTo := _textureTo s;
     _textureDisplacement := _textureDisplacement s;
     _isEntering := _isEntering s; _isLeaving := _isLeaving s;
     _hasUpdated := _hasUpdated s; _destroyed := _destroyed s;
     trace := trace s ++ es; animationFrames := animationFrames s |}.

Definition gl (c : glcall) : ImageTransition -> ImageTransition :=
  emit [GL c].

Definition requestAnimationFrame (cb : callback) (s : ImageTransition) :=
  set_animationFrames (animationFrames s ++ [cb]) s.

(** [_onUpdate()]. *)
Definition _onUpdate (s : ImageTransition) : ImageTransition :=
  if _isEntering s || _isLeaving s then s
  else if _hasUpdated s then s
  else requestAnimationFrame lazy_render (set_hasUpdated true s).

(** [mediaAspect] of [_updateAspect], for the selected [image]. *)
Definition mediaAspect (image : option TextureSource) : number :=
  match image with
  | Some (HTMLImageElement naturalWidth naturalHeight) =>
      (of_N naturalWidth / of_N naturalHeight)%num
  | Some (HTMLCanvasElement width height) => (of_N width / of_N height)%num
  | _ => Fin 1
  end.

(** The [image] that [_updateAspect] selects. *)
Definition aspectImage (s : ImageTransition) : option TextureSource :=
  match Texture.image (_textureFrom s) with
  | Some i => Some i
  | None => Texture.image (_textureTo s)
  end.

(** [_updateAspect()]. *)
Definition _updateAspect (s : ImageTransition) : ImageTransition :=
  let canvasAspect := (of_N (width (_canvas s)) / of_N (height (_canvas s)))%num in
  let image := aspectImage s in
  let aspect := (mediaAspect image / canvasAspect)%num in
  let s :=
    if (aspect <? Fin 1)%num
    then gl (uniform2f UuvScale (Fin 1) aspect) s
    else gl (uniform2f UuvScale (Fin 1 / aspect)%num (Fin 1)) s in
  _onUpdate s.

(** [_updateTexture()]. *)
Definition _updateTexture (s : ImageTransition) : ImageTransition :=
  let s := emit
    [ GL (activeTexture 0);
      GL (bindTexture_TEXTURE_2D (Some (Texture.texture (_textureFrom s))));
      GL (uniform1i UtextureFrom 0);
      GL (activeTexture 1);
      GL (bindTexture_TEXTURE_2D (Some (Texture.texture (_textureTo s))));
      GL (uniform1i UtextureTo 1);
      GL (activeTexture 2);
      GL (bindTexture_TEXTURE_2D (Some (Texture.texture (_textureDisplacement s))));
      GL (uniform1i UtextureDisplacement 2);
      GL (uniform1f UdisableFromImage
            (Lit (match Texture.image (_textureFrom s) with
                  | Some _ => Fin 0 | None => Fin 1 end)));
      GL (uniform1f UdisableToImage
            (Lit (match Texture.image (_textureTo s) with
                  | Some _ => Fin 0 | None => Fin 1 end))) ] s in
  _updateAspect s.

(** [render()]. *)
Definition render (s : ImageTransition) : ImageTransition :=
  if _destroyed s then s
  else
    let s := emit
      [ GL (clearColor 0 0 0 0);
        GL (uniform1f Uprogress (EaseInOutSine (_progress s)));
        GL clear_COLOR_BUFFER_BIT_DEPTH_BUFFER_BIT;
        GL (drawArrays_TRIANGLES 0 6);
        GL flush ] s in
    if (_progress s === Fin 1)%num then set_hasUpdated false s else s.

(** The closure [tick] of [enter()], run at the clock reading [now]. *)
Definition tick_enter (startTime startElapsedTime now : number)
    (s : ImageTransition) : ImageTransition :=
  if _destroyed s then s
  else if negb (_isEntering s) then s
  else
    let elapsedTime := (now - startTime + startElapsedTime)%num in
    let s := set_progress (clamp (elapsedTime / duration s)%num (Fin 0) (Fin 1)) s in
    let s := render s in
    let s :=
      if (_progress s === Fin 1)%num
      then emit [dispatchEvent transitionEnd] (set_isEntering false s)
      else s in
    requestAnimationFrame (enter_tick startTime startElapsedTime) s.

(** The closure [tick] of [leave()]. *)
Definition tick_leave (startTime startElapsedTime now : number)
    (s : ImageTransition) : ImageTransition :=
  if _destroyed s then s
  else if negb (_isLeaving s) then s
  else
    let elapsedTime := (now - startTime + startElapsedTime)%num in
    let s := set_progress
               (clamp (Fin 1 - elapsedTime / duration s)%num (Fin 0) (Fin 1)) s in
    let s := render s in
    let s :=
      if (_progress s === Fin 0)%num
      then emit [dispatchEvent transitionEnd] (set_isLeaving false s)
      else s in
    requestAnimationFrame (leave_tick startTime startElapsedTime) s.

(** [enter()]. [startTime] is the reading of [performance.now()] in the body
    of [enter], [now] the reading in the first, synchronous call of [tick]. *)
Definition enter (startTime now : number) (s : ImageTransition)
    : ImageTransition :=
  if _isEntering s then s
  else if (_progress s === Fin 1)%num then s
  else
    let s := set_isEntering true s in
    let s := set_isLeaving false s in
    let startElapsedTime := (duration s * _progress s)%num in
    tick_enter startTime startElapsedTime now s.

(** [leave()]. *)
Definition leave (startTime now : number) (s : ImageTransition)
    : ImageTransition :=
  if _isLeaving s then s
  else if (_progress s === Fin 0)%num then s
  else
    let s := set_isLeaving true s in
    let s := set_isEntering false s in
    let startElapsedTime := (duration s * (Fin 1 - _progress s))%num in
    tick_leave startTime startElapsedTime now s.

(** [stop()]. *)
Definition stop (s : ImageTransition) : ImageTransition :=
  if negb (_isEntering s) && negb (_isLeaving s) then s
  else
    let s := set_isEntering false s in
    let s := set_isLeaving false s in
    emit [dispatchEvent transitionEnd] s.

(** [reset()]. *)
Definition reset (s : ImageTransition) : ImageTransition :=
  let s := stop s in
  let s := set_progress (Fin 0) s in
  render s.

(** [setSize( w, h )], for sizes a canvas stores as they are (non-negative
    integers). *)
Definition setSize (w h : N) (s : ImageTransition) : ImageTransition :=
  if (width (_canvas s) =? w)%N && (height (_canvas s) =? h)%N then s
  else
    let s := set_canvas
               {| width := w; height := h;
                  parentNode := parentNode (_canvas s) |} s in
    let s := gl (viewport 0 0 w h) s in
    _updateAspect s.

(** What a texture does reaches the trace one effect at a time; the
    listener the constructor registers for ['updated'] on each of the three
    textures, [_updateTexture], runs at the dispatch. *)
Fixpoint perform (es : list effect) (s : ImageTransition) : ImageTransition :=
  match es with
  | [] => s
  | e :: es' =>
      let s := emit [e] s in
      let s := match e with
               | dispatchEvent (updated _) => _updateTexture s
               | _ => s
               end in
      perform es' s
  end.

(** [setFromImage( sourceFrom )] and [setToImage( sourceTo )]. *)
Definition setFromImage (sourceFrom : TextureSource) (s : ImageTransition)
    : ImageTransition :=
  let '(t, es) := Texture.setImage (Some sourceFrom) (_textureFrom s) in
  perform es (set_textureFrom t s).

Definition setToImage (sourceTo : TextureSource) (s : ImageTransition)
    : ImageTransition :=
  let '(t, es) := Texture.setImage (Some sourceTo) (_textureTo s) in
  perform es (set_textureTo t s).

(** [destroy( removeElement )]. *)
Definition destroy (removeElement : bool) (s : ImageTransition)
    : ImageTransition :=
  let s := set_destroyed true s in
  let s := set_isEntering false s in
  let s := set_isLeaving false s in
  let s := if removeElement then setSize 1 1 s else s in
  let s := emit
    [ GL (activeTexture 0); GL (bindTexture_TEXTURE_2D None);
      GL (activeTexture 1); GL (bindTexture_TEXTURE_2D None);
      GL (activeTexture 2); GL (bindTexture_TEXTURE_2D None);
      GL (bindBuffer_ARRAY_BUFFER None);
      GL (deleteTexture (Texture.texture (_textureFrom s)));
      GL (deleteTexture (Texture.texture (_textureTo s)));
      GL (deleteTexture (Texture.texture (_textureDisplacement s)));
      GL (deleteBuffer VertexBuffer);
      GL (deleteBuffer UvBuffer);
      GL (deleteShader VertexShader);
      GL (deleteShader FragmentShader);
      GL deleteProgram ] s in
  if removeElement && parentNode (_canvas s)
  then emit [removeChild_canvas]
         (set_canvas {| width := width (_canvas s);
                        height := height (_canvas s);
                        parentNode := false |} s)
  else s.

(** The argument of the constructor; an absent optional field is [None]. *)
Module Params.
Record t : Type := {
  canvas : Canvas;
  intensity : option number;
  direction : option number;
  duration : option number;
  sourceFrom : option TextureSource;
  sourceTo : option TextureSource;
  displacementSource : TextureSource
}.
End Params.

Definition VERTEXES : list Z := [-1; -1; 1; -1; -1; 1; 1; -1; 1; 1; -1; 1]%Z.
Definition UV : list Z := [0; 0; 1; 0; 0; 1; 1; 0; 1; 1; 0; 1]%Z.

Definition default (d : number) (x : option number) : number :=
  match x with Some v => v | None => d end.

(** [new ImageTransition( params )]. The three textures are created before
    their ['updated'] listeners are registered, so what they dispatch in
    their constructors reaches no listener. *)
Definition constructor (p : Params.t) : ImageTransition :=
  let intensity := default (Fin 1) (Params.intensity p) in
  let duration := default (Fin 2000) (Params.duration p) in
  let direction := default (Fin 0) (Params.direction p) in
  let e1 :=
    [ GL (createBuffer VertexBuffer); GL (createBuffer UvBuffer);
      GL (createShader VertexShader); GL (shaderSource VertexShader);
      GL (compileShader VertexShader);
      GL (createShader FragmentShader); GL (shaderSource FragmentShader);
      GL (compileShader FragmentShader);
      GL createProgram; GL (attachShader VertexShader);
      GL (attachShader FragmentShader); GL linkProgram; GL useProgram;
      GL enable_BLEND;
      GL blendFuncSeparate_SRC_ALPHA_ONE_MINUS_SRC_ALPHA_ONE_ZERO;
      GL (bindBuffer_ARRAY_BUFFER (Some VertexBuffer));
      GL (bufferData_ARRAY_BUFFER_STATIC_DRAW VERTEXES);
      GL (getAttribLocation Aposition);
      GL (vertexAttribPointer_2_FLOAT Aposition);
      GL (enableVertexAttribArray Aposition);
      GL (bindBuffer_ARRAY_BUFFER (Some UvBuffer));
      GL (bufferData_ARRAY_BUFFER_STATIC_DRAW UV);
      GL (getAttribLocation Auv);
      GL (vertexAttribPointer_2_FLOAT Auv);
      GL (enableVertexAttribArray Auv);
      GL (getUniformLocation Uintensity); GL (getUniformLocation Udirection);
      GL (getUniformLocation Uprogress); GL (getUniformLocation UuvScale);
      GL (getUniformLocation UtextureFrom); GL (getUniformLocation UtextureTo);
      GL (getUniformLocation UtextureDisplacement);
      GL (getUniformLocation UdisableFromImage);
      GL (getUniformLocation UdisableToImage);
      GL (uniform1f Uintensity (Lit intensity));
      GL (uniform1f Udirection (Lit direction)) ] in
  let '(tFrom, eFrom) := Texture.new 0 (Params.sourceFrom p) in
  let '(tTo, eTo) := Texture.new 1 (Params.sourceTo p) in
  let '(tDisp, eDisp) := Texture.new 2 (Some (Params.displacementSource p)) in
  let s :=
    {| duration := duration; _progress := Fin 0; _canvas := Params.canvas p;
       _textureFrom := tFrom; _textureTo := tTo;
       _textureDisplacement := tDisp;
       _isEntering := false; _isLeaving := false;
       _hasUpdated := true; _destroyed := false;
       trace := e1 ++ eFrom ++ eTo ++ eDisp; animationFrames := [] |} in
  let s := _updateTexture s in
  setSize (width (_canvas s)) (height (_canvas s)) s.

(** ** The browser *)

(** Running one callback of the animation-frame queue at the clock reading
    [now]. *)
Definition run_callback (now : number) (cb : callback) (s : ImageTransition)
    : ImageTransition :=
  match cb with
  | enter_tick startTime startElapsedTime =>
      tick_enter startTime startElapsedTime now s
  | leave_tick startTime startElapsedTime =>
      tick_leave startTime startElapsedTime now s
  | lazy_render => set_hasUpdated false (render s)
  end.

(** One animation frame: the callbacks requested before the frame run in the
    order of their requests; those they request wait for the next frame. All
    of them read the clock as [now]. *)
Definition frame (now : number) (s : ImageTransition) : ImageTransition :=
  fold_left (fun s cb => run_callback now cb s)
            (animationFrames s) (set_animationFrames [] s).

(** The browser runs the oldest waiting callback alone: the state between
    two callbacks of one frame is reached this way (up to the order of the
    queue). *)
Definition next_callback (now : number) (s : ImageTransition)
    : ImageTransition :=
  match animationFrames s with
  | [] => s
  | cb :: rest => run_callback now cb (set_animationFrames rest s)
  end.

Inductive slot := From | To | Displacement.

Definition get_texture (sl : slot) (s : ImageTransition) : Texture.t :=
  match sl with
  | From => _textureFrom s
  | To => _textureTo s
  | Displacement => _textureDisplacement s
  end.

Definition set_texture (sl : slot) (t : Texture.t) (s : ImageTransition) :=
  match sl with
  | From => set_textureFrom t s
  | To => set_textureTo t s
  | Displacement => set_textureDisplacement t s
  end.

(** The image of one texture is decoded with the natural size [w] by [h] and
    fires ['load']; the continuation of that texture runs. *)
Definition image_load (sl : slot) (w h : N) (s : ImageTransition)
    : ImageTransition :=
  let t := Texture.decoded w h (get_texture sl s) in
  let '(t', es) := Texture.onLoad_listener t in
  perform es (set_texture sl t' s).

(** The public operations, and what the browser does between them: an
    animation frame, one callback of it, the ['load'] of an image. *)
Inductive operation : Type :=
| Enter (startTime now : number)
| Leave (startTime now : number)
| Stop
| Reset
| SetSize (w h : N)
| SetFromImage (source : TextureSource)
| SetToImage (source : TextureSource)
| Render
| Destroy (removeElement : bool)
| Frame (now : number)
| Tick (now : number)
| Load (sl : slot) (w h : N).

Definition step (o : operation) (s : ImageTransition) : ImageTransition :=
  match o with
  | Enter startTime now => enter startTime now s
  | Leave startTime now => leave startTime now s
  | Stop => stop s
  | Reset => reset s
  | SetSize w h => setSize w h s
  | SetFromImage i => setFromImage i s
  | SetToImage i => setToImage i s
  | Render => render s
  | Destroy b => destroy b s
  | Frame now => frame now s
  | Tick now => next_callback now s
  | Load sl w h => image_load sl w h s
  end.

Definition run (os : list operation) (s : ImageTransition) : ImageTransition :=
  fold_left (fun s o => step o s) os s.

(** ** shader.ts: the fragment stage, over the reals *)

Module Shader.

Local Open Scope R_scope.

Record vec2 : Type := { x : R; y : R }.
Record vec4 : Type := { r : R; g : R; b : R; a : R }.

(** [mat2( a, b, c, d )] fills the matrix column by column: the first
    column is [(a, b)], the second [(c, d)]. *)
Record mat2 : Type := { col0 : vec2; col1 : vec2 }.

Definition mat2_ (a b c d : R) : mat2 :=
  {| col0 := {| x := a; y := b |}; col1 := {| x := c; y := d |} |}.

(** [m * v], [v * k] and [v + w] of GLSL. *)
Definition mat2_mul (m : mat2) (v : vec2) : vec2 :=
  {| x := x (col0 m) * x v + x (col1 m) * y v;
     y := y (col0 m) * x v + y (col1 m) * y v |}.

Definition scale (v : vec2) (k : R) : vec2 :=
  {| x := x v * k; y := y v * k |}.

Definition vadd (v w : vec2) : vec2 :=
  {| x := x v + x w; y := y v + y w |}.

(** [c.xy], [vec4( 0. )] and [mix( u, v, k )]. *)
Definition xy (c : vec4) : vec2 := {| x := r c; y := g c |}.

Definition vec4_ (k : R) : vec4 := {| r := k; g := k; b := k; a := k |}.

Definition mix1 (u v k : R) : R := u * (1 - k) + v * k.

Definition mix (u v : vec4) (k : R) : vec4 :=
  {| r := mix1 (r u) (r v) k; g := mix1 (g u) (g v) k;
     b := mix1 (b u) (b v) k; a := mix1 (a u) (a v) k |}.

Definition Rltb (u v : R) : bool := if Rlt_dec u v then true else false.
Definition Reqb (u v : R) : bool := if Req_dec_T u v then true else false.

Definition defaultAngle : R := 3.14159265 / 4.

Definition rotationMatrix (angle : R) : mat2 :=
  let s := sin angle in
  let c := cos angle in
  mat2_ c (- s) s c.

(** The test of the two inner conditionals of [main]. *)
Definition outside (p : vec2) : bool :=
  Rltb (x p) 0 || Rltb 1 (x p) || Rltb (y p) 0 || Rltb 1 (y p).

Section Fragment.

(** The uniforms, and [texture2D] on each of the three samplers. *)
Variables intensity direction progress disableFromImage disableToImage : R.
Variables textureFrom textureTo textureDisplacement : vec2 -> vec4.

Definition displacement (vUv : vec2) : vec2 :=
  mat2_mul (rotationMatrix (defaultAngle + direction))
           (xy (textureDisplacement vUv)).

Definition distortedPosition1 (vUv : vec2) : vec2 :=
  vadd vUv (scale (scale (displacement vUv) intensity) progress).

Definition distortedPosition2 (vUv : vec2) : vec2 :=
  vadd vUv (scale (scale (displacement vUv) intensity) (1 - progress)).

(** [main()] of FRAGMENT_SHADER_SOURCE: the value of [gl_FragColor] at
    the fragment of coordinate [vUv]. *)
Definition main (vUv : vec2) : vec4 :=
  let fromColor := textureFrom (distortedPosition1 vUv) in
  let toColor := textureTo (distortedPosition2 vUv) in
  if Reqb disableFromImage 1 then
    if outside (distortedPosition2 vUv) then vec4_ 0
    else {| r := r toColor; g := g toColor; b := b toColor;
            a := a toColor * progress |}
  else if Reqb disableToImage 1 then
    if outside (distortedPosition1 vUv) then vec4_ 0
    else {| r := r fromColor; g := g fromColor; b := b fromColor;
            a := a fromColor * (1 - progress) |}
  else mix fromColor toColor progress.

End Fragment.

End Shader.

(** [easeInOutSine], of the module of the controller, over the reals. *)
Definition easeInOutSine (x : R) : R := (- (cos (PI * x) - 1) / 2)%R.

(** The real number a finite [number] stands for. *)
Definition to_R (n : number) : option R :=
  match n with Fin q => Some (Q2R q) | _ => None end.

(** The real value of an argument of [uniform1f]. *)
Definition glfloat_R (v : glfloat) : option R :=
  match v with
  | Lit n => to_R n
  | EaseInOutSine n => option_map easeInOutSine (to_R n)
  end.

(** ** binary64: the rounding of the arithmetic *)

(** The arithmetic of JavaScript is that of binary64: the result of an
    operation is its exact result rounded to the nearest number with a
    significand of 53 bits, the one with the even significand when two are
    as near. [round53] is this rounding on the rationals, without the
    bounds of the exponent: it is the rounding of binary64 wherever the
    absolute value of the exact result is in [2^-1022, 2^1024) (or is 0). *)

(** [ilog2 x], for [x] positive: the [e] with [2^e <= x < 2^(e+1)]. *)
Definition ilog2 (x : Q) : Z :=
  let l := (Z.log2 (Qnum x) - Z.log2 (Zpos (Qden x)))%Z in
  if Qle_bool (2 ^ l) x then l else (l - 1)%Z.

(** The nearest integer, the even one at a tie. *)
Definition round_half_even (m : Q) : Z :=
  let f := Qfloor m in
  match (m - inject_Z f ?= 1 # 2)%Q with
  | Lt => f
  | Gt => (f + 1)%Z
  | Eq => if Z.even f then f else (f + 1)%Z
  end.

Definition round53 (x : Q) : Q :=
  if Qeq_bool x 0 then 0%Q
  else
    let e := ilog2 (Qabs x) in
    let significand := round_half_even (Qabs x * 2 ^ (52 - e))%Q in
    let y := (inject_Z significand * 2 ^ (e - 52))%Q in
    if Qle_bool 0 x then y else (- y)%Q.

(** The unit roundoff of binary64, [2^-53]. *)
Definition unit_roundoff : Q := 1 # 9007199254740992.

(** ** The transitions with rounded arithmetic *)

(** [enter()], [leave()] and their ticks again, each arithmetic operation
    returning its exact result rounded by [rnd]: with [rnd] the identity
    these are [enter], [leave], [tick_enter] and [tick_leave] above (see
    [rounded_exact]); with [round53] they compute what the code computes
    in binary64. [Math.max] and [Math.min], and so [clamp], return one of
    their arguments and do not round. *)
Module Rounded.

Section Rounded.

Variable rnd : Q -> Q.

Definition round (a : number) : number :=
  match a with Fin q => Fin (rnd q) | _ => a end.

Definition add (a b : number) : number := round (a + b)%num.
Definition sub (a b : number) : number := round (a - b)%num.
Definition mul (a b : number) : number := round (a * b)%num.
Definition div (a b : number) : number := round (a / b)%num.

Definition tick_enter (startTime startElapsedTime now : number)
    (s : ImageTransition) : ImageTransition :=
  if _destroyed s then s
  else if negb (_isEntering s) then s
  else
    let elapsedTime := add (sub now startTime) startElapsedTime in
    let s := set_progress
               (clamp (div elapsedTime (duration s)) (Fin 0) (Fin 1)) s in
    let s := render s in
    let s :=
      if (_progress s === Fin 1)%num
      then emit [dispatchEvent transitionEnd] (set_isEntering false s)
      else s in
    requestAnimationFrame (enter_tick startTime startElapsedTime) s.

Definition tick_leave (startTime startElapsedTime now : number)
    (s : ImageTransition) : ImageTransition :=
  if _destroyed s then s
  else if negb (_isLeaving s) then s
  else
    let elapsedTime := add (sub now startTime) startElapsedTime in
    let s := set_progress
               (clamp (sub (Fin 1) (div elapsedTime (duration s)))
                      (Fin 0) (Fin 1)) s in
    let s := render s in
    let s :=
      if (_progress s === Fin 0)%num
      then emit [dispatchEvent transitionEnd] (set_isLeaving false s)
      else s in
    requestAnimationFrame (leave_tick startTime startElapsedTime) s.

Definition enter (startTime now : number) (s : ImageTransition)
    : ImageTransition :=
  if _isEntering s then s
  else if (_progress s === Fin 1)%num then s
  else
    let s := set_isEntering true s in
    let s := set_isLeaving false s in
    let startElapsedTime := mul (duration s) (_progress s) in
    tick_enter startTime startElapsedTime now s.

Definition leave (startTime now : number) (s : ImageTransition)
    : ImageTransition :=
  if _isLeaving s then s
  else if (_progress s === Fin 0)%num then s
  else
    let s := set_isLeaving true s in
    let s := set_isEntering false s in
    let startElapsedTime := mul (duration s) (sub (Fin 1) (_progress s)) in
    tick_leave startTime startElapsedTime now s.

Definition run_callback (now : number) (cb : callback) (s : ImageTransition)
    : ImageTransition :=
  match cb with
  | enter_tick startTime startElapsedTime =>
      tick_enter startTime startElapsedTime now s
  | leave_tick startTime startElapsedTime =>
      tick_leave startTime startElapsedTime now s
  | lazy_render => set_hasUpdated false (render s)
  end.

End Rounded.

End Rounded.

(** ** A controller to evaluate on *)

Definition demo_params : Params.t :=
  {| Params.canvas := {| width := 100; height := 100; parentNode := true |};
     Params.intensity := None;
     Params.direction := None;
     Params.duration := None;
     Params.sourceFrom := Some (HTMLImageElement 16 9);
     Params.sourceTo := Some (HTMLImageElement 0 0);
     Params.displacementSource := HTMLCanvasElement 4 4 |}.

(** Fresh from the constructor; half way through [enter()]; at the end of
    [enter()]. *)
Definition demo : ImageTransition := constructor demo_params.

Definition demo_entering : ImageTransition :=
  run [Enter (Fin 0) (Fin 0); Frame (Fin 1000)] demo.

Definition demo_entered : ImageTransition :=
  run [Enter (Fin 0) (Fin 0); Frame (Fin 1000); Frame (Fin 2000)] demo.

Definition demo_leaving : ImageTransition :=
  run [Leave (Fin 2000) (Fin 2000); Frame (Fin 2500)] demo_entered.

(** [demo] in a canvas of 200 by 100. *)
Definition demo_wide : ImageTransition := setSize 200 100 demo.

(** * The rest of the module *)

(** ** webgl-utils: powers of two *)

(** [ToInt32], the conversion that [&] applies to its operands. *)
Definition ToInt32 (z : Z) : Z := ((z + 2 ^ 31) mod 2 ^ 32 - 2 ^ 31)%Z.

(** [isPowerOfTwo] on an integer, with the operands of [&] wrapped to 32
    bits as JavaScript wraps them; [isPowerOfTwo] above is this function on
    the sizes below [2 ^ 31] (see [isPowerOfTwo_int32_N]). *)
Definition isPowerOfTwo_int32 (value : Z) : bool :=
  (Z.land (ToInt32 value) (ToInt32 (value - 1)) =? 0)%Z
  && negb (value =? 0)%Z.

(** ** The static method convertPowerOfTwo *)

Section ConvertPowerOfTwo.

(** [MAX_TEXTURE_SIZE] is read from a context when the module loads.
    [ceil_log2 value] is [Math.ceil( Math.log( value ) / Math.LN2 )] as the
    floating-point operations give it on a value of 1 or more: an integer
    that is not negative, whatever the rounding of the logarithm. *)
Variable MAX_TEXTURE_SIZE : N.
Variable ceil_log2 : N -> N.

(** [ceilPowerOfTwo]: [Math.pow( 2, n )] is exact on an integer [n]; on 0
    the logarithm is [-Infinity] and the power is 0. *)
Definition ceilPowerOfTwo (value : N) : N :=
  if (value =? 0)%N then 0%N else (2 ^ ceil_log2 value)%N.

(** [ImageTransition.convertPowerOfTwo( image )]: what it returns, and
    whether it called [console.warn]. A canvas it returns is the new canvas
    of [width] by [height] on which the image is drawn. *)
Definition convertPowerOfTwo (image : TextureSource) : TextureSource * bool :=
  let isImageElement :=
    match image with HTMLImageElement _ _ => true | _ => false end in
  if isImageElement && (Texture.width_of image =? 0)%N then (image, true)
  else
    let imageWidth := Texture.width_of image in
    let imageHeight := Texture.height_of image in
    let width := N.min (ceilPowerOfTwo imageWidth) MAX_TEXTURE_SIZE in
    let height := N.min (ceilPowerOfTwo imageHeight) MAX_TEXTURE_SIZE in
    if isPowerOfTwo width && isPowerOfTwo height then (image, false)
    else (HTMLCanvasElement width height, false).

End ConvertPowerOfTwo.

(** ** EventDispatcher *)

Module EventDispatcher.

(** A listener is a function object, known by its identity. *)
Definition listener := nat.

(** [_listeners]: for each event type, [undefined] or an array of
    listeners. *)
Definition t := String.string -> option (list listener).

(** [new EventDispatcher()]: [_listeners = {}]. *)
Definition new : t := fun _ => None.

(** [listeners[ type ] = array]. *)
Definition set (type : String.string) (array : list listener) (d : t) : t :=
  fun k => if String.eqb k type then Some array else d k.

(** [array.indexOf( listener )], [None] for [-1]. *)
Fixpoint indexOf (l : listener) (array : list listener) : option nat :=
  match array with
  | [] => None
  | x :: rest =>
      if Nat.eqb x l then Some 0
      else option_map S (indexOf l rest)
  end.

(** [array.splice( index, 1 )]: what is left in the array. *)
Definition splice1 (index : nat) (array : list listener) : list listener :=
  firstn index array ++ skipn (S index) array.

Definition addEventListener (type : String.string) (l : listener) (d : t)
    : t :=
  let array := match d type with None => [] | Some array => array end in
  match indexOf l array with
  | None => set type (array ++ [l]) d
  | Some _ => set type array d
  end.


Definition removeEventListener (type : String.string) (l : listener) (d : t)
    : t :=
  match d type with
  | None => d
  | Some array =>
      match indexOf l array with
      | None => d
      | Some index => set type (splice1 index array) d
      end
  end.

(** [dispatchEvent( event )]: the listeners it calls, in the order of the
    calls (those of a copy of the array of [event.type]). What a listener
    does when called is not modelled. *)
Definition dispatchEvent (type : String.string) (d : t) : list listener :=
  match d type with
  | None => []
  | Some array => array
  end.

(** Registrations and removals, from a new dispatcher on. *)
Inductive call : Type :=
| Add (type : String.string) (l : listener)
| Remove (type : String.string) (l : listener).

Definition step (d : t) (c : call) : t :=
  match c with
  | Add type l => addEventListener type l d
  | Remove type l => removeEventListener type l d
  end.

Definition run (cs : list call) : t := fold_left step cs new.


End EventDispatcher.

(** ** shader.ts: the vertex stage, over the reals *)

Module Vertex.

Import Shader.
Local Open Scope R_scope.

Section VertexStage.

(** The uniform. *)
Variable uvScale : vec2.

(** [main()] of VERTEX_SHADER_SOURCE, for the vertex whose attributes are
    [position] and [uv]: [gl_Position], its four components in the fields
    of a [vec4], and the varying [vUv]. *)
Definition gl_Position (position : vec2) : vec4 :=
  {| r := x position; g := y position; b := 1; a := 1 |}.

Definition vUv (uv : vec2) : vec2 :=
  if Rltb (y uvScale) 1 then
    let offset := (1 - y uvScale) * 0.5 in
    {| x := x uv; y := y uv * y uvScale + offset |}
  else
    let offset := (1 - x uvScale) * 0.5 in
    {| x := x uv * x uvScale + offset; y := y uv |}.

End VertexStage.

End Vertex.

(** * The vocabulary of the properties *)

(** The effects of one [render()] of a live controller at progress [p]. *)
Definition render_effects (p : number) : list effect :=
  [ GL (clearColor 0 0 0 0);
    GL (uniform1f Uprogress (EaseInOutSine p));
    GL clear_COLOR_BUFFER_BIT_DEPTH_BUFFER_BIT;
    GL (drawArrays_TRIANGLES 0 6);
    GL flush ].

(** The words of the specification: [stop()], then progress forced to 0, then
    one render. *)
Definition reset_as_specified (s : ImageTransition) : ImageTransition :=
  render (set_progress (Fin 0) (stop s)).

(** The mode flag a tick tests, and the progress at which its mode ends. *)
Definition is_tick (cb : callback) : bool :=
  match cb with lazy_render => false | _ => true end.

Definition mode_flag (cb : callback) (s : ImageTransition) : bool :=
  match cb with
  | enter_tick _ _ => _isEntering s
  | leave_tick _ _ => _isLeaving s
  | lazy_render => false
  end.

Definition boundary (cb : callback) : number :=
  match cb with leave_tick _ _ => Fin 0 | _ => Fin 1 end.

(** The fields that neither [enter()] nor [leave()] may touch. *)
Definition same_setup (s s' : ImageTransition) : Prop :=
  duration s' = duration s /\ _canvas s' = _canvas s
  /\ _textureFrom s' = _textureFrom s /\ _textureTo s' = _textureTo s
  /\ _textureDisplacement s' = _textureDisplacement s
  /\ _hasUpdated s' = _hasUpdated s /\ _destroyed s' = _destroyed s.

(** The numbers a waiting tick captured are finite; the clock readings of an
    operation are finite, as [performance.now()] returns them. *)
Definition finite_callback (cb : callback) : bool :=
  match cb with
  | enter_tick a b | leave_tick a b => is_finite a && is_finite b
  | lazy_render => true
  end.

Definition finite_operation (o : operation) : bool :=
  match o with
  | Enter a b | Leave a b => is_finite a && is_finite b
  | Frame now | Tick now => is_finite now
  | _ => true
  end.

(** Progress is a finite number of [0, 1], [duration] is finite and not zero,
    and the waiting ticks captured finite numbers. *)
Record bounded (s : ImageTransition) : Prop := {
  bounded_progress : in_unit (_progress s) = true;
  bounded_duration : is_nonzero (duration s) = true;
  bounded_queue : forallb finite_callback (animationFrames s) = true
}.

(** At most one of the two mode flags is set. *)
Definition exclusive (s : ImageTransition) : Prop :=
  _isEntering s && _isLeaving s = false.

(** [s'] differs from [s] at most in the canvas, the textures,
    [_hasUpdated], the trace, and by requests of lazy renders. *)
Record aside (s s' : ImageTransition) : Prop := {
  aside_duration : duration s' = duration s;
  aside_progress : _progress s' = _progress s;
  aside_entering : _isEntering s' = _isEntering s;
  aside_leaving : _isLeaving s' = _isLeaving s;
  aside_destroyed : _destroyed s' = _destroyed s;
  aside_queue : forallb finite_callback (animationFrames s) = true ->
                forallb finite_callback (animationFrames s') = true
}.

(** A controller built with [duration: 0]. *)
Definition zero_duration_params : Params.t :=
  {| Params.canvas := {| width := 100; height := 100; parentNode := true |};
     Params.intensity := None;
     Params.direction := None;
     Params.duration := Some (Fin 0);
     Params.sourceFrom := Some (HTMLImageElement 16 9);
     Params.sourceTo := Some (HTMLImageElement 0 0);
     Params.displacementSource := HTMLCanvasElement 4 4 |}.

(** [canvasAspect] of [_updateAspect]. *)
Definition canvasAspect (s : ImageTransition) : number :=
  (of_N (width (_canvas s)) / of_N (height (_canvas s)))%num.

(** What a texture object holds: the bytes of an array, or the pixels of a
    source. *)
Inductive pixels : Type :=
| Pixels (width height : N) (data : list N)
| PixelsOf (source : TextureSource).

(** The part of the state of the context that decides what a texture
    holds: the active texture unit, the texture bound to [TEXTURE_2D] on
    each unit, and the image of each texture. *)
Record glstate : Type := {
  active : nat;
  bound : nat -> option WebGLTexture;
  store : WebGLTexture -> option pixels
}.

(** [f] with the value [v] at [k]. *)
Definition upd {A : Type} (f : nat -> A) (k : nat) (v : A) : nat -> A :=
  fun k' => if Nat.eqb k' k then v else f k'.

(** A fresh context; [texImage2D] writes to the texture bound on the active
    unit; the calls that matter to what a texture holds. *)
Definition gl_initial : glstate :=
  {| active := 0; bound := fun _ => None; store := fun _ => None |}.

Definition texImage2D (p : pixels) (g : glstate) : glstate :=
  match bound g (active g) with
  | Some t => {| active := active g; bound := bound g;
                 store := upd (store g) t (Some p) |}
  | None => g
  end.

Definition gl_exec (g : glstate) (e : effect) : glstate :=
  match e with
  | GL (activeTexture u) =>
      {| active := u; bound := bound g; store := store g |}
  | GL (bindTexture_TEXTURE_2D t) =>
      {| active := active g; bound := upd (bound g) (active g) t;
         store := store g |}
  | GL (texImage2D_RGBA_UNSIGNED_BYTE_array w h d) =>
      texImage2D (Pixels w h d) g
  | GL (texImage2D_RGBA_UNSIGNED_BYTE i) => texImage2D (PixelsOf i) g
  | GL (createTexture t) | GL (deleteTexture t) =>
      {| active := active g; bound := bound g;
         store := upd (store g) t None |}
  | _ => g
  end.

Definition gl_state (tr : list effect) : glstate :=
  fold_left gl_exec tr gl_initial.

(** What the texture [t] holds after the trace [tr]. *)
Definition texture_pixels (tr : list effect) (t : WebGLTexture)
    : option pixels :=
  store (gl_state tr) t.

(** [isLoaded] of a texture whose image is [i]. *)
Definition source_loaded (i : TextureSource) : bool :=
  Texture.isLoaded {| Texture.image := Some i; Texture.texture := 0 |}.

Definition opaque_black_pixel : pixels := Pixels 1 1 [0; 0; 0; 255]%N.

(** The texture holds the 1 by 1 opaque black pixel of the constructor, the
    2 by 2 default canvas, or a source that was loaded when uploaded. *)
Definition sampleable (p : option pixels) : Prop :=
  p = Some opaque_black_pixel
  \/ p = Some (PixelsOf defaultImage)
  \/ exists i, p = Some (PixelsOf i) /\ source_loaded i = true.

(** The life of one texture after its constructor: calls of [setImage], and
    loads of its image (decoded with a natural size, then the continuation
    of [onLoad] runs). The trace accumulates. *)
Module TextureLife.

Inductive call : Type :=
| SetImage (image : option TextureSource)
| Load (w h : N).

Definition step (st : Texture.t * list effect) (c : call)
    : Texture.t * list effect :=
  let '(s', es) :=
    match c with
    | SetImage i => Texture.setImage i (fst st)
    | Load w h => Texture.onLoad_listener (Texture.decoded w h (fst st))
    end in
  (s', snd st ++ es).

Definition run (cs : list call) (st : Texture.t * list effect)
    : Texture.t * list effect :=
  fold_left step cs st.

End TextureLife.

(** What [setImage] leaves in the texture. *)
Definition uploaded_by_setImage (image : option TextureSource) : TextureSource :=
  match image with
  | Some i => if source_loaded i then i else defaultImage
  | None => defaultImage
  end.

(** The state of a texture and of its handle [h] along its life. *)
Definition texture_ok (h : WebGLTexture) (st : Texture.t * list effect) : Prop :=
  Texture.texture (fst st) = h /\ sampleable (texture_pixels (snd st) h).

(** A controller destroyed half way through [enter()]. *)
Definition demo_destroyed : ImageTransition := destroy false demo_entering.

(** The rotation of the plane by the angle [t], counter-clockwise for the
    usual orientation of the axes. *)
Definition rotate (t : R) (v : Shader.vec2) : Shader.vec2 :=
  {| Shader.x := Shader.x v * cos t - Shader.y v * sin t;
     Shader.y := Shader.x v * sin t + Shader.y v * cos t |}%R.

(** * More vocabulary *)

Definition is_updated (e : effect) : bool :=
  match e with dispatchEvent (updated _) => true | _ => false end.

(** The number of ['updated'] notifications in a trace. *)
Definition updates (tr : list effect) : nat := length (filter is_updated tr).

(** The operations that change what is shown without animating: a resize,
    a new image, the load of an image. *)
Definition is_update (o : operation) : bool :=
  match o with
  | SetSize _ _ | SetFromImage _ | SetToImage _ | Load _ _ _ => true
  | _ => false
  end.

Definition sets_image (o : operation) : bool :=
  match o with
  | SetFromImage _ | SetToImage _ => true
  | _ => false
  end.

(** Neither mode flag is set. *)
Definition idle (s : ImageTransition) : bool :=
  negb (_isEntering s) && negb (_isLeaving s).

(** From [s] to [s'] nothing was drawn and no ['transitionEnd'] dispatched,
    progress, [duration] and the three flags are the same, and either
    [_hasUpdated] and the queue are the same too, or one lazy render was
    requested: then [s] was idle with [_hasUpdated] unset, and [s'] has it
    set. *)
Record quiet (s s' : ImageTransition) : Prop := {
  quiet_aside : aside s s';
  quiet_draws : draws (trace s') = draws (trace s);
  quiet_ends : transitionEnds (trace s') = transitionEnds (trace s);
  quiet_queue :
    (_hasUpdated s' = _hasUpdated s
     /\ animationFrames s' = animationFrames s)
    \/ (idle s = true /\ _hasUpdated s = false /\ _hasUpdated s' = true
        /\ animationFrames s' = animationFrames s ++ [lazy_render])
}.

(** The operations that leave a new controller as it is, or only update
    it: all but [enter()], [reset()], [render()] and [destroy()]. *)
Definition is_passive (o : operation) : bool :=
  match o with
  | Enter _ _ | Reset | Render | Destroy _ => false
  | _ => true
  end.

(** A controller that is idle with [_hasUpdated] unset: [demo] after its
    [enter()] has ended and the last tick has run. *)
Definition demo_shown : ImageTransition := run [Frame (Fin 3000)] demo_entered.

(** A controller on which nothing was ever drawn and whose update flag is
    still set, as the constructor leaves it. *)
Record untouched (s : ImageTransition) : Prop := {
  untouched_idle : idle s = true;
  untouched_hasUpdated : _hasUpdated s = true;
  untouched_progress : _progress s = Fin 0;
  untouched_queue : animationFrames s = [];
  untouched_draws : draws (trace s) = 0;
  untouched_ends : transitionEnds (trace s) = 0
}.

(** The point [uv] moved towards the centre of the image by the factors
    [k], one for each axis. *)
Definition centred (k uv : Shader.vec2) : Shader.vec2 :=
  {| Shader.x := 1 / 2 + (Shader.x uv - 1 / 2) * Shader.x k;
     Shader.y := 1 / 2 + (Shader.y uv - 1 / 2) * Shader.y k |}%R.

(** A point of the unit square. *)
Definition in_square (p : Shader.vec2) : Prop :=
  (0 <= Shader.x p <= 1 /\ 0 <= Shader.y p <= 1)%R.

(** * Properties *)

(** ** Numbers *)

Lemma Qeq_bool_false (x y : Q) : Qeq_bool x y = false <-> ~ (x == y)%Q.
Proof.
  split.
  - intros H E. apply Qeq_bool_iff in E. congruence.
  - intros H. destruct (Qeq_bool x y) eqn:E; [|reflexivity].
    apply Qeq_bool_iff in E. contradiction.
Qed.

Lemma Qle_bool_false (x y : Q) : Qle_bool x y = false <-> (y < x)%Q.
Proof.
  split.
  - intros H. apply Qnot_le_lt. intros L. apply Qle_bool_iff in L. congruence.
  - intros H. destruct (Qle_bool x y) eqn:E; [|reflexivity].
    apply Qle_bool_iff in E. exfalso. apply (Qlt_not_le _ _ H E).
Qed.

(** Case analysis on the boolean tests of rationals, leaving their meaning in
    the context. *)
Ltac qbool :=
  repeat match goal with
  | |- context [Qle_bool ?a ?b] =>
      let E := fresh "E" in
      destruct (Qle_bool a b) eqn:E;
      [apply Qle_bool_iff in E | apply Qle_bool_false in E]
  | |- context [Qeq_bool ?a ?b] =>
      let E := fresh "E" in
      destruct (Qeq_bool a b) eqn:E;
      [apply Qeq_bool_iff in E | apply Qeq_bool_false in E]
  | H : Qle_bool _ _ = true |- _ => apply Qle_bool_iff in H
  | H : Qle_bool _ _ = false |- _ => apply Qle_bool_false in H
  | H : Qeq_bool _ _ = true |- _ => apply Qeq_bool_iff in H
  | H : Qeq_bool _ _ = false |- _ => apply Qeq_bool_false in H
  end.

Lemma in_unit_iff (a : number) :
  in_unit a = true <-> exists x, a = Fin x /\ (0 <= x <= 1)%Q.
Proof.
  destruct a as [x| | |]; simpl; split;
    try discriminate; try (intros [y [E _]]; discriminate).
  - intros H. apply andb_true_iff in H. destruct H as [H1 H2]. qbool.
    exists x. auto.
  - intros [y [E [H1 H2]]]. inversion E; subst.
    apply andb_true_iff. split; apply Qle_bool_iff; assumption.
Qed.

(** [clamp] of a finite number to [0, 1] is finite and in [0, 1]. *)
Lemma clamp_Fin (x : Q) :
  exists y, clamp (Fin x) (Fin 0) (Fin 1) = Fin y /\ (0 <= y <= 1)%Q
            /\ ((0 <= x <= 1)%Q -> (y == x)%Q)
            /\ ((1 <= x)%Q -> (y == 1)%Q)
            /\ ((x <= 0)%Q -> (y == 0)%Q).
Proof.
  unfold clamp, Num.max, Num.min.
  destruct (Qle_bool x 0) eqn:E0; [apply Qle_bool_iff in E0 | apply Qle_bool_false in E0].
  - simpl. exists 0%Q.
    split; [reflexivity|]. split; [lra|]. split; [|split]; intros; lra.
  - destruct (Qle_bool x 1) eqn:E1; [apply Qle_bool_iff in E1 | apply Qle_bool_false in E1].
    + exists x.
      split; [reflexivity|]. split; [lra|]. split; [|split]; intros; lra.
    + exists 1%Q.
      split; [reflexivity|]. split; [lra|]. split; [|split]; intros; lra.
Qed.

Lemma clamp_in_unit (x : Q) : in_unit (clamp (Fin x) (Fin 0) (Fin 1)) = true.
Proof.
  destruct (clamp_Fin x) as [y [E [H _]]]. rewrite E.
  apply in_unit_iff. exists y. auto.
Qed.

(** Arithmetic on finite numbers, the divisor not being zero. *)
Lemma div_Fin (x y : Q) : ~ (y == 0)%Q -> (Fin x / Fin y)%num = Fin (x / y).
Proof.
  intros H. unfold Num.div. apply Qeq_bool_false in H. rewrite H. reflexivity.
Qed.

Lemma same_refl (a : number) : same a a.
Proof. destruct a; simpl; auto. reflexivity. Qed.

Lemma same_eqb (a : number) (x y : Q) :
  same a (Fin x) -> (x == y)%Q -> (a === Fin y)%num = true.
Proof.
  destruct a as [z| | |]; simpl; try contradiction.
  intros H1 H2. apply Qeq_bool_iff. rewrite H1. exact H2.
Qed.

Lemma same_neqb (a : number) (x y : Q) :
  same a (Fin x) -> ~ (x == y)%Q -> (a === Fin y)%num = false.
Proof.
  destruct a as [z| | |]; simpl; try contradiction.
  intros H1 H2. apply Qeq_bool_false. rewrite H1. exact H2.
Qed.

(** [clamp] on the results of a division by zero. *)
Example clamp_half : clamp (Fin (1#2)) (Fin 0) (Fin 1) = Fin (1#2).
Proof. reflexivity. Qed.

Example clamp_nan : clamp (Fin 0 / Fin 0)%num (Fin 0) (Fin 1) = NaN.
Proof. reflexivity. Qed.

Example clamp_inf : clamp (Fin 5 / Fin 0)%num (Fin 0) (Fin 1) = Fin 1.
Proof. reflexivity. Qed.

(** ** Counting in traces *)

Lemma transitionEnds_app (tr tr' : list effect) :
  transitionEnds (tr ++ tr') = (transitionEnds tr + transitionEnds tr')%nat.
Proof. unfold transitionEnds. rewrite filter_app, length_app. reflexivity. Qed.

Lemma draws_app (tr tr' : list effect) :
  draws (tr ++ tr') = (draws tr + draws tr')%nat.
Proof. unfold draws. rewrite filter_app, length_app. reflexivity. Qed.

Lemma gl_calls_app (tr tr' : list effect) :
  gl_calls (tr ++ tr') = gl_calls tr ++ gl_calls tr'.
Proof. unfold gl_calls. apply filter_app. Qed.

(** ** stop() *)

(** C6. While Entering or Leaving is active, [stop()] clears both mode flags
    and dispatches one ['transitionEnd']: the state after it is the state
    before it with the two flags false and that one notification appended to
    the trace, every other field (progress among them) being the same. While
    neither is active, [stop()] returns the state it was given. *)
Theorem stop_freezes_and_notifies_once (s : ImageTransition) :
  (_isEntering s || _isLeaving s = true ->
     stop s =
       {| duration := duration s; _progress := _progress s;
          _canvas := _canvas s; _textureFrom := _textureFrom s;
          _textureTo := _textureTo s;
          _textureDisplacement := _textureDisplacement s;
          _isEntering := false; _isLeaving := false;
          _hasUpdated := _hasUpdated s; _destroyed := _destroyed s;
          trace := trace s ++ [dispatchEvent transitionEnd];
          animationFrames := animationFrames s |}
     /\ transitionEnds (trace (stop s)) = S (transitionEnds (trace s))
     /\ gl_calls (trace (stop s)) = gl_calls (trace s))
  /\ (_isEntering s || _isLeaving s = false -> stop s = s).
Proof.
  split; intros H; unfold stop.
  - destruct (_isEntering s), (_isLeaving s); try discriminate; simpl;
      (split; [reflexivity|]);
      rewrite transitionEnds_app, gl_calls_app, app_nil_r; simpl;
      (split; [apply Nat.add_1_r | reflexivity]).
  - destruct (_isEntering s), (_isLeaving s); try discriminate. reflexivity.
Qed.

Lemma stop_freezes_and_notifies_once_witness :
  (_isEntering demo_entering = true
   /\ _progress (stop demo_entering) = _progress demo_entering
   /\ transitionEnds (trace (stop demo_entering))
      = S (transitionEnds (trace demo_entering)))
  /\ stop demo = demo.
Proof.
  split.
  - destruct (proj1 (stop_freezes_and_notifies_once demo_entering) eq_refl)
      as [E [T _]].
    split; [reflexivity|]. split; [rewrite E; reflexivity | exact T].
  - exact (proj2 (stop_freezes_and_notifies_once demo) eq_refl).
Defined.

(** ** reset() *)

(** C7. [reset()] is [stop()] followed by [progress = 0] and one [render()].
    After it progress is 0 and both mode flags are cleared; ['transitionEnd']
    has been dispatched once if Entering or Leaving was active, and not at
    all otherwise; the one render draws once (with the eased value of 0),
    unless the controller was destroyed, where [render()] does nothing. *)
Theorem reset_spec (s : ImageTransition) :
  reset s = reset_as_specified s
  /\ _progress (reset s) = Fin 0
  /\ _isEntering (reset s) = false
  /\ _isLeaving (reset s) = false
  /\ transitionEnds (trace (reset s)) =
       (transitionEnds (trace s)
        + if _isEntering s || _isLeaving s then 1 else 0)%nat
  /\ trace (reset s) =
       trace (stop s)
       ++ (if _destroyed s then [] else render_effects (Fin 0))
  /\ draws (trace (reset s)) =
       (draws (trace s) + if _destroyed s then 0 else 1)%nat.
Proof.
  split; [reflexivity|].
  unfold reset, stop, render.
  destruct (_isEntering s) eqn:E1, (_isLeaving s) eqn:E2, (_destroyed s) eqn:D;
    simpl; rewrite ?E1, ?E2, ?D; simpl;
    repeat split;
    rewrite ?app_nil_r, ?transitionEnds_app, ?draws_app;
    simpl; auto using Nat.add_0_r.
Qed.

(** ** enter() where there is nothing to do *)

(** C8. With progress equal to 1, or with the Entering flag already set,
    [enter()] returns the state it was given: no flag, no progress, no
    trace entry and no scheduled callback changes, so that whatever happens
    afterwards is what would have happened without the call. *)
Theorem enter_noop (startTime now : number) (s : ImageTransition) :
  (_progress s === Fin 1)%num = true \/ _isEntering s = true ->
  enter startTime now s = s
  /\ forall os, run os (enter startTime now s) = run os s.
Proof.
  intros H.
  assert (E : enter startTime now s = s).
  { unfold enter. destruct (_isEntering s); [reflexivity|].
    destruct H as [H|H]; [rewrite H; reflexivity | discriminate]. }
  split; [exact E | intros os; rewrite E; reflexivity].
Qed.

Lemma enter_noop_witness :
  enter (Fin 2500) (Fin 2500) demo_entered = demo_entered
  /\ enter (Fin 1200) (Fin 1200) demo_entering = demo_entering.
Proof.
  split.
  - apply (enter_noop (Fin 2500) (Fin 2500) demo_entered).
    left. vm_compute. reflexivity.
  - apply (enter_noop (Fin 1200) (Fin 1200) demo_entering).
    right. vm_compute. reflexivity.
Defined.

(** ** The ticks *)

(** What the [tick] of [enter()] does to a live controller whose Entering
    flag is set: [p] is the progress it computes. *)
Lemma tick_enter_live (startTime startElapsedTime now : number)
    (s : ImageTransition) :
  _destroyed s = false -> _isEntering s = true ->
  let p := clamp ((now - startTime + startElapsedTime) / duration s)%num
                 (Fin 0) (Fin 1) in
  tick_enter startTime startElapsedTime now s =
    {| duration := duration s; _progress := p; _canvas := _canvas s;
       _textureFrom := _textureFrom s; _textureTo := _textureTo s;
       _textureDisplacement := _textureDisplacement s;
       _isEntering := negb (p === Fin 1)%num; _isLeaving := _isLeaving s;
       _hasUpdated := if (p === Fin 1)%num then false else _hasUpdated s;
       _destroyed := _destroyed s;
       trace := trace s ++ render_effects p
                ++ (if (p === Fin 1)%num
                    then [dispatchEvent transitionEnd] else []);
       animationFrames :=
         animationFrames s ++ [enter_tick startTime startElapsedTime] |}.
Proof.
  intros D E p. unfold tick_enter, render. rewrite D, E. cbv zeta.
  fold p. clearbody p. simpl. rewrite D. destruct (p === Fin 1)%num eqn:P; simpl; rewrite ?P; simpl;
    unfold requestAnimationFrame, set_animationFrames, emit; simpl;
    rewrite ?D, ?E, <- ?app_assoc, ?app_nil_r; reflexivity.
Qed.

Lemma tick_leave_live (startTime startElapsedTime now : number)
    (s : ImageTransition) :
  _destroyed s = false -> _isLeaving s = true ->
  let p := clamp (Fin 1 - (now - startTime + startElapsedTime) / duration s)%num
                 (Fin 0) (Fin 1) in
  tick_leave startTime startElapsedTime now s =
    {| duration := duration s; _progress := p; _canvas := _canvas s;
       _textureFrom := _textureFrom s; _textureTo := _textureTo s;
       _textureDisplacement := _textureDisplacement s;
       _isEntering := _isEntering s; _isLeaving := negb (p === Fin 0)%num;
       _hasUpdated := if (p === Fin 1)%num then false else _hasUpdated s;
       _destroyed := _destroyed s;
       trace := trace s ++ render_effects p
                ++ (if (p === Fin 0)%num
                    then [dispatchEvent transitionEnd] else []);
       animationFrames :=
         animationFrames s ++ [leave_tick startTime startElapsedTime] |}.
Proof.
  intros D E p. unfold tick_leave, render. rewrite D, E. cbv zeta.
  fold p. clearbody p. simpl. rewrite D.
  destruct (p === Fin 1)%num eqn:P1; destruct (p === Fin 0)%num eqn:P0;
    simpl; rewrite ?P0; simpl;
    unfold requestAnimationFrame, set_animationFrames, emit; simpl;
    rewrite ?D, ?E, <- ?app_assoc, ?app_nil_r; reflexivity.
Qed.

(** A tick whose mode flag is cleared, or whose controller is destroyed, does
    nothing and requests nothing. *)
Lemma tick_enter_idle (startTime startElapsedTime now : number)
    (s : ImageTransition) :
  _destroyed s = true \/ _isEntering s = false ->
  tick_enter startTime startElapsedTime now s = s.
Proof.
  intros [H|H]; unfold tick_enter; rewrite H; [reflexivity|].
  destruct (_destroyed s); reflexivity.
Qed.

Lemma tick_leave_idle (startTime startElapsedTime now : number)
    (s : ImageTransition) :
  _destroyed s = true \/ _isLeaving s = false ->
  tick_leave startTime startElapsedTime now s = s.
Proof.
  intros [H|H]; unfold tick_leave; rewrite H; [reflexivity|].
  destruct (_destroyed s); reflexivity.
Qed.

Lemma frame_one (now : number) (cb : callback) (s : ImageTransition) :
  animationFrames s = [cb] ->
  frame now s = run_callback now cb (set_animationFrames [] s).
Proof. intros H. unfold frame. rewrite H. reflexivity. Qed.

Lemma elapsed_Fin (now st se d : Q) :
  ~ (d == 0)%Q ->
  ((Fin now - Fin st + Fin se) / Fin d)%num = Fin ((now - st + se) / d).
Proof. intros H. apply div_Fin. exact H. Qed.

(** One animation frame of a live controller whose queue holds the tick of
    its running [enter()] and nothing else. *)
Lemma frame_entering (s : ImageTransition) (st se now d : Q) :
  _destroyed s = false -> _isEntering s = true ->
  animationFrames s = [enter_tick (Fin st) (Fin se)] ->
  duration s = Fin d -> ~ (d == 0)%Q ->
  let p := clamp (Fin ((now - st + se) / d)) (Fin 0) (Fin 1) in
  frame (Fin now) s =
    {| duration := duration s; _progress := p; _canvas := _canvas s;
       _textureFrom := _textureFrom s; _textureTo := _textureTo s;
       _textureDisplacement := _textureDisplacement s;
       _isEntering := negb (p === Fin 1)%num; _isLeaving := _isLeaving s;
       _hasUpdated := if (p === Fin 1)%num then false else _hasUpdated s;
       _destroyed := _destroyed s;
       trace := trace s ++ render_effects p
                ++ (if (p === Fin 1)%num
                    then [dispatchEvent transitionEnd] else []);
       animationFrames := [enter_tick (Fin st) (Fin se)] |}.
Proof.
  intros D E Hq Hd Hz p.
  rewrite (frame_one (Fin now) _ s Hq). cbn [run_callback].
  rewrite tick_enter_live by assumption.
  cbn [set_animationFrames duration _progress _canvas _textureFrom _textureTo
       _textureDisplacement _isEntering _isLeaving _hasUpdated _destroyed
       trace animationFrames app].
  rewrite Hd, elapsed_Fin by assumption. reflexivity.
Qed.

Lemma transitionEnds_render (p : number) :
  transitionEnds (render_effects p) = 0%nat.
Proof. reflexivity. Qed.

Lemma easeInOutSine_half : easeInOutSine (1 / 2) = (1 / 2)%R.
Proof.
  unfold easeInOutSine.
  replace (PI * (1 / 2))%R with (PI / 2)%R by lra.
  rewrite cos_PI2. lra.
Qed.

Lemma glfloat_R_eased_half (y : Q) :
  (y == 1 # 2)%Q -> glfloat_R (EaseInOutSine (Fin y)) = Some (1 / 2)%R.
Proof.
  intros H. simpl. f_equal. rewrite (Qeq_eqR _ _ H).
  replace (Q2R (1 # 2)) with (1 / 2)%R by (unfold Q2R; simpl; lra).
  apply easeInOutSine_half.
Qed.

(** ** The scenario of the specification and the terminal tick *)

(** C1, as amended. [enter()] at the instant [t0] on a live controller at
    rest with [duration = 2000] and progress 0: the frame at [t0 + 1000] sets
    progress to 1/2 and pushes the eased progress 1/2; the frame at
    [t0 + 2000] sets progress to 1, clears the Entering flag and dispatches
    one ['transitionEnd'] (the only one since [enter()]). That tick still
    requests one more animation frame for itself; the tick that then runs
    changes nothing and requests nothing.
    In general, a tick of a live controller whose mode flag is set and whose
    progress reaches the boundary of its mode (1 for [enter()], 0 for
    [leave()]) clears the flag, dispatches one ['transitionEnd'] after its
    render and requests itself once more; run again, it changes nothing and
    requests nothing. *)
Theorem terminal_tick_requests_one_idle_tick :
  (forall (s : ImageTransition) (t0 : Q),
     duration s = Fin 2000 -> _progress s = Fin 0 -> _isEntering s = false ->
     _destroyed s = false -> animationFrames s = [] ->
     let s1 := enter (Fin t0) (Fin t0) s in
     let s2 := frame (Fin (t0 + 1000)) s1 in
     let s3 := frame (Fin (t0 + 2000)) s2 in
     same (_progress s2) (Fin (1 # 2))
     /\ trace s2 = trace s1 ++ render_effects (_progress s2)
     /\ glfloat_R (EaseInOutSine (_progress s2)) = Some (1 / 2)%R
     /\ same (_progress s3) (Fin 1)
     /\ _isEntering s3 = false
     /\ trace s3 = trace s2 ++ render_effects (_progress s3)
                   ++ [dispatchEvent transitionEnd]
     /\ transitionEnds (trace s3) = S (transitionEnds (trace s))
     /\ animationFrames s3 = [enter_tick (Fin t0) (Fin 2000 * Fin 0)%num]
     /\ forall now, frame now s3 = set_animationFrames [] s3)
  /\ (forall (cb : callback) (now : number) (s : ImageTransition),
        is_tick cb = true -> _destroyed s = false -> mode_flag cb s = true ->
        let s' := run_callback now cb s in
        (_progress s' === boundary cb)%num = true ->
        mode_flag cb s' = false
        /\ trace s' = trace s ++ render_effects (_progress s')
                      ++ [dispatchEvent transitionEnd]
        /\ animationFrames s' = animationFrames s ++ [cb]
        /\ forall now', run_callback now' cb s' = s').
Proof.
  split.
  { intros s t0.
    intros Hd Hp He Hx Hq s1 s2 s3.
    set (s0 := set_isLeaving false (set_isEntering true s)).
    assert (E1 : s1 = tick_enter (Fin t0) (Fin (2000 * 0)) (Fin t0) s0).
    { unfold s1, enter. rewrite He, Hp. cbv zeta. fold s0.
      replace (duration s0) with (Fin 2000) by (symmetry; exact Hd).
      replace (_progress s0) with (Fin 0) by (symmetry; exact Hp).
      reflexivity. }
    rewrite tick_enter_live in E1 by (reflexivity + assumption).
    replace (duration s0) with (Fin 2000) in E1 by (symmetry; exact Hd).
    rewrite elapsed_Fin in E1 by discriminate.
    destruct (clamp_Fin ((t0 - t0 + 2000 * 0) / 2000)) as [y1 [Y1 [_ [_ [_ Z1]]]]].
    rewrite Y1 in E1.
    assert (y1 == 0)%Q as Hy1
      by (apply Z1; setoid_replace ((t0 - t0 + 2000 * 0) / 2000)%Q with 0%Q by field; lra).
    assert (N1 : (Fin y1 === Fin 1)%num = false)
      by (apply (same_neqb (Fin y1) y1 1); [apply same_refl | lra]).
    rewrite N1 in E1. cbn [negb] in E1.
    change (animationFrames s0) with (animationFrames s) in E1.
    change (trace s0) with (trace s) in E1.
    rewrite Hq, app_nil_r in E1. cbn [app] in E1.
    (* second tick *)
    assert (E2 : s2 = frame (Fin (t0 + 1000)) s1) by reflexivity.
    rewrite (frame_entering s1 t0 (2000 * 0) (t0 + 1000) 2000) in E2;
      try (rewrite E1; reflexivity + assumption); [|lra].
    destruct (clamp_Fin ((t0 + 1000 - t0 + 2000 * 0) / 2000)) as [y2 [Y2 [_ [I2 _]]]].
    rewrite Y2 in E2.
    assert (y2 == 1 # 2)%Q as Hy2.
    { assert (X : ((t0 + 1000 - t0 + 2000 * 0) / 2000 == 1 # 2)%Q) by field.
      rewrite I2; [exact X | rewrite X; lra]. }
    assert (N2 : (Fin y2 === Fin 1)%num = false)
      by (apply (same_neqb (Fin y2) y2 1); [apply same_refl | lra]).
    rewrite N2 in E2. cbn [negb] in E2. rewrite app_nil_r in E2.
    (* third tick *)
    assert (E3 : s3 = frame (Fin (t0 + 2000)) s2) by reflexivity.
    rewrite (frame_entering s2 t0 (2000 * 0) (t0 + 2000) 2000) in E3;
      try (rewrite E2, ?E1; reflexivity + assumption); [|lra].
    destruct (clamp_Fin ((t0 + 2000 - t0 + 2000 * 0) / 2000)) as [y3 [Y3 [_ [_ [O3 _]]]]].
    rewrite Y3 in E3.
    assert (y3 == 1)%Q as Hy3
      by (apply O3; setoid_replace ((t0 + 2000 - t0 + 2000 * 0) / 2000)%Q with 1%Q by field; lra).
    assert (N3 : (Fin y3 === Fin 1)%num = true)
      by (apply (same_eqb (Fin y3) y3 1); [apply same_refl | lra]).
    rewrite N3 in E3. cbn [negb] in E3.
    assert (P2 : _progress s2 = Fin y2) by (rewrite E2; reflexivity).
    assert (P3 : _progress s3 = Fin y3) by (rewrite E3; reflexivity).
    assert (T1 : trace s1 = trace s ++ render_effects (Fin y1))
      by (rewrite E1; reflexivity).
    assert (T2 : trace s2 = trace s1 ++ render_effects (Fin y2))
      by (rewrite E2; reflexivity).
    assert (T3 : trace s3 = trace s2 ++ render_effects (Fin y3)
                            ++ [dispatchEvent transitionEnd])
      by (rewrite E3; reflexivity).
    rewrite P2, P3.
    split; [exact Hy2|]. split; [exact T2|].
    split; [apply glfloat_R_eased_half; exact Hy2|].
    split; [exact Hy3|]. split; [rewrite E3; reflexivity|].
    split; [exact T3|].
    split.
    { rewrite T3, T2, T1, !transitionEnds_app, !transitionEnds_render.
      simpl. rewrite !Nat.add_0_r. apply Nat.add_1_r. }
    split; [rewrite E3; reflexivity|].
    intros now.
    rewrite (frame_one now (enter_tick (Fin t0) (Fin 2000 * Fin 0)%num) s3)
      by (rewrite E3; reflexivity).
    cbn [run_callback]. apply tick_enter_idle. right. rewrite E3. reflexivity.  }
  intros [st se|st se|] now s T D M s' P; [| |discriminate];
    unfold s' in *; cbn [run_callback mode_flag boundary] in *.
  - rewrite tick_enter_live in P |- * by assumption.
    cbn [_progress _isEntering trace animationFrames] in P |- *. rewrite P.
    repeat split. intros now'. apply tick_enter_idle. right. reflexivity.
  - rewrite tick_leave_live in P |- * by assumption.
    cbn [_progress _isLeaving trace animationFrames] in P |- *. rewrite P.
    repeat split. intros now'. apply tick_leave_idle. right. reflexivity.
Qed.

(** The claim as stated fails: the tick of [enter()] that reaches progress 1
    clears the flag and notifies, and leaves a callback in the queue of the
    next animation frame. *)
Lemma terminal_tick_schedules_a_tick :
  (_progress demo_entering === Fin 1)%num = false
  /\ animationFrames demo_entering = [enter_tick (Fin 0) (Fin 0)]
  /\ demo_entered = frame (Fin 2000) demo_entering
  /\ (_progress demo_entered === Fin 1)%num = true
  /\ _isEntering demo_entered = false
  /\ transitionEnds (trace demo_entered) = 1%nat
  /\ animationFrames demo_entered = [enter_tick (Fin 0) (Fin 0)].
Proof. vm_compute. repeat split. Qed.

Lemma terminal_tick_requests_one_idle_tick_witness :
  (same (_progress (frame (Fin (0 + 1000)) (enter (Fin 0) (Fin 0) demo)))
        (Fin (1 # 2))
   /\ _isEntering demo_entered = false)
  /\ (let s' := run_callback (Fin 2000) (enter_tick (Fin 0) (Fin 0))
                  (set_animationFrames [] demo_entering) in
      mode_flag (enter_tick (Fin 0) (Fin 0)) s' = false
      /\ forall now', run_callback now' (enter_tick (Fin 0) (Fin 0)) s' = s').
Proof.
  split.
  - destruct (proj1 terminal_tick_requests_one_idle_tick demo 0%Q
                eq_refl eq_refl eq_refl eq_refl eq_refl)
      as [H1 [_ [_ [_ [H2 _]]]]].
    split; [exact H1 | exact H2].
  - destruct (proj2 terminal_tick_requests_one_idle_tick
                (enter_tick (Fin 0) (Fin 0)) (Fin 2000)
                (set_animationFrames [] demo_entering)
                eq_refl eq_refl eq_refl eq_refl)
      as [H1 [_ [_ H2]]].
    split; [exact H1 | exact H2].
Defined.

(** The tick requested at the end of [enter()] is idle only while the
    Entering flag stays cleared: after [reset()] and a new [enter()] in the
    same frame interval, it finds the flag set again and, with its old start
    time, ends the new animation at once. *)
Remark stale_tick_ends_a_restarted_animation :
  _progress (run [Reset; Enter (Fin 2010) (Fin 2010)] demo_entered) = Fin 0
  /\ (_progress
        (run [Reset; Enter (Fin 2010) (Fin 2010); Frame (Fin 2020)]
             demo_entered) === Fin 1)%num = true
  /\ transitionEnds
       (trace (run [Reset; Enter (Fin 2010) (Fin 2010); Frame (Fin 2020)]
                   demo_entered))
     = 2%nat.
Proof. vm_compute. repeat split. Qed.

(** ** Switching direction in the middle of an animation *)

Lemma clamp_same (a b : Q) :
  (a == b)%Q ->
  same (clamp (Fin a) (Fin 0) (Fin 1)) (clamp (Fin b) (Fin 0) (Fin 1)).
Proof.
  intros H.
  destruct (clamp_Fin a) as [y [Ey [By [Iy [Oy Zy]]]]].
  destruct (clamp_Fin b) as [z [Ez [Bz [Iz [Oz Zz]]]]].
  rewrite Ey, Ez. simpl.
  destruct (Qlt_le_dec a 0); [rewrite Zy, Zz; lra|].
  destruct (Qlt_le_dec 1 a); [rewrite Oy, Oz; lra|].
  rewrite Iy, Iz; lra.
Qed.

Lemma leave_elapsed_Fin (now st se d : Q) :
  ~ (d == 0)%Q ->
  (Fin 1 - (Fin now - Fin st + Fin se) / Fin d)%num
  = Fin (1 - (now - st + se) / d).
Proof. intros H. rewrite elapsed_Fin by assumption. reflexivity. Qed.

(** ** binary64 rounding *)

Lemma pow2_pos (e : Z) : (0 < 2 ^ e)%Q.
Proof. apply Qpower_0_lt. reflexivity. Qed.

Lemma pow2_add (a b : Z) : (2 ^ (a + b) == 2 ^ a * 2 ^ b)%Q.
Proof. apply Qpower_plus. discriminate. Qed.

Lemma pow2_inject (n : Z) : (0 <= n)%Z -> (inject_Z (2 ^ n) == 2 ^ n)%Q.
Proof. intros H. apply (Zpower_Qpower 2 n H). Qed.

(** [ilog2 x] is not above the logarithm of [x]. *)
Lemma ilog2_le (x : Q) : (0 < x)%Q -> (2 ^ ilog2 x <= x)%Q.
Proof.
  intros P. unfold ilog2. cbv zeta.
  set (l := (Z.log2 (Qnum x) - Z.log2 (Zpos (Qden x)))%Z).
  destruct (Qle_bool (2 ^ l) x) eqn:T; [apply Qle_bool_iff; exact T|].
  destruct x as [n dd]. cbn [Qnum Qden] in l.
  assert (Pn : (0 < n)%Z) by (unfold Qlt in P; cbn in P; lia).
  destruct (Z.log2_spec n Pn) as [N1 N2].
  destruct (Z.log2_spec (Zpos dd) eq_refl) as [D1 D2].
  pose proof (Z.log2_nonneg n) as Ln.
  pose proof (Z.log2_nonneg (Zpos dd)) as Ld.
  replace (l - 1)%Z with (Z.log2 n + - (Z.succ (Z.log2 (Zpos dd))))%Z
    by (unfold l; lia).
  rewrite pow2_add, Qpower_opp.
  rewrite <- (pow2_inject (Z.log2 n)) by exact Ln.
  rewrite <- (pow2_inject (Z.succ (Z.log2 (Zpos dd)))) by lia.
  set (a := (2 ^ Z.log2 n)%Z) in *.
  set (b := (2 ^ Z.succ (Z.log2 (Zpos dd)))%Z) in *.
  assert (Pb : (0 < b)%Z) by lia.
  assert (E : (inject_Z a * / inject_Z b == a # Z.to_pos b)%Q).
  { rewrite (Qmake_Qdiv a (Z.to_pos b)). rewrite Z2Pos.id by exact Pb.
    reflexivity. }
  rewrite E. unfold Qle. cbn [Qnum Qden]. rewrite Z2Pos.id by exact Pb.
  nia.
Qed.

Lemma round_half_even_error (m : Q) :
  (Qabs (inject_Z (round_half_even m) - m) <= 1 # 2)%Q.
Proof.
  unfold round_half_even. cbv zeta.
  pose proof (Qfloor_le m) as L. pose proof (Qlt_floor m) as U.
  set (f := Qfloor m) in *.
  assert (S : (inject_Z (f + 1) == inject_Z f + 1)%Q)
    by (rewrite inject_Z_plus; reflexivity).
  apply Qabs_Qle_condition.
  destruct (m - inject_Z f ?= 1 # 2)%Q eqn:C.
  - apply Qeq_alt in C. destruct (Z.even f); rewrite ?S; split; lra.
  - apply Qlt_alt in C. split; lra.
  - apply Qgt_alt in C. rewrite S. split; lra.
Qed.

(** The relative error of the rounding is at most the unit roundoff. *)
Lemma round53_error (x : Q) :
  (Qabs (round53 x - x) <= unit_roundoff * Qabs x)%Q.
Proof.
  unfold round53.
  destruct (Qeq_bool x 0) eqn:Z;
    [apply Qeq_bool_iff in Z | apply Qeq_bool_false in Z].
  { rewrite Z. vm_compute. discriminate. }
  cbv zeta.
  set (ax := Qabs x). set (e := ilog2 ax).
  set (k := round_half_even (ax * 2 ^ (52 - e))).
  assert (Pa : (0 < ax)%Q).
  { unfold ax. destruct (Qlt_le_dec 0 x) as [H|H].
    - rewrite Qabs_pos; lra.
    - rewrite Qabs_neg; lra. }
  pose proof (ilog2_le ax Pa) as Le. fold e in Le.
  pose proof (round_half_even_error (ax * 2 ^ (52 - e))) as R. fold k in R.
  apply Qabs_Qle_condition in R. destruct R as [R1 R2].
  pose proof (pow2_pos (e - 52)) as P1.
  assert (M : (2 ^ (52 - e) * 2 ^ (e - 52) == 1)%Q).
  { rewrite <- pow2_add. replace (52 - e + (e - 52))%Z with 0%Z by lia.
    reflexivity. }
  assert (H53 : (2 ^ (e - 52) * (1 # 2) == unit_roundoff * 2 ^ e)%Q).
  { replace (e - 52)%Z with (e + -52)%Z by lia. rewrite pow2_add.
    unfold unit_roundoff.
    assert (X : (2 ^ (-52) == 1 # 4503599627370496)%Q) by reflexivity.
    rewrite X. field. }
  assert (B : (Qabs (inject_Z k * 2 ^ (e - 52) - ax) <= unit_roundoff * ax)%Q).
  { apply Qabs_Qle_condition.
    set (t := (2 ^ (e - 52))%Q) in *. set (w := (2 ^ (52 - e))%Q) in *.
    set (kk := inject_Z k) in *.
    assert (E1 : (kk * t - ax == (kk - ax * w) * t)%Q).
    { transitivity (kk * t - ax * (w * t))%Q; [rewrite M; ring | ring]. }
    rewrite E1.
    set (dlt := (kk - ax * w)%Q) in *. set (pe := (2 ^ e)%Q) in *.
    assert (U : (0 <= unit_roundoff)%Q) by discriminate.
    assert (A1 : (dlt * t <= (1 # 2) * t)%Q)
      by (apply Qmult_le_compat_r; [exact R2 | lra]).
    assert (A2 : (- (1 # 2) * t <= dlt * t)%Q)
      by (apply Qmult_le_compat_r; [exact R1 | lra]).
    assert (A3 : (unit_roundoff * pe <= unit_roundoff * ax)%Q)
      by (rewrite !(Qmult_comm unit_roundoff);
          apply Qmult_le_compat_r; [exact Le | exact U]).
    split; lra. }
  fold ax.
  destruct (Qle_bool 0 x) eqn:S;
    [apply Qle_bool_iff in S | apply Qle_bool_false in S].
  - assert (Ex : (x == ax)%Q) by (unfold ax; rewrite Qabs_pos; [reflexivity | exact S]).
    assert (G : (inject_Z k * 2 ^ (e - 52) - x == inject_Z k * 2 ^ (e - 52) - ax)%Q)
      by (rewrite Ex; reflexivity).
    rewrite G. exact B.
  - assert (Ex : (x == - ax)%Q)
      by (unfold ax; rewrite Qabs_neg; [ring | lra]).
    assert (G : (- (inject_Z k * 2 ^ (e - 52)) - x
                 == - (inject_Z k * 2 ^ (e - 52) - ax))%Q)
      by (rewrite Ex; ring).
    rewrite G, Qabs_opp. exact B.
Qed.

Example round53_tenth :
  (round53 (1 # 10) == 3602879701896397 # 36028797018963968)%Q.
Proof. vm_compute. reflexivity. Qed.

(** ** The transitions in binary64 *)

Lemma round_exact (a : number) : Rounded.round (fun x => x) a = a.
Proof. destruct a; reflexivity. Qed.

(** With no rounding, the rounded transitions are the exact ones. *)
Lemma rounded_exact (st now : number) (se : number) (cb : callback)
    (s : ImageTransition) :
  Rounded.tick_enter (fun x => x) st se now s = tick_enter st se now s
  /\ Rounded.tick_leave (fun x => x) st se now s = tick_leave st se now s
  /\ Rounded.enter (fun x => x) st now s = enter st now s
  /\ Rounded.leave (fun x => x) st now s = leave st now s
  /\ Rounded.run_callback (fun x => x) now cb s = run_callback now cb s.
Proof.
  assert (TE : forall st se now s,
             Rounded.tick_enter (fun x => x) st se now s
             = tick_enter st se now s).
  { intros. unfold Rounded.tick_enter, tick_enter, Rounded.add, Rounded.sub,
      Rounded.div. rewrite !round_exact. reflexivity. }
  assert (TL : forall st se now s,
             Rounded.tick_leave (fun x => x) st se now s
             = tick_leave st se now s).
  { intros. unfold Rounded.tick_leave, tick_leave, Rounded.add, Rounded.sub,
      Rounded.div. rewrite !round_exact. reflexivity. }
  split; [apply TE|]. split; [apply TL|]. split; [|split].
  - unfold Rounded.enter, enter, Rounded.mul. rewrite !round_exact.
    destruct (_isEntering s); [reflexivity|].
    destruct (_ === _)%num; [reflexivity|]. apply TE.
  - unfold Rounded.leave, leave, Rounded.mul, Rounded.sub.
    rewrite !round_exact.
    destruct (_isLeaving s); [reflexivity|].
    destruct (_ === _)%num; [reflexivity|]. apply TL.
  - destruct cb; cbn [Rounded.run_callback run_callback];
      [apply TE | apply TL | reflexivity].
Qed.

Lemma rounded_tick_enter_live (rnd : Q -> Q)
    (startTime startElapsedTime now : number) (s : ImageTransition) :
  _destroyed s = false -> _isEntering s = true ->
  let p := clamp (Rounded.div rnd
                    (Rounded.add rnd (Rounded.sub rnd now startTime)
                                 startElapsedTime)
                    (duration s))
                 (Fin 0) (Fin 1) in
  Rounded.tick_enter rnd startTime startElapsedTime now s =
    {| duration := duration s; _progress := p; _canvas := _canvas s;
       _textureFrom := _textureFrom s; _textureTo := _textureTo s;
       _textureDisplacement := _textureDisplacement s;
       _isEntering := negb (p === Fin 1)%num; _isLeaving := _isLeaving s;
       _hasUpdated := if (p === Fin 1)%num then false else _hasUpdated s;
       _destroyed := _destroyed s;
       trace := trace s ++ render_effects p
                ++ (if (p === Fin 1)%num
                    then [dispatchEvent transitionEnd] else []);
       animationFrames :=
         animationFrames s ++ [enter_tick startTime startElapsedTime] |}.
Proof.
  intros D E p. unfold Rounded.tick_enter, render. rewrite D, E. cbv zeta.
  fold p. clearbody p. simpl. rewrite D.
  destruct (p === Fin 1)%num eqn:P; simpl; rewrite ?P; simpl;
    unfold requestAnimationFrame, set_animationFrames, emit; simpl;
    rewrite ?D, ?E, <- ?app_assoc, ?app_nil_r; reflexivity.
Qed.

Lemma rounded_tick_leave_live (rnd : Q -> Q)
    (startTime startElapsedTime now : number) (s : ImageTransition) :
  _destroyed s = false -> _isLeaving s = true ->
  let p := clamp (Rounded.sub rnd (Fin 1)
                    (Rounded.div rnd
                       (Rounded.add rnd (Rounded.sub rnd now startTime)
                                    startElapsedTime)
                       (duration s)))
                 (Fin 0) (Fin 1) in
  Rounded.tick_leave rnd startTime startElapsedTime now s =
    {| duration := duration s; _progress := p; _canvas := _canvas s;
       _textureFrom := _textureFrom s; _textureTo := _textureTo s;
       _textureDisplacement := _textureDisplacement s;
       _isEntering := _isEntering s; _isLeaving := negb (p === Fin 0)%num;
       _hasUpdated := if (p === Fin 1)%num then false else _hasUpdated s;
       _destroyed := _destroyed s;
       trace := trace s ++ render_effects p
                ++ (if (p === Fin 0)%num
                    then [dispatchEvent transitionEnd] else []);
       animationFrames :=
         animationFrames s ++ [leave_tick startTime startElapsedTime] |}.
Proof.
  intros D E p. unfold Rounded.tick_leave, render. rewrite D, E. cbv zeta.
  fold p. clearbody p. simpl. rewrite D.
  destruct (p === Fin 1)%num eqn:P1; destruct (p === Fin 0)%num eqn:P0;
    simpl; rewrite ?P0; simpl;
    unfold requestAnimationFrame, set_animationFrames, emit; simpl;
    rewrite ?D, ?E, <- ?app_assoc, ?app_nil_r; reflexivity.
Qed.

(** ** The drift of progress under a rounding *)

Section Drift.

Local Open Scope Q_scope.

(** A rounding whose relative error is at most [u]. *)
Variable rnd : Q -> Q.
Variable u : Q.
Hypothesis u_small : 0 <= u <= 1 # 100.
Hypothesis rnd_error : forall x, Qabs (rnd x - x) <= u * Qabs x.

Lemma rnd_nonneg (x : Q) :
  0 <= x -> (1 - u) * x <= rnd x <= (1 + u) * x.
Proof.
  intros H. pose proof (rnd_error x) as E. rewrite (Qabs_pos x H) in E.
  apply Qabs_Qle_condition in E. lra.
Qed.

Lemma rnd_near (x : Q) : - (u * Qabs x) <= rnd x - x <= u * Qabs x.
Proof. apply Qabs_Qle_condition, rnd_error. Qed.

(** One more rounding of a value between [lo * X] and [hi * X]. *)
Lemma rnd_between (x X lo hi : Q) :
  0 <= X -> 0 <= lo -> lo * X <= x <= hi * X ->
  (1 - u) * lo * X <= rnd x <= (1 + u) * hi * X.
Proof.
  intros HX Hlo [L H].
  assert (P : 0 <= x) by nra.
  pose proof (rnd_nonneg x P) as [A B].
  split; nra.
Qed.

(** What the tick of [enter()] divides and rounds: [x0] is the time since
    the start, [p] the progress at the start. *)
Lemma enter_quotient (p d x0 : Q) :
  0 <= p <= 1 -> 0 < d -> 0 <= x0 ->
  let q := rnd (rnd (rnd x0 + rnd (d * p)) / d) in
  (1 - 4 * u) * (p + x0 / d) <= q <= (1 + 4 * u) * (p + x0 / d).
Proof.
  intros Hp Hd Hx q.
  assert (Zd : ~ d == 0) by lra.
  set (g := x0 / d).
  assert (Hg : 0 <= g).
  { unfold g, Qdiv. apply Qmult_le_0_compat; [exact Hx|].
    apply Qlt_le_weak, Qinv_lt_0_compat, Hd. }
  assert (Eg : x0 == g * d) by (unfold g; field; exact Zd).
  pose proof (rnd_nonneg x0 Hx) as [X1 X2].
  assert (Hdp : 0 <= d * p) by nra.
  pose proof (rnd_nonneg (d * p) Hdp) as [B1 B2].
  set (x := rnd x0) in *. set (b := rnd (d * p)) in *.
  assert (Hs : 0 <= x + b) by nra.
  pose proof (rnd_nonneg (x + b) Hs) as [E1 E2].
  set (e := rnd (x + b)) in *.
  assert (He : 0 <= e) by nra.
  assert (Eq : e / d * d == e) by (field; exact Zd).
  assert (Hq : 0 <= e / d).
  { unfold Qdiv. apply Qmult_le_0_compat; [exact He|].
    apply Qlt_le_weak, Qinv_lt_0_compat, Hd. }
  pose proof (rnd_nonneg (e / d) Hq) as [Q1 Q2]. fold q in Q1, Q2.
  set (w := e / d) in *.
  (* all in units of [d] *)
  assert (W1 : (1 - u) * ((1 - u) * (p + g)) <= w).
  { assert ((1 - u) * ((1 - u) * (p + g)) * d <= w * d); [|nra].
    rewrite Eq. nra. }
  assert (W2 : w <= (1 + u) * ((1 + u) * (p + g))).
  { assert (w * d <= (1 + u) * ((1 + u) * (p + g)) * d); [|nra].
    rewrite Eq. nra. }
  assert (S : 0 <= p + g) by lra.
  set (m := p + g) in *.
  assert (K3 : (1 + u) * ((1 + u) * (1 + u)) <= 1 + 4 * u) by nra.
  assert (J3 : 1 - 4 * u <= (1 - u) * ((1 - u) * (1 - u))) by nra.
  split; nra.
Qed.

Lemma enter_drift (p d x0 : Q) :
  0 <= p <= 1 -> 0 < d -> 0 <= x0 ->
  Qabs (rnd (rnd (rnd x0 + rnd (d * p)) / d) - (p + x0 / d))
  <= 8 * u * (1 + x0 / d).
Proof.
  intros Hp Hd Hx. pose proof (enter_quotient p d x0 Hp Hd Hx) as [A B].
  cbv zeta in A, B.
  assert (Hg : 0 <= x0 / d).
  { unfold Qdiv. apply Qmult_le_0_compat; [exact Hx|].
    apply Qlt_le_weak, Qinv_lt_0_compat, Hd. }
  apply Qabs_Qle_condition. split; nra.
Qed.

Lemma leave_drift (p d x0 : Q) :
  0 <= p <= 1 -> 0 < d -> 0 <= x0 ->
  Qabs (rnd (1 - rnd (rnd (rnd x0 + rnd (d * rnd (1 - p))) / d))
        - (p - x0 / d))
  <= 8 * u * (1 + x0 / d).
Proof.
  intros Hp Hd Hx.
  assert (Zd : ~ d == 0) by lra.
  assert (Hg : 0 <= x0 / d).
  { unfold Qdiv. apply Qmult_le_0_compat; [exact Hx|].
    apply Qlt_le_weak, Qinv_lt_0_compat, Hd. }
  assert (Ha : 0 <= 1 - p) by lra.
  pose proof (rnd_nonneg (1 - p) Ha) as [A1 A2].
  set (a := rnd (1 - p)) in *.
  assert (Ha1 : 0 <= a <= 1 + u) by nra.
  (* the quotient, as for [enter()], with [a] in the place of progress *)
  assert (Q : (1 - 4 * u) * (a + x0 / d)
              <= rnd (rnd (rnd x0 + rnd (d * a)) / d)
              <= (1 + 4 * u) * (a + x0 / d)).
  { (* [enter_quotient] asks for [a <= 1]; redo its steps with [a >= 0] *)
    set (g := x0 / d) in *.
    assert (Eg : x0 == g * d) by (unfold g; field; exact Zd).
    pose proof (rnd_nonneg x0 Hx) as [X1 X2].
    assert (Hdp : 0 <= d * a) by nra.
    pose proof (rnd_nonneg (d * a) Hdp) as [B1 B2].
    set (x := rnd x0) in *. set (b := rnd (d * a)) in *.
    assert (Hs : 0 <= x + b) by nra.
    pose proof (rnd_nonneg (x + b) Hs) as [E1 E2].
    set (e := rnd (x + b)) in *.
    assert (He : 0 <= e) by nra.
    assert (Eq : e / d * d == e) by (field; exact Zd).
    assert (Hq : 0 <= e / d).
    { unfold Qdiv. apply Qmult_le_0_compat; [exact He|].
      apply Qlt_le_weak, Qinv_lt_0_compat, Hd. }
    pose proof (rnd_nonneg (e / d) Hq) as [Q1 Q2].
    set (w := e / d) in *.
    assert (W1 : (1 - u) * ((1 - u) * (a + g)) <= w).
    { assert ((1 - u) * ((1 - u) * (a + g)) * d <= w * d); [|nra].
      rewrite Eq. nra. }
    assert (W2 : w <= (1 + u) * ((1 + u) * (a + g))).
    { assert (w * d <= (1 + u) * ((1 + u) * (a + g)) * d); [|nra].
      rewrite Eq. nra. }
    assert (S : 0 <= a + g) by lra.
    set (m := a + g) in *.
    assert (K3 : (1 + u) * ((1 + u) * (1 + u)) <= 1 + 4 * u) by nra.
    assert (J3 : 1 - 4 * u <= (1 - u) * ((1 - u) * (1 - u))) by nra.
    split; nra. }
  set (q := rnd (rnd (rnd x0 + rnd (d * a)) / d)) in *.
  set (g := x0 / d) in *.
  destruct Q as [Q1 Q2].
  pose proof (rnd_near (1 - q)) as [R1 R2].
  set (r := rnd (1 - q)) in *.
  assert (F1 : q <= (1 - p) + g + u * ((51 # 10) * (1 - p) + 4 * g)).
  { assert (q <= (1 + 4 * u) * ((1 + u) * (1 - p) + g)) by nra.
    assert ((1 + 4 * u) * (1 + u) <= 1 + (51 # 10) * u) by nra.
    nra. }
  assert (F2 : (1 - p) + g - u * (5 * (1 - p) + 4 * g) <= q).
  { assert ((1 - 4 * u) * ((1 - u) * (1 - p) + g) <= q) by nra.
    assert (1 - 5 * u <= (1 - 4 * u) * (1 - u)) by nra.
    nra. }
  assert (Hq : 0 <= q) by nra.
  assert (Ab : Qabs (1 - q) <= 1 + q).
  { apply Qabs_Qle_condition. split; lra. }
  assert (Hq2 : q <= (11 # 10) + (11 # 10) * g) by nra.
  set (z := Qabs (1 - q)) in *.
  assert (Ab' : u * z <= u * ((21 # 10) + (11 # 10) * g)) by nra.
  set (ab := u * z) in *.
  assert (G1 : u * ((51 # 10) * (1 - p) + 4 * g) <= u * ((51 # 10) + 4 * g)) by nra.
  assert (G2 : u * (5 * (1 - p) + 4 * g) <= u * (5 + 4 * g)) by nra.
  apply Qabs_Qle_condition. split; nra.
Qed.


Lemma rounded_div_Fin (x d : Q) :
  ~ d == 0 -> Rounded.div rnd (Fin x) (Fin d) = Fin (rnd (x / d)).
Proof. intros H. unfold Rounded.div. rewrite (div_Fin x d H). reflexivity. Qed.

(** [clamp] to [0, 1] brings two numbers no further apart. *)
Lemma clamp_unit_near (x y eps : Q) :
  Qabs (x - y) <= eps ->
  exists cx cy : Q,
    clamp (Fin x) (Fin 0) (Fin 1) = Fin cx
    /\ clamp (Fin y) (Fin 0) (Fin 1) = Fin cy
    /\ 0 <= cx <= 1 /\ Qabs (cx - cy) <= eps.
Proof.
  intros H. apply Qabs_Qle_condition in H.
  destruct (clamp_Fin x) as [cx [Ex [Bx [Ix [Ox Zx]]]]].
  destruct (clamp_Fin y) as [cy [Ey [By [Iy [Oy Zy]]]]].
  exists cx, cy. split; [exact Ex|]. split; [exact Ey|]. split; [exact Bx|].
  apply Qabs_Qle_condition.
  destruct (Qlt_le_dec x 0) as [X0|X0];
    [rewrite (Zx (Qlt_le_weak _ _ X0))|
     destruct (Qlt_le_dec 1 x) as [X1|X1];
       [rewrite (Ox (Qlt_le_weak _ _ X1)) | rewrite (Ix (conj X0 X1))]];
    (destruct (Qlt_le_dec y 0) as [Y0|Y0];
      [rewrite (Zy (Qlt_le_weak _ _ Y0))|
       destruct (Qlt_le_dec 1 y) as [Y1|Y1];
         [rewrite (Oy (Qlt_le_weak _ _ Y1)) | rewrite (Iy (conj Y0 Y1))]]);
    split; lra.
Qed.

(** The progress that the tick of [leave()] computes at the instant [now],
    [leave()] having been called at [t] at the progress [p]. *)
Lemma leave_tick_progress (t now p d : Q) :
  0 < p < 1 -> 0 < d -> t <= now ->
  exists p' c : Q,
    clamp (Rounded.sub rnd (Fin 1)
             (Rounded.div rnd
                (Rounded.add rnd (Rounded.sub rnd (Fin now) (Fin t))
                   (Rounded.mul rnd (Fin d) (Rounded.sub rnd (Fin 1) (Fin p))))
                (Fin d)))
          (Fin 0) (Fin 1) = Fin p'
    /\ clamp (Fin (p - (now - t) / d)) (Fin 0) (Fin 1) = Fin c
    /\ 0 <= p' <= 1
    /\ Qabs (p' - c) <= 8 * u * (1 + (now - t) / d).
Proof.
  intros Hp Hd Ht.
  assert (Zd : ~ d == 0) by lra.
  unfold Rounded.mul, Rounded.sub at 2 3, Rounded.add.
  cbn [Num.sub Num.add Num.neg Num.mul Rounded.round].
  rewrite (rounded_div_Fin _ d Zd).
  unfold Rounded.sub. cbn [Num.sub Num.add Num.neg Rounded.round].
  assert (D : Qabs (rnd (1 - rnd (rnd (rnd (now - t) + rnd (d * rnd (1 - p))) / d))
                    - (p - (now - t) / d))
              <= 8 * u * (1 + (now - t) / d))
    by (apply leave_drift; lra).
  destruct (clamp_unit_near _ _ _ D) as [cx [cy [Ex [Ey [Bx N]]]]].
  exists cx, cy. split; [exact Ex|]. split; [exact Ey|]. split; assumption.
Qed.

Lemma enter_tick_progress (t now p d : Q) :
  0 < p < 1 -> 0 < d -> t <= now ->
  exists p' c : Q,
    clamp (Rounded.div rnd
             (Rounded.add rnd (Rounded.sub rnd (Fin now) (Fin t))
                (Rounded.mul rnd (Fin d) (Fin p)))
             (Fin d))
          (Fin 0) (Fin 1) = Fin p'
    /\ clamp (Fin (p + (now - t) / d)) (Fin 0) (Fin 1) = Fin c
    /\ 0 <= p' <= 1
    /\ Qabs (p' - c) <= 8 * u * (1 + (now - t) / d).
Proof.
  intros Hp Hd Ht.
  assert (Zd : ~ d == 0) by lra.
  unfold Rounded.mul, Rounded.sub, Rounded.add.
  cbn [Num.sub Num.add Num.neg Num.mul Rounded.round].
  rewrite (rounded_div_Fin _ d Zd).
  assert (D : Qabs (rnd (rnd (rnd (now - t) + rnd (d * p)) / d)
                    - (p + (now - t) / d))
              <= 8 * u * (1 + (now - t) / d))
    by (apply enter_drift; lra).
  destruct (clamp_unit_near _ _ _ D) as [cx [cy [Ex [Ey [Bx N]]]]].
  exists cx, cy. split; [exact Ex|]. split; [exact Ey|]. split; assumption.
Qed.

End Drift.

(** ** Switching direction *)

Section Switching.

Local Open Scope Q_scope.

Variable rnd : Q -> Q.
Variable u : Q.
Hypothesis u_small : 0 <= u <= 1 # 100.
Hypothesis rnd_error : forall x, Qabs (rnd x - x) <= u * Qabs x.

Lemma leave_while_entering (s : ImageTransition) (t p d : Q) :
  duration s = Fin d -> 0 < d -> _progress s = Fin p -> 0 < p < 1 ->
  _isEntering s = true -> _isLeaving s = false -> _destroyed s = false ->
  let startOffset :=
    Rounded.mul rnd (duration s) (Rounded.sub rnd (Fin 1) (_progress s)) in
  let tick := leave_tick (Fin t) startOffset in
  let s' := Rounded.leave rnd (Fin t) (Fin t) s in
  (exists p' : Q,
     _progress s' = Fin p' /\ 0 <= p' <= 1 /\ Qabs (p' - p) <= 8 * u)
  /\ animationFrames s' = animationFrames s ++ [tick]
  /\ _isEntering s' = false
  /\ (8 * u < p ->
      _isLeaving s' = true
      /\ trace s' = trace s ++ render_effects (_progress s'))
  /\ (8 * u < p < 1 - 8 * u -> same_setup s s')
  /\ (8 * u < p ->
      forall now : Q, t <= now ->
      exists p'' c : Q,
        _progress (Rounded.run_callback rnd (Fin now) tick s') = Fin p''
        /\ clamp (Fin (p - (now - t) / d)) (Fin 0) (Fin 1) = Fin c
        /\ Qabs (p'' - c) <= 8 * u * (1 + (now - t) / d)).
Proof.
  intros Hd Pd Hp Hb He Hl Hx startOffset tick s'.
  assert (Zd : ~ d == 0) by lra.
  set (s0 := set_isEntering false (set_isLeaving true s)).
  assert (E : s' = Rounded.tick_leave rnd (Fin t) startOffset (Fin t) s0).
  { unfold s', Rounded.leave. rewrite Hl, Hp.
    replace (Fin p === Fin 0)%num with false
      by (symmetry; apply (same_neqb (Fin p) p 0); [apply same_refl | lra]).
    cbv zeta. fold s0. unfold startOffset. reflexivity. }
  rewrite rounded_tick_leave_live in E by (reflexivity + assumption).
  replace (duration s0) with (Fin d) in E by (symmetry; exact Hd).
  assert (So : startOffset
               = Rounded.mul rnd (Fin d) (Rounded.sub rnd (Fin 1) (Fin p)))
    by (unfold startOffset; rewrite Hd, Hp; reflexivity).
  rewrite So in E.
  destruct (leave_tick_progress rnd u u_small rnd_error t t p d Hb Pd
              (Qle_refl t)) as [p' [c [Ep [Ec [Bp Np]]]]].
  rewrite Ep in E.
  assert (C : (c == p)%Q).
  { destruct (clamp_Fin (p - (t - t) / d)) as [y [Ey [_ [Iy _]]]].
    rewrite Ey in Ec. injection Ec as <-.
    assert (X : p - (t - t) / d == p) by (field; exact Zd).
    rewrite Iy; [exact X | rewrite X; lra]. }
  assert (N : Qabs (p' - p) <= 8 * u).
  { apply Qabs_Qle_condition. apply Qabs_Qle_condition in Np.
    assert (X : 8 * u * (1 + (t - t) / d) == 8 * u) by (field; exact Zd).
    rewrite X, C in Np. exact Np. }
  pose proof N as N'. apply Qabs_Qle_condition in N'.
  change (trace s0) with (trace s) in E.
  change (animationFrames s0) with (animationFrames s) in E.
  assert (Tk : tick = leave_tick (Fin t)
                        (Rounded.mul rnd (Fin d)
                           (Rounded.sub rnd (Fin 1) (Fin p))))
    by (unfold tick; rewrite So; reflexivity).
  split; [exists p'; rewrite E; split; [reflexivity | split; assumption]|].
  split; [rewrite E, Tk; reflexivity|].
  split; [rewrite E; reflexivity|].
  assert (L : 8 * u < p ->
              _isLeaving s' = true
              /\ trace s' = trace s ++ render_effects (_progress s')).
  { intros G.
    assert (N0 : (Fin p' === Fin 0)%num = false)
      by (apply (same_neqb (Fin p') p' 0); [apply same_refl | lra]).
    rewrite E. cbn [_isLeaving trace _progress]. rewrite N0.
    rewrite app_nil_r. split; reflexivity. }
  split; [exact L|]. split.
  - intros [G1 G2].
    assert (N1 : (Fin p' === Fin 1)%num = false)
      by (apply (same_neqb (Fin p') p' 1); [apply same_refl | lra]).
    rewrite E. unfold same_setup.
    cbn [duration _canvas _textureFrom _textureTo _textureDisplacement
         _hasUpdated _destroyed].
    rewrite ?N1, Hd. repeat split; reflexivity.
  - intros G now Hn.
    destruct (L G) as [L1 _].
    assert (D' : _destroyed s' = false) by (rewrite E; exact Hx).
    assert (Du : duration s' = Fin d) by (rewrite E; reflexivity).
    rewrite Tk. cbn [Rounded.run_callback].
    rewrite rounded_tick_leave_live by assumption.
    cbn [_progress]. rewrite Du.
    destruct (leave_tick_progress rnd u u_small rnd_error t now p d Hb Pd Hn)
      as [p'' [c' [Ep' [Ec' [_ Np']]]]].
    exists p'', c'. split; [exact Ep'|]. split; assumption.
Qed.

Lemma enter_while_leaving (s : ImageTransition) (t p d : Q) :
  duration s = Fin d -> 0 < d -> _progress s = Fin p -> 0 < p < 1 ->
  _isLeaving s = true -> _isEntering s = false -> _destroyed s = false ->
  let startOffset := Rounded.mul rnd (duration s) (_progress s) in
  let tick := enter_tick (Fin t) startOffset in
  let s' := Rounded.enter rnd (Fin t) (Fin t) s in
  (exists p' : Q,
     _progress s' = Fin p' /\ 0 <= p' <= 1 /\ Qabs (p' - p) <= 8 * u)
  /\ animationFrames s' = animationFrames s ++ [tick]
  /\ _isLeaving s' = false
  /\ (p < 1 - 8 * u ->
      _isEntering s' = true
      /\ trace s' = trace s ++ render_effects (_progress s')
      /\ same_setup s s')
  /\ (p < 1 - 8 * u ->
      forall now : Q, t <= now ->
      exists p'' c : Q,
        _progress (Rounded.run_callback rnd (Fin now) tick s') = Fin p''
        /\ clamp (Fin (p + (now - t) / d)) (Fin 0) (Fin 1) = Fin c
        /\ Qabs (p'' - c) <= 8 * u * (1 + (now - t) / d)).
Proof.
  intros Hd Pd Hp Hb Hl He Hx startOffset tick s'.
  assert (Zd : ~ d == 0) by lra.
  set (s0 := set_isLeaving false (set_isEntering true s)).
  assert (E : s' = Rounded.tick_enter rnd (Fin t) startOffset (Fin t) s0).
  { unfold s', Rounded.enter. rewrite He, Hp.
    replace (Fin p === Fin 1)%num with false
      by (symmetry; apply (same_neqb (Fin p) p 1); [apply same_refl | lra]).
    cbv zeta. fold s0. unfold startOffset. reflexivity. }
  rewrite rounded_tick_enter_live in E by (reflexivity + assumption).
  replace (duration s0) with (Fin d) in E by (symmetry; exact Hd).
  assert (So : startOffset = Rounded.mul rnd (Fin d) (Fin p))
    by (unfold startOffset; rewrite Hd, Hp; reflexivity).
  rewrite So in E.
  destruct (enter_tick_progress rnd u u_small rnd_error t t p d Hb Pd
              (Qle_refl t)) as [p' [c [Ep [Ec [Bp Np]]]]].
  rewrite Ep in E.
  assert (C : (c == p)%Q).
  { destruct (clamp_Fin (p + (t - t) / d)) as [y [Ey [_ [Iy _]]]].
    rewrite Ey in Ec. injection Ec as <-.
    assert (X : p + (t - t) / d == p) by (field; exact Zd).
    rewrite Iy; [exact X | rewrite X; lra]. }
  assert (N : Qabs (p' - p) <= 8 * u).
  { apply Qabs_Qle_condition. apply Qabs_Qle_condition in Np.
    assert (X : 8 * u * (1 + (t - t) / d) == 8 * u) by (field; exact Zd).
    rewrite X, C in Np. exact Np. }
  pose proof N as N'. apply Qabs_Qle_condition in N'.
  change (trace s0) with (trace s) in E.
  change (animationFrames s0) with (animationFrames s) in E.
  assert (Tk : tick = enter_tick (Fin t) (Rounded.mul rnd (Fin d) (Fin p)))
    by (unfold tick; rewrite So; reflexivity).
  split; [exists p'; rewrite E; split; [reflexivity | split; assumption]|].
  split; [rewrite E, Tk; reflexivity|].
  split; [rewrite E; reflexivity|].
  assert (L : p < 1 - 8 * u ->
              _isEntering s' = true
              /\ trace s' = trace s ++ render_effects (_progress s')
              /\ same_setup s s').
  { intros G.
    assert (N1 : (Fin p' === Fin 1)%num = false)
      by (apply (same_neqb (Fin p') p' 1); [apply same_refl | lra]).
    rewrite E. cbn [_isEntering trace _progress]. rewrite N1.
    rewrite app_nil_r. split; [reflexivity|]. split; [reflexivity|].
    unfold same_setup.
    cbn [duration _canvas _textureFrom _textureTo _textureDisplacement
         _hasUpdated _destroyed].
    rewrite ?N1, Hd. repeat split; reflexivity. }
  split; [exact L|].
  intros G now Hn.
  destruct (L G) as [L1 _].
  assert (D' : _destroyed s' = false) by (rewrite E; exact Hx).
  assert (Du : duration s' = Fin d) by (rewrite E; reflexivity).
  rewrite Tk. cbn [Rounded.run_callback].
  rewrite rounded_tick_enter_live by assumption.
  cbn [_progress]. rewrite Du.
  destruct (enter_tick_progress rnd u u_small rnd_error t now p d Hb Pd Hn)
    as [p'' [c' [Ep' [Ec' [_ Np']]]]].
  exists p'', c'. split; [exact Ep'|]. split; assumption.
Qed.

End Switching.

Lemma unit_roundoff_small : (0 <= unit_roundoff <= 1 # 100)%Q.
Proof. split; discriminate. Qed.

(** C2, as amended. The arithmetic is that of binary64. On a live
    controller whose [duration] [d] is between [2^-500] and [2^500], with
    Entering active at a progress [p] strictly between 0 and 1, [leave()]
    -- its two readings of the clock being the same instant [t] -- leaves
    progress in [0, 1] and within [8 * 2^-53] of [p] (it need not be [p]:
    the first tick computes [1 - (d * (1 - p)) / d], rounding each
    operation), clears Entering, and requests a tick that captures the start
    offset [duration * (1 - p)] as binary64 computes it. When [p] is above
    [8 * 2^-53], Leaving is set and one render is all that is issued (no
    notification); when [p] is moreover below [1 - 8 * 2^-53] no other field
    changes; and the requested tick, run at an instant [now] not before [t],
    sets progress within [8 * 2^-53 * (1 + (now - t) / d)] of
    [p - (now - t) / d] clamped to [0, 1]. Symmetrically [enter()] while
    Leaving is active leaves progress within [8 * 2^-53] of [p], captures
    [duration * p], and, [p] being below [1 - 8 * 2^-53], sets Entering,
    issues one render, changes no other field, and its tick sets progress
    within the same distance of [p + (now - t) / d] clamped. *)
Theorem switching_direction_keeps_progress :
  (forall (s : ImageTransition) (t p d : Q),
     duration s = Fin d -> (1 # 2 ^ 500 <= d <= 2 ^ 500)%Q ->
     _progress s = Fin p ->
     (0 < p < 1)%Q -> _isEntering s = true -> _isLeaving s = false ->
     _destroyed s = false ->
     let startOffset :=
       Rounded.mul round53 (duration s)
         (Rounded.sub round53 (Fin 1) (_progress s)) in
     let tick := leave_tick (Fin t) startOffset in
     let s' := Rounded.leave round53 (Fin t) (Fin t) s in
     (exists p' : Q,
        _progress s' = Fin p' /\ (0 <= p' <= 1)%Q
        /\ (Qabs (p' - p) <= 8 * unit_roundoff)%Q)
     /\ animationFrames s' = animationFrames s ++ [tick]
     /\ _isEntering s' = false
     /\ ((8 * unit_roundoff < p)%Q ->
         _isLeaving s' = true
         /\ trace s' = trace s ++ render_effects (_progress s'))
     /\ ((8 * unit_roundoff < p < 1 - 8 * unit_roundoff)%Q ->
         same_setup s s')
     /\ ((8 * unit_roundoff < p)%Q ->
         forall now : Q, (t <= now)%Q ->
         exists p'' c : Q,
           _progress (Rounded.run_callback round53 (Fin now) tick s')
           = Fin p''
           /\ clamp (Fin (p - (now - t) / d)) (Fin 0) (Fin 1) = Fin c
           /\ (Qabs (p'' - c)
               <= 8 * unit_roundoff * (1 + (now - t) / d))%Q))
  /\ (forall (s : ImageTransition) (t p d : Q),
     duration s = Fin d -> (1 # 2 ^ 500 <= d <= 2 ^ 500)%Q ->
     _progress s = Fin p ->
     (0 < p < 1)%Q -> _isLeaving s = true -> _isEntering s = false ->
     _destroyed s = false ->
     let startOffset := Rounded.mul round53 (duration s) (_progress s) in
     let tick := enter_tick (Fin t) startOffset in
     let s' := Rounded.enter round53 (Fin t) (Fin t) s in
     (exists p' : Q,
        _progress s' = Fin p' /\ (0 <= p' <= 1)%Q
        /\ (Qabs (p' - p) <= 8 * unit_roundoff)%Q)
     /\ animationFrames s' = animationFrames s ++ [tick]
     /\ _isLeaving s' = false
     /\ ((p < 1 - 8 * unit_roundoff)%Q ->
         _isEntering s' = true
         /\ trace s' = trace s ++ render_effects (_progress s')
         /\ same_setup s s')
     /\ ((p < 1 - 8 * unit_roundoff)%Q ->
         forall now : Q, (t <= now)%Q ->
         exists p'' c : Q,
           _progress (Rounded.run_callback round53 (Fin now) tick s')
           = Fin p''
           /\ clamp (Fin (p + (now - t) / d)) (Fin 0) (Fin 1) = Fin c
           /\ (Qabs (p'' - c)
               <= 8 * unit_roundoff * (1 + (now - t) / d))%Q)).
Proof.
  assert (P : forall d : Q, (1 # 2 ^ 500 <= d <= 2 ^ 500)%Q -> (0 < d)%Q).
  { intros d [L _]. apply (Qlt_le_trans _ (1 # 2 ^ 500)); [reflexivity|].
    exact L. }
  split; intros s t p d Hd Rd Hp Hb H1 H2 Hx.
  - exact (leave_while_entering round53 unit_roundoff unit_roundoff_small
             round53_error s t p d Hd (P d Rd) Hp Hb H1 H2 Hx).
  - exact (enter_while_leaving round53 unit_roundoff unit_roundoff_small
             round53_error s t p d Hd (P d Rd) Hp Hb H1 H2 Hx).
Qed.

(** The claim as stated fails. In binary64 progress moves when [leave()]
    recomputes it: from the progress nearest to 0.05, with [duration = 2000]
    and equal readings of the clock, [leave()] leaves a larger progress; from
    the progress [2^-60] it leaves progress 0, clears Leaving at once and
    dispatches ['transitionEnd']. With [duration = 0] (the field is public)
    the first tick divides 0 by 0 and progress is [NaN]. Progress also moves
    when the clock advances between the two readings of [leave()]. *)
Lemma leave_does_not_keep_progress :
  (let s := set_progress (Fin (round53 (1 # 20))) demo_entering in
   _isEntering s = true /\ _isLeaving s = false
   /\ (_progress s
       <? _progress (Rounded.leave round53 (Fin 1000) (Fin 1000) s))%num
      = true)
  /\ (let s := set_progress (Fin (1 # 2 ^ 60)) demo_entering in
      let s' := Rounded.leave round53 (Fin 1000) (Fin 1000) s in
      _progress s' = Fin 0 /\ _isLeaving s' = false
      /\ transitionEnds (trace s') = S (transitionEnds (trace s)))
  /\ _progress
       (Rounded.leave round53 (Fin 1000) (Fin 1000)
          (set_duration (Fin 0) demo_entering))
     = NaN
  /\ (same (_progress demo_entering) (Fin (1 # 2))
      /\ (_progress (Rounded.leave round53 (Fin 1000) (Fin 1001)
                       demo_entering)
          <? Fin (4996 # 10000))%num = true).
Proof. vm_compute. repeat split. Qed.

Lemma switching_direction_keeps_progress_witness :
  ((exists p' : Q,
      _progress (Rounded.leave round53 (Fin 1000) (Fin 1000) demo_entering)
      = Fin p'
      /\ (0 <= p' <= 1)%Q
      /\ (Qabs (p' - (1000 # 2000)) <= 8 * unit_roundoff)%Q)
   /\ _isLeaving (Rounded.leave round53 (Fin 1000) (Fin 1000) demo_entering)
      = true)
  /\ ((exists p' : Q,
         _progress (Rounded.enter round53 (Fin 2500) (Fin 2500) demo_leaving)
         = Fin p'
         /\ (0 <= p' <= 1)%Q
         /\ (Qabs (p' - (3000000 # 4000000)) <= 8 * unit_roundoff)%Q)
      /\ _isEntering (Rounded.enter round53 (Fin 2500) (Fin 2500) demo_leaving)
         = true).
Proof.
  split.
  - destruct (proj1 switching_direction_keeps_progress demo_entering
                1000%Q (1000 # 2000)%Q 2000%Q eq_refl
                (conj (Qle_bool_imp_le (1 # 2 ^ 500) 2000 eq_refl)
                      (Qle_bool_imp_le 2000 (2 ^ 500) eq_refl)) eq_refl
                (conj eq_refl eq_refl) eq_refl eq_refl eq_refl)
      as [H1 [_ [_ [H2 _]]]].
    split; [exact H1 | exact (proj1 (H2 eq_refl))].
  - destruct (proj2 switching_direction_keeps_progress demo_leaving
                2500%Q (3000000 # 4000000)%Q 2000%Q eq_refl
                (conj (Qle_bool_imp_le (1 # 2 ^ 500) 2000 eq_refl)
                      (Qle_bool_imp_le 2000 (2 ^ 500) eq_refl)) eq_refl
                (conj eq_refl eq_refl) eq_refl eq_refl eq_refl)
      as [H1 [_ [_ [H2 _]]]].
    split; [exact H1 | exact (proj1 (H2 eq_refl))].
Defined.


(** ** The invariant of progress and of the mode flags *)

Lemma aside_refl s : aside s s.
Proof. split; auto. Qed.

Lemma aside_trans s1 s2 s3 : aside s1 s2 -> aside s2 s3 -> aside s1 s3.
Proof.
  intros [] []. split; try congruence. auto.
Qed.

Lemma aside_bounded s s' : aside s s' -> bounded s -> bounded s'.
Proof.
  intros [] []. split; try congruence; auto.
Qed.

Lemma aside_exclusive s s' : aside s s' -> exclusive s -> exclusive s'.
Proof. intros [] H. unfold exclusive in *. congruence. Qed.

Lemma aside_onUpdate s : aside s (_onUpdate s).
Proof.
  unfold _onUpdate. destruct (_isEntering s || _isLeaving s), (_hasUpdated s);
    try apply aside_refl.
  split; try reflexivity. simpl. intros H. rewrite forallb_app, H. reflexivity.
Qed.

Lemma aside_emit es s : aside s (emit es s).
Proof. split; auto. Qed.

Lemma aside_updateAspect s : aside s (_updateAspect s).
Proof.
  unfold _updateAspect. cbv zeta.
  match goal with |- context [if ?c then _ else _] => destruct c end;
    (eapply aside_trans; [|apply aside_onUpdate]); apply aside_emit.
Qed.

Lemma aside_updateTexture s : aside s (_updateTexture s).
Proof.
  unfold _updateTexture. cbv zeta.
  eapply aside_trans; [|apply aside_updateAspect]. apply aside_emit.
Qed.

Lemma aside_perform es s : aside s (perform es s).
Proof.
  revert s. induction es as [|e es IH]; intros s; [apply aside_refl|].
  cbn [perform]. eapply aside_trans; [|apply IH].
  destruct e as [| | |[|]|]; try apply aside_emit.
  eapply aside_trans; [apply aside_emit | apply aside_updateTexture].
Qed.

Lemma aside_setSize w h s : aside s (setSize w h s).
Proof.
  unfold setSize.
  destruct ((width (_canvas s) =? w)%N && (height (_canvas s) =? h)%N);
    [apply aside_refl|].
  cbv zeta. eapply aside_trans; [|apply aside_updateAspect].
  split; auto.
Qed.

Lemma aside_render s : aside s (render s).
Proof.
  unfold render. destruct (_destroyed s); [apply aside_refl|].
  cbv zeta. destruct (_ === _)%num; split; auto.
Qed.

Lemma aside_set_texture sl t s : aside s (set_texture sl t s).
Proof. destruct sl; split; auto. Qed.

Lemma aside_setFromImage i s : aside s (setFromImage i s).
Proof.
  unfold setFromImage. destruct (Texture.setImage _ _) as [t es].
  eapply aside_trans; [|apply aside_perform]. split; auto.
Qed.

Lemma aside_setToImage i s : aside s (setToImage i s).
Proof.
  unfold setToImage. destruct (Texture.setImage _ _) as [t es].
  eapply aside_trans; [|apply aside_perform]. split; auto.
Qed.

Lemma aside_image_load sl w h s : aside s (image_load sl w h s).
Proof.
  unfold image_load. destruct (Texture.onLoad_listener _) as [t es].
  eapply aside_trans; [|apply aside_perform]. apply aside_set_texture.
Qed.

Lemma is_finite_Fin a : is_finite a = true -> exists q, a = Fin q.
Proof. destruct a; try discriminate. eauto. Qed.

Lemma is_nonzero_Fin a :
  is_nonzero a = true -> exists q, a = Fin q /\ ~ (q == 0)%Q.
Proof.
  destruct a as [q| | |]; try discriminate. simpl. intros H.
  exists q. split; [reflexivity|]. apply Qeq_bool_false.
  destruct (Qeq_bool q 0); [discriminate | reflexivity].
Qed.

Lemma bounded_tick_enter st se now s :
  is_finite st = true -> is_finite se = true -> is_finite now = true ->
  bounded s -> bounded (tick_enter st se now s).
Proof.
  intros F1 F2 F3 S.
  destruct (_destroyed s) eqn:D;
    [rewrite tick_enter_idle by auto; exact S|].
  destruct (_isEntering s) eqn:E;
    [|rewrite tick_enter_idle by auto; exact S].
  rewrite tick_enter_live by assumption.
  destruct S as [Sp Sd Sq].
  apply is_finite_Fin in F1, F2, F3.
  destruct F1 as [a ->], F2 as [b ->], F3 as [c ->].
  destruct (is_nonzero_Fin _ Sd) as [d [Hd Hz]].
  rewrite Hd, elapsed_Fin by assumption.
  split; cbn [_progress _isEntering _isLeaving duration animationFrames].
  - apply clamp_in_unit.
  - rewrite Hd in Sd. exact Sd.
  - rewrite forallb_app, Sq. reflexivity.
Qed.

Lemma bounded_tick_leave st se now s :
  is_finite st = true -> is_finite se = true -> is_finite now = true ->
  bounded s -> bounded (tick_leave st se now s).
Proof.
  intros F1 F2 F3 S.
  destruct (_destroyed s) eqn:D;
    [rewrite tick_leave_idle by auto; exact S|].
  destruct (_isLeaving s) eqn:E;
    [|rewrite tick_leave_idle by auto; exact S].
  rewrite tick_leave_live by assumption.
  destruct S as [Sp Sd Sq].
  apply is_finite_Fin in F1, F2, F3.
  destruct F1 as [a ->], F2 as [b ->], F3 as [c ->].
  destruct (is_nonzero_Fin _ Sd) as [d [Hd Hz]].
  rewrite Hd, leave_elapsed_Fin by assumption.
  split; cbn [_progress _isEntering _isLeaving duration animationFrames].
  - apply clamp_in_unit.
  - rewrite Hd in Sd. exact Sd.
  - rewrite forallb_app, Sq. reflexivity.
Qed.

Lemma bounded_run_callback now cb s :
  is_finite now = true -> finite_callback cb = true ->
  bounded s -> bounded (run_callback now cb s).
Proof.
  intros Fn Fc S. destruct cb as [st se|st se|]; cbn [run_callback].
  - apply andb_true_iff in Fc. destruct Fc. apply bounded_tick_enter; assumption.
  - apply andb_true_iff in Fc. destruct Fc. apply bounded_tick_leave; assumption.
  - apply (aside_bounded s); [|exact S].
    eapply aside_trans; [apply aside_render|]. split; auto.
Qed.

Lemma bounded_flags a b s :
  bounded s -> bounded (set_isLeaving b (set_isEntering a s)).
Proof. intros []. split; auto. Qed.

Lemma bounded_flags' a b s :
  bounded s -> bounded (set_isEntering a (set_isLeaving b s)).
Proof. intros []. split; auto. Qed.

Lemma finite_mul (a b : number) :
  is_nonzero a = true -> in_unit b = true -> is_finite (a * b)%num = true.
Proof.
  intros Ha Hb. destruct a, b; try discriminate. reflexivity.
Qed.

Lemma finite_one_minus (b : number) :
  in_unit b = true -> in_unit (Fin 1 - b)%num = true.
Proof.
  intros Hb. apply in_unit_iff in Hb. destruct Hb as [x [-> Hx]].
  apply in_unit_iff. exists (1 - x)%Q. split; [reflexivity | lra].
Qed.

Lemma bounded_enter st now s :
  is_finite st = true -> is_finite now = true ->
  bounded s -> bounded (enter st now s).
Proof.
  intros F1 F2 S. unfold enter.
  destruct (_isEntering s); [exact S|].
  destruct (_ === _)%num; [exact S|]. cbv zeta.
  apply bounded_tick_enter; try assumption.
  - apply finite_mul; apply S.
  - apply bounded_flags; exact S.
Qed.

Lemma bounded_leave st now s :
  is_finite st = true -> is_finite now = true ->
  bounded s -> bounded (leave st now s).
Proof.
  intros F1 F2 S. unfold leave.
  destruct (_isLeaving s); [exact S|].
  destruct (_ === _)%num; [exact S|]. cbv zeta.
  apply bounded_tick_leave; try assumption.
  - apply finite_mul; [apply S | apply finite_one_minus; apply S].
  - apply bounded_flags'; exact S.
Qed.

Lemma bounded_stop s : bounded s -> bounded (stop s).
Proof.
  intros S. unfold stop.
  destruct (negb (_isEntering s) && negb (_isLeaving s)); [exact S|].
  destruct S. split; auto.
Qed.

Lemma bounded_reset s : bounded s -> bounded (reset s).
Proof.
  intros S. unfold reset. cbv zeta.
  apply (aside_bounded _ _ (aside_render _)).
  destruct (bounded_stop _ S). split; auto.
Qed.

Lemma bounded_destroy b s : bounded s -> bounded (destroy b s).
Proof.
  intros S. unfold destroy. cbv zeta.
  set (s0 := set_isLeaving false (set_isEntering false (set_destroyed true s))).
  assert (S0 : bounded s0) by (destruct S; split; auto).
  set (s1 := if b then setSize 1 1 s0 else s0).
  assert (S1 : bounded s1).
  { unfold s1. destruct b; [|exact S0].
    apply (aside_bounded _ _ (aside_setSize _ _ _) S0). }
  match goal with |- bounded (if ?c then _ else _) => destruct c end.
  - destruct S1. split; auto.
  - apply (aside_bounded _ _ (aside_emit _ _) S1).
Qed.

Lemma bounded_fold now cbs s :
  is_finite now = true -> forallb finite_callback cbs = true ->
  bounded s -> bounded (fold_left (fun s cb => run_callback now cb s) cbs s).
Proof.
  intros Fn. revert s. induction cbs as [|cb cbs IH]; intros s F S; [exact S|].
  cbn [fold_left]. cbn [forallb] in F. apply andb_true_iff in F.
  destruct F as [F1 F2]. apply IH; [exact F2|].
  apply bounded_run_callback; assumption.
Qed.

Lemma bounded_frame now s :
  is_finite now = true -> bounded s -> bounded (frame now s).
Proof.
  intros Fn S. unfold frame. apply bounded_fold; [exact Fn | apply S |].
  destruct S. split; auto.
Qed.

Lemma bounded_next_callback now s :
  is_finite now = true -> bounded s -> bounded (next_callback now s).
Proof.
  intros Fn S. unfold next_callback.
  destruct (animationFrames s) as [|cb rest] eqn:Q; [exact S|].
  pose proof (bounded_queue _ S) as F. rewrite Q in F. cbn [forallb] in F.
  apply andb_true_iff in F. destruct F as [F1 F2].
  apply bounded_run_callback; try assumption.
  destruct S. split; auto.
Qed.

Lemma bounded_step o s :
  finite_operation o = true -> bounded s -> bounded (step o s).
Proof.
  intros F S. destruct o; cbn [step]; cbn [finite_operation] in F;
    try (apply andb_true_iff in F; destruct F).
  - apply bounded_enter; assumption.
  - apply bounded_leave; assumption.
  - apply bounded_stop; assumption.
  - apply bounded_reset; assumption.
  - apply (aside_bounded _ _ (aside_setSize _ _ _) S).
  - apply (aside_bounded _ _ (aside_setFromImage _ _) S).
  - apply (aside_bounded _ _ (aside_setToImage _ _) S).
  - apply (aside_bounded _ _ (aside_render _) S).
  - apply bounded_destroy; assumption.
  - apply bounded_frame; assumption.
  - apply bounded_next_callback; assumption.
  - apply (aside_bounded _ _ (aside_image_load _ _ _ _) S).
Qed.

Lemma bounded_run os s :
  forallb finite_operation os = true -> bounded s -> bounded (run os s).
Proof.
  revert s. induction os as [|o os IH]; intros s F S; [exact S|].
  cbn [forallb] in F. apply andb_true_iff in F. destruct F as [F1 F2].
  unfold run. cbn [fold_left]. apply IH; [exact F2|].
  apply bounded_step; assumption.
Qed.

Lemma bounded_constructor p :
  is_nonzero (default (Fin 2000) (Params.duration p)) = true ->
  bounded (constructor p).
Proof.
  intros H. unfold constructor. cbv zeta.
  destruct (Texture.new 0 _) as [tFrom eFrom].
  destruct (Texture.new 1 _) as [tTo eTo].
  destruct (Texture.new 2 _) as [tDisp eDisp].
  match goal with |- bounded (setSize _ _ (_updateTexture ?s0)) =>
    apply (aside_bounded (_updateTexture s0));
      [apply aside_setSize|];
    apply (aside_bounded s0); [apply aside_updateTexture|]
  end.
  split; auto.
Qed.

(** The mode flags. *)

Lemma exclusive_tick_enter st se now s :
  exclusive s -> exclusive (tick_enter st se now s).
Proof.
  intros X.
  destruct (_destroyed s) eqn:D;
    [rewrite tick_enter_idle by auto; exact X|].
  destruct (_isEntering s) eqn:E;
    [|rewrite tick_enter_idle by auto; exact X].
  rewrite tick_enter_live by assumption. unfold exclusive in *.
  cbn [_isEntering _isLeaving]. rewrite E in X. simpl in X. rewrite X.
  apply andb_false_r.
Qed.

Lemma exclusive_tick_leave st se now s :
  exclusive s -> exclusive (tick_leave st se now s).
Proof.
  intros X.
  destruct (_destroyed s) eqn:D;
    [rewrite tick_leave_idle by auto; exact X|].
  destruct (_isLeaving s) eqn:E;
    [|rewrite tick_leave_idle by auto; exact X].
  rewrite tick_leave_live by assumption. unfold exclusive in *.
  cbn [_isEntering _isLeaving]. rewrite E, andb_true_r in X. rewrite X.
  reflexivity.
Qed.

Lemma exclusive_run_callback now cb s :
  exclusive s -> exclusive (run_callback now cb s).
Proof.
  intros X. destruct cb as [st se|st se|]; cbn [run_callback].
  - apply exclusive_tick_enter; assumption.
  - apply exclusive_tick_leave; assumption.
  - apply (aside_exclusive s); [|exact X].
    eapply aside_trans; [apply aside_render|]. split; auto.
Qed.

Lemma exclusive_enter st now s : exclusive s -> exclusive (enter st now s).
Proof.
  intros X. unfold enter.
  destruct (_isEntering s); [exact X|].
  destruct (_ === _)%num; [exact X|]. cbv zeta.
  apply exclusive_tick_enter. reflexivity.
Qed.

Lemma exclusive_leave st now s : exclusive s -> exclusive (leave st now s).
Proof.
  intros X. unfold leave.
  destruct (_isLeaving s); [exact X|].
  destruct (_ === _)%num; [exact X|]. cbv zeta.
  apply exclusive_tick_leave. reflexivity.
Qed.

Lemma exclusive_stop s : exclusive s -> exclusive (stop s).
Proof.
  intros X. unfold stop.
  destruct (negb (_isEntering s) && negb (_isLeaving s)); [exact X|].
  reflexivity.
Qed.

Lemma exclusive_reset s : exclusive s -> exclusive (reset s).
Proof.
  intros X. unfold reset. cbv zeta.
  apply (aside_exclusive _ _ (aside_render _)). apply exclusive_stop, X.
Qed.

Lemma exclusive_destroy b s : exclusive (destroy b s).
Proof.
  unfold destroy. cbv zeta.
  set (s0 := set_isLeaving false (set_isEntering false (set_destroyed true s))).
  assert (X0 : exclusive s0) by reflexivity.
  set (s1 := if b then setSize 1 1 s0 else s0).
  assert (X1 : exclusive s1).
  { unfold s1. destruct b; [|exact X0].
    apply (aside_exclusive _ _ (aside_setSize _ _ _) X0). }
  match goal with |- exclusive (if ?c then _ else _) => destruct c end;
    exact X1.
Qed.

Lemma exclusive_fold now cbs s :
  exclusive s ->
  exclusive (fold_left (fun s cb => run_callback now cb s) cbs s).
Proof.
  revert s. induction cbs as [|cb cbs IH]; intros s X; [exact X|].
  cbn [fold_left]. apply IH. apply exclusive_run_callback; assumption.
Qed.

Lemma exclusive_step o s : exclusive s -> exclusive (step o s).
Proof.
  intros X. destruct o; cbn [step].
  - apply exclusive_enter; assumption.
  - apply exclusive_leave; assumption.
  - apply exclusive_stop; assumption.
  - apply exclusive_reset; assumption.
  - apply (aside_exclusive _ _ (aside_setSize _ _ _) X).
  - apply (aside_exclusive _ _ (aside_setFromImage _ _) X).
  - apply (aside_exclusive _ _ (aside_setToImage _ _) X).
  - apply (aside_exclusive _ _ (aside_render _) X).
  - apply exclusive_destroy.
  - unfold frame. apply exclusive_fold. exact X.
  - unfold next_callback. destruct (animationFrames s); [exact X|].
    apply exclusive_run_callback. exact X.
  - apply (aside_exclusive _ _ (aside_image_load _ _ _ _) X).
Qed.

Lemma exclusive_run os s : exclusive s -> exclusive (run os s).
Proof.
  revert s. induction os as [|o os IH]; intros s X; [exact X|].
  unfold run. cbn [fold_left]. apply IH. apply exclusive_step; assumption.
Qed.

Lemma exclusive_constructor p : exclusive (constructor p).
Proof.
  unfold constructor. cbv zeta.
  destruct (Texture.new 0 _) as [tFrom eFrom].
  destruct (Texture.new 1 _) as [tTo eTo].
  destruct (Texture.new 2 _) as [tDisp eDisp].
  match goal with |- exclusive (setSize _ _ (_updateTexture ?s0)) =>
    apply (aside_exclusive (_updateTexture s0));
      [apply aside_setSize|];
    apply (aside_exclusive s0); [apply aside_updateTexture|]
  end.
  reflexivity.
Qed.

(** C3, as amended. After the constructor and after every sequence of public
    operations, animation frames, single callbacks and image loads, at most
    one of the Entering and Leaving flags is set; progress is a number of
    [0, 1] provided that [duration] is finite and not zero and that the
    clock readings are finite. *)
Theorem progress_and_modes_invariant (p : Params.t) (os : list operation) :
  let s := run os (constructor p) in
  _isEntering s && _isLeaving s = false
  /\ (is_nonzero (default (Fin 2000) (Params.duration p)) = true ->
      forallb finite_operation os = true ->
      in_unit (_progress s) = true).
Proof.
  split.
  - apply exclusive_run, exclusive_constructor.
  - intros Hd Hf. apply bounded_progress, bounded_run; [exact Hf|].
    apply bounded_constructor, Hd.
Qed.

(** The claim as stated fails for [duration: 0]: the first tick of
    [enter()] divides 0 by 0 and progress is [NaN], which [clamp] keeps. *)
Lemma progress_is_NaN_with_zero_duration :
  _progress (run [Enter (Fin 0) (Fin 0)] (constructor zero_duration_params))
  = NaN
  /\ in_unit
       (_progress (run [Enter (Fin 0) (Fin 0)] (constructor zero_duration_params)))
     = false.
Proof. vm_compute. split; reflexivity. Qed.

Lemma progress_and_modes_invariant_witness :
  in_unit
    (_progress
       (run [Enter (Fin 0) (Fin 0); Frame (Fin 700); Leave (Fin 800) (Fin 800);
             Tick (Fin 900); SetSize 10 20]
            (constructor demo_params))) = true.
Proof.
  apply (proj2 (progress_and_modes_invariant demo_params
                  [Enter (Fin 0) (Fin 0); Frame (Fin 700);
                   Leave (Fin 800) (Fin 800); Tick (Fin 900);
                   SetSize 10 20]));
    reflexivity.
Defined.

(** ** The aspect and the UV scale *)

Lemma trace_onUpdate s : trace (_onUpdate s) = trace s.
Proof.
  unfold _onUpdate.
  destruct (_isEntering s || _isLeaving s), (_hasUpdated s); reflexivity.
Qed.

(** C5. Each run of [_updateAspect] selects the "from" source when there is
    one and the "to" source otherwise. The media aspect of an image element
    is its natural width over its natural height, that of a canvas its width
    over its height, and that of a video, or of no source, is 1. The canvas
    aspect is the width of the canvas over its height. With
    [ratio = mediaAspect / canvasAspect], the [uvScale] uniform is set to
    [(1, ratio)] when [ratio < 1] and to [(1 / ratio, 1)] otherwise, and
    nothing else reaches the context. With a media aspect of 16/9 and a
    canvas aspect of 1 the uniform is set to [(9/16, 1)]. *)
Theorem updateAspect_sets_uvScale (s : ImageTransition) :
  let ratio := (mediaAspect (aspectImage s) / canvasAspect s)%num in
  (forall i, Texture.image (_textureFrom s) = Some i -> aspectImage s = Some i)
  /\ (Texture.image (_textureFrom s) = None ->
      aspectImage s = Texture.image (_textureTo s))
  /\ ((forall naturalWidth naturalHeight,
         mediaAspect (Some (HTMLImageElement naturalWidth naturalHeight))
         = (of_N naturalWidth / of_N naturalHeight)%num)
      /\ (forall w h,
            mediaAspect (Some (HTMLCanvasElement w h))
            = (of_N w / of_N h)%num)
      /\ (forall w h, mediaAspect (Some (HTMLVideoElement w h)) = Fin 1)
      /\ mediaAspect None = Fin 1)
  /\ canvasAspect s
     = (of_N (width (_canvas s)) / of_N (height (_canvas s)))%num
  /\ ((ratio <? Fin 1)%num = true ->
      trace (_updateAspect s)
      = trace s ++ [GL (uniform2f UuvScale (Fin 1) ratio)])
  /\ ((ratio <? Fin 1)%num = false ->
      trace (_updateAspect s)
      = trace s ++ [GL (uniform2f UuvScale (Fin 1 / ratio)%num (Fin 1))])
  /\ (forall m c : Q,
        mediaAspect (aspectImage s) = Fin m -> (m == 16 # 9)%Q ->
        canvasAspect s = Fin c -> (c == 1)%Q ->
        exists a : Q,
          trace (_updateAspect s)
          = trace s ++ [GL (uniform2f UuvScale (Fin a) (Fin 1))]
          /\ (a == 9 # 16)%Q).
Proof.
  intros ratio.
  assert (T : (ratio <? Fin 1)%num = true ->
              trace (_updateAspect s)
              = trace s ++ [GL (uniform2f UuvScale (Fin 1) ratio)]).
  { intros H. unfold _updateAspect. cbv zeta. fold (canvasAspect s).
    fold ratio. rewrite H, trace_onUpdate. reflexivity. }
  assert (F : (ratio <? Fin 1)%num = false ->
              trace (_updateAspect s)
              = trace s ++ [GL (uniform2f UuvScale (Fin 1 / ratio)%num (Fin 1))]).
  { intros H. unfold _updateAspect. cbv zeta. fold (canvasAspect s).
    fold ratio. rewrite H, trace_onUpdate. reflexivity. }
  split; [|split; [|split; [|split; [|split; [exact T | split; [exact F|]]]]]].
  - intros i H. unfold aspectImage. rewrite H. reflexivity.
  - intros H. unfold aspectImage. rewrite H. reflexivity.
  - repeat split.
  - reflexivity.
  - intros m c Hm Em Hc Ec.
    assert (R : ratio = Fin (m / c)).
    { unfold ratio. rewrite Hm, Hc. apply div_Fin. lra. }
    exists (1 / (m / c))%Q. split.
    + rewrite F.
      * rewrite R. rewrite div_Fin; [reflexivity|].
        rewrite Em, Ec. intros X. vm_compute in X. discriminate.
      * rewrite R. cbn [Num.ltb]. apply negb_false_iff, Qle_bool_iff.
        rewrite Em, Ec. vm_compute. discriminate.
    + rewrite Em, Ec. reflexivity.
Qed.

(** On [demo] (a "from" image of 16 by 9 in a canvas of 100 by 100) the
    ratio is 16/9 and the scale [(9/16, 1)]; on [demo_wide], the same
    controller in a canvas of 200 by 100, the ratio is 8/9 and the scale
    [(1, 8/9)]. *)
Lemma updateAspect_sets_uvScale_witness :
  (exists a : Q,
     trace (_updateAspect demo)
     = trace demo ++ [GL (uniform2f UuvScale (Fin a) (Fin 1))]
     /\ (a == 9 # 16)%Q)
  /\ trace (_updateAspect demo_wide)
     = trace demo_wide
       ++ [GL (uniform2f UuvScale (Fin 1)
                 (mediaAspect (Some (HTMLImageElement 16 9))
                  / canvasAspect demo_wide)%num)]
  /\ (mediaAspect (Some (HTMLImageElement 16 9)) / canvasAspect demo_wide)%num
     = Fin ((16 # 9) / (200 # 100)).
Proof.
  split; [|split].
  - apply (proj2 (proj2 (proj2 (proj2 (proj2 (proj2
             (updateAspect_sets_uvScale demo))))))
             (16 # 9)%Q (100 # 100)%Q); reflexivity.
  - apply (proj1 (proj2 (proj2 (proj2 (proj2
             (updateAspect_sets_uvScale demo_wide)))))).
    reflexivity.
  - reflexivity.
Defined.

(** ** Textures: what the handle holds *)

Lemma gl_state_app tr es :
  gl_state (tr ++ es) = fold_left gl_exec es (gl_state tr).
Proof. unfold gl_state. apply fold_left_app. Qed.

Lemma upd_same {A} (f : nat -> A) k v : upd f k v k = v.
Proof. unfold upd. rewrite Nat.eqb_refl. reflexivity. Qed.

(** An upload leaves the uploaded image in the texture of [s]. *)
Lemma store_upload (s : Texture.t) (i : TextureSource) (g : glstate) :
  store (fold_left gl_exec (Texture.upload s i) g) (Texture.texture s)
  = Some (PixelsOf i).
Proof.
  unfold Texture.upload. cbv zeta.
  destruct (isPowerOfTwo _ && isPowerOfTwo _);
    cbn [app fold_left gl_exec active bound store];
    unfold texImage2D; cbn [active bound]; rewrite upd_same;
    cbn [store]; apply upd_same.
Qed.

Lemma isLoaded_source (s : Texture.t) (i : TextureSource) :
  Texture.image s = Some i -> Texture.isLoaded s = source_loaded i.
Proof. unfold Texture.isLoaded, source_loaded. intros ->. reflexivity. Qed.

(** [setImage] in three cases. *)
Lemma setImage_cases (image : option TextureSource) (s : Texture.t) :
  let s' := Texture.set_image image s in
  match image with
  | None => Texture.setImage image s = (s', Texture.upload s' defaultImage)
  | Some i =>
      if source_loaded i
      then Texture.setImage image s = (s', Texture.upload s' i)
      else Texture.setImage image s
           = (s', addEventListener_load i :: Texture.upload s' defaultImage)
  end.
Proof.
  unfold Texture.setImage. cbv zeta. destruct image as [i|]; [|reflexivity].
  cbn [Texture.set_image Texture.image].
  rewrite (isLoaded_source (Texture.set_image (Some i) s) i) by reflexivity.
  destruct (source_loaded i) eqn:L; [reflexivity|].
  unfold Texture.onLoad_with. cbn [Texture.set_image Texture.image].
  rewrite (isLoaded_source _ i) by reflexivity. rewrite L. reflexivity.
Qed.

(** In [setImage], the call of [onLoad] is the method [onLoad] itself. *)
Lemma setImage_eq (image : option TextureSource) (s : Texture.t) :
  Texture.setImage image s =
  let s := Texture.set_image image s in
  match Texture.image s with
  | None => (s, Texture.upload s defaultImage)
  | Some i =>
      if Texture.isLoaded s then (s, Texture.upload s i)
      else let '(s', e) := Texture.onLoad s in
           (s', e ++ Texture.upload s' defaultImage)
  end.
Proof.
  unfold Texture.setImage, Texture.onLoad, Texture.onLoad_with. cbv zeta.
  destruct (Texture.image (Texture.set_image image s)) as [i|]; [|reflexivity].
  destruct (Texture.isLoaded (Texture.set_image image s)); reflexivity.
Qed.

Lemma store_setImage (image : option TextureSource) (s : Texture.t)
    (g : glstate) :
  Texture.texture (fst (Texture.setImage image s)) = Texture.texture s
  /\ store (fold_left gl_exec (snd (Texture.setImage image s)) g)
           (Texture.texture s)
     = Some (PixelsOf (uploaded_by_setImage image)).
Proof.
  pose proof (setImage_cases image s) as H. cbv zeta in H.
  unfold uploaded_by_setImage.
  destruct image as [i|]; [destruct (source_loaded i)|]; rewrite H;
    cbn [fst snd Texture.set_image Texture.texture fold_left gl_exec];
    (split; [reflexivity|]);
    apply (store_upload (Texture.set_image _ s)).
Qed.

Lemma sampleable_setImage (image : option TextureSource) :
  sampleable (Some (PixelsOf (uploaded_by_setImage image))).
Proof.
  unfold uploaded_by_setImage.
  destruct image as [i|]; [destruct (source_loaded i) eqn:L|].
  - right. right. exists i. auto.
  - right. left. reflexivity.
  - right. left. reflexivity.
Qed.

Lemma texture_ok_setImage h image s tr :
  texture_ok h (s, tr) ->
  texture_ok h (fst (Texture.setImage image s),
                tr ++ snd (Texture.setImage image s)).
Proof.
  intros [H1 H2]. cbn [fst snd] in *.
  destruct (store_setImage image s (gl_state tr)) as [E1 E2].
  split; cbn [fst snd]; [congruence|].
  unfold texture_pixels. rewrite gl_state_app, <- H1, E2.
  apply sampleable_setImage.
Qed.

Lemma decoded_texture w h s :
  Texture.texture (Texture.decoded w h s) = Texture.texture s.
Proof.
  unfold Texture.decoded.
  destruct (Texture.image s) as [[| |]|]; reflexivity.
Qed.

Lemma texture_ok_step h c st :
  texture_ok h st -> texture_ok h (TextureLife.step st c).
Proof.
  destruct st as [s tr]. intros H. unfold TextureLife.step. cbn [fst snd].
  destruct c as [image|w h'].
  - pose proof (texture_ok_setImage h image s tr H) as K.
    destruct (Texture.setImage image s). exact K.
  - unfold Texture.onLoad_listener.
    set (s1 := Texture.decoded w h' s).
    assert (H1 : texture_ok h (s1, tr)).
    { destruct H as [H1 H2]. split; [|exact H2].
      cbn [fst]. unfold s1. rewrite decoded_texture. exact H1. }
    destruct (Texture.image s1) as [i|].
    + pose proof (texture_ok_setImage h (Some i) s1 tr H1) as K.
      destruct (Texture.setImage (Some i) s1) as [s2 es].
      cbn [fst snd] in K. destruct K as [K1 K2]. split; [exact K1|].
      cbn [snd] in *. unfold texture_pixels in *.
      rewrite gl_state_app in *. exact K2.
    + rewrite app_nil_r. exact H1.
Qed.

Lemma texture_ok_run h cs st :
  texture_ok h st -> texture_ok h (TextureLife.run cs st).
Proof.
  revert st. induction cs as [|c cs IH]; intros st H; [exact H|].
  unfold TextureLife.run. cbn [fold_left]. apply IH.
  apply texture_ok_step, H.
Qed.

(** The constructor, in its three cases. *)
Lemma new_cases (h : WebGLTexture) (image : option TextureSource) :
  let e0 := [ GL (createTexture h); GL (bindTexture_TEXTURE_2D (Some h));
              GL (texImage2D_RGBA_UNSIGNED_BYTE_array 1 1 [0; 0; 0; 255]%N) ] in
  let s := {| Texture.image := image; Texture.texture := h |} in
  match image with
  | None => Texture.new h image = (s, e0 ++ Texture.upload s defaultImage)
  | Some i =>
      if source_loaded i
      then Texture.new h image = (s, e0 ++ Texture.upload s i)
      else Texture.new h image = (s, e0 ++ [addEventListener_load i])
  end.
Proof.
  cbv zeta. unfold Texture.new. destruct image as [i|].
  - unfold Texture.onLoad, Texture.onLoad_with. cbn [Texture.image].
    rewrite (isLoaded_source _ i) by reflexivity.
    pose proof (setImage_cases (Some i)
                  {| Texture.image := Some i; Texture.texture := h |}) as H.
    cbv beta iota zeta in H.
    destruct (source_loaded i) eqn:L; rewrite ?L in H; [|reflexivity].
    rewrite H. reflexivity.
  - pose proof (setImage_cases None
                  {| Texture.image := None; Texture.texture := h |}) as H.
    cbv beta iota zeta in H. rewrite H. reflexivity.
Qed.

Lemma texture_pixels_new (h : WebGLTexture) (image : option TextureSource) :
  Texture.texture (fst (Texture.new h image)) = h
  /\ texture_pixels (snd (Texture.new h image)) h
     = Some (match image with
             | None => PixelsOf defaultImage
             | Some i => if source_loaded i then PixelsOf i
                         else opaque_black_pixel
             end).
Proof.
  pose proof (new_cases h image) as H. cbv zeta in H.
  destruct image as [i|]; [destruct (source_loaded i)|]; rewrite H;
    cbn [fst snd Texture.texture]; (split; [reflexivity|]);
    unfold texture_pixels; rewrite gl_state_app.
  - apply (store_upload {| Texture.image := Some i; Texture.texture := h |}).
  - cbn. rewrite ?upd_same. cbn. rewrite ?upd_same. reflexivity.
  - apply (store_upload {| Texture.image := None; Texture.texture := h |}).
Qed.

(** C10, as amended. The constructor of a texture first uploads one opaque
    black pixel (1 by 1). A texture constructed without a source then holds
    the 2 by 2 default canvas; one constructed with a loaded source holds
    that source; one constructed with a source that is not loaded yet keeps
    the opaque black pixel, and only registers its continuation.
    [setImage] uploads the source when it is loaded and the 2 by 2 default
    canvas when the source is absent or not loaded. Hence, from the
    constructor on and whatever [setImage] calls and image loads follow, the
    handle holds pixel data: the opaque black pixel, the default canvas, or a
    source that was loaded when it was uploaded. *)
Theorem texture_always_holds_pixels (h : WebGLTexture)
    (image : option TextureSource) (cs : list TextureLife.call) :
  (exists es,
     snd (Texture.new h image)
     = [ GL (createTexture h); GL (bindTexture_TEXTURE_2D (Some h));
         GL (texImage2D_RGBA_UNSIGNED_BYTE_array 1 1 [0; 0; 0; 255]%N) ]
       ++ es)
  /\ texture_pixels (snd (Texture.new h image)) h
     = Some (match image with
             | None => PixelsOf defaultImage
             | Some i => if source_loaded i then PixelsOf i
                         else opaque_black_pixel
             end)
  /\ (forall (s : Texture.t) (tr : list effect) (i : option TextureSource),
        texture_pixels (tr ++ snd (Texture.setImage i s)) (Texture.texture s)
        = Some (PixelsOf (uploaded_by_setImage i)))
  /\ sampleable
       (texture_pixels (snd (TextureLife.run cs (Texture.new h image))) h).
Proof.
  split; [|split; [|split]].
  - pose proof (new_cases h image) as H. cbv zeta in H.
    destruct image as [i|]; [destruct (source_loaded i)|]; rewrite H;
      eexists; reflexivity.
  - apply texture_pixels_new.
  - intros s tr i. unfold texture_pixels. rewrite gl_state_app.
    apply store_setImage.
  - apply (texture_ok_run h cs (Texture.new h image)).
    destruct (texture_pixels_new h image) as [H1 H2].
    split; [exact H1|]. rewrite H2.
    destruct image as [i|]; [destruct (source_loaded i) eqn:L|].
    + right. right. exists i. auto.
    + left. reflexivity.
    + right. left. reflexivity.
Qed.

(** The claim as stated fails for a texture constructed with a source that
    is not loaded yet: no 2 by 2 placeholder is uploaded, and the handle
    holds the 1 by 1 pixel of the constructor. The opaque pixels are those
    of that 1 by 1 array, not of the 2 by 2 canvas, on which nothing is
    drawn. *)
Lemma unloaded_source_gets_no_placeholder :
  source_loaded (HTMLImageElement 0 0) = false
  /\ snd (Texture.new 0 (Some (HTMLImageElement 0 0)))
     = [ GL (createTexture 0); GL (bindTexture_TEXTURE_2D (Some 0));
         GL (texImage2D_RGBA_UNSIGNED_BYTE_array 1 1 [0; 0; 0; 255]%N);
         addEventListener_load (HTMLImageElement 0 0) ]
  /\ texture_pixels (snd (Texture.new 0 (Some (HTMLImageElement 0 0)))) 0
     = Some (Pixels 1 1 [0; 0; 0; 255]%N).
Proof. vm_compute. repeat split. Qed.

(** ** After destroy() *)

Lemma destroy_flags (b : bool) (s : ImageTransition) :
  _destroyed (destroy b s) = true
  /\ _isEntering (destroy b s) = false
  /\ _isLeaving (destroy b s) = false.
Proof.
  unfold destroy. cbv zeta.
  set (s0 := set_isLeaving false (set_isEntering false (set_destroyed true s))).
  set (s1 := if b then setSize 1 1 s0 else s0).
  assert (A : aside s0 s1).
  { unfold s1. destruct b; [apply aside_setSize | apply aside_refl]. }
  destruct A as [_ _ A1 A2 A3 _].
  match goal with |- context [if ?c then _ else _] => destruct c end;
    cbn [_destroyed _isEntering _isLeaving emit set_canvas];
    rewrite A1, A2, A3; repeat split.
Qed.

(** C9, as amended. [destroy()] sets the destroyed flag and clears both mode
    flags. On a destroyed controller [render()] and every tick return the
    state they were given: no field changes, nothing is appended to the
    trace, nothing is requested. [stop()] does the same as long as neither
    mode flag is set. [enter()] and [leave()] either do nothing or set their
    own mode flag and clear the other, and nothing else: no call on the
    context, no notification, no request. [stop()] and [reset()] issue no
    call on the context, and [reset()] is [stop()] followed by progress 0.
    The lazy render of [_onUpdate], when it runs, only clears
    [_hasUpdated]. *)
Theorem after_destroy (s : ImageTransition) :
  (forall b, _destroyed (destroy b s) = true
             /\ _isEntering (destroy b s) = false
             /\ _isLeaving (destroy b s) = false)
  /\ (_destroyed s = true ->
      render s = s
      /\ (forall now cb, is_tick cb = true -> run_callback now cb s = s)
      /\ (forall now, run_callback now lazy_render s = set_hasUpdated false s)
      /\ (_isEntering s || _isLeaving s = false -> stop s = s)
      /\ (forall startTime now,
            enter startTime now s = s
            \/ enter startTime now s
               = set_isLeaving false (set_isEntering true s))
      /\ (forall startTime now,
            leave startTime now s = s
            \/ leave startTime now s
               = set_isEntering false (set_isLeaving true s))
      /\ gl_calls (trace (stop s)) = gl_calls (trace s)
      /\ reset s = set_progress (Fin 0) (stop s)
      /\ gl_calls (trace (reset s)) = gl_calls (trace s)).
Proof.
  split; [intros b; apply destroy_flags|].
  intros D.
  assert (R : forall s', _destroyed s' = true -> render s' = s')
    by (intros s' D'; unfold render; rewrite D'; reflexivity).
  assert (G : gl_calls (trace (stop s)) = gl_calls (trace s)).
  { unfold stop. destruct (negb (_isEntering s) && negb (_isLeaving s));
      [reflexivity|].
    cbn [trace emit set_isLeaving set_isEntering].
    rewrite gl_calls_app, app_nil_r. reflexivity. }
  assert (DS : _destroyed (set_progress (Fin 0) (stop s)) = true).
  { unfold stop. destruct (negb (_isEntering s) && negb (_isLeaving s));
      exact D. }
  repeat split.
  - apply R, D.
  - intros now [st se|st se|] T; [| |discriminate]; cbn [run_callback].
    + apply tick_enter_idle. left. exact D.
    + apply tick_leave_idle. left. exact D.
  - intros now. cbn [run_callback]. rewrite (R s D). reflexivity.
  - intros H. unfold stop.
    destruct (_isEntering s), (_isLeaving s); try discriminate. reflexivity.
  - intros st now. unfold enter.
    destruct (_isEntering s); [left; reflexivity|].
    destruct (_ === _)%num; [left; reflexivity|].
    right. cbv zeta. apply tick_enter_idle. left. exact D.
  - intros st now. unfold leave.
    destruct (_isLeaving s); [left; reflexivity|].
    destruct (_ === _)%num; [left; reflexivity|].
    right. cbv zeta. apply tick_leave_idle. left. exact D.
  - exact G.
  - unfold reset. cbv zeta. apply R, DS.
  - unfold reset. cbv zeta. rewrite (R _ DS). exact G.
Qed.

(** The claim as stated fails: on a destroyed controller [enter()] sets the
    Entering flag, after which [stop()] notifies; [reset()] changes
    progress; [setSize] resizes the canvas and calls [viewport] and
    [uniform2f]; [setFromImage] uploads to the deleted texture. *)
Lemma operations_after_destroy_are_not_noops :
  _destroyed demo_destroyed = true
  /\ _isEntering demo_destroyed = false
  /\ _isEntering (enter (Fin 5000) (Fin 5000) demo_destroyed) = true
  /\ transitionEnds
       (trace (stop (enter (Fin 5000) (Fin 5000) demo_destroyed)))
     = S (transitionEnds (trace demo_destroyed))
  /\ _progress demo_destroyed = Fin (1000 # 2000)
  /\ _progress (reset demo_destroyed) = Fin 0
  /\ trace (setSize 10 20 demo_destroyed)
     = trace demo_destroyed
       ++ [ GL (viewport 0 0 10 20);
            GL (uniform2f UuvScale (Fin (90 # 320)) (Fin 1)) ]
  /\ nth_error (trace (setFromImage (HTMLImageElement 8 8) demo_destroyed))
               (length (trace demo_destroyed) + 6)
     = Some (GL (texImage2D_RGBA_UNSIGNED_BYTE (HTMLImageElement 8 8))).
Proof. vm_compute. repeat split. Qed.

Lemma after_destroy_witness :
  render demo_destroyed = demo_destroyed
  /\ run_callback (Fin 3000) (enter_tick (Fin 0) (Fin 0)) demo_destroyed
     = demo_destroyed
  /\ stop demo_destroyed = demo_destroyed
  /\ gl_calls (trace (reset demo_destroyed)) = gl_calls (trace demo_destroyed).
Proof.
  destruct (proj2 (after_destroy demo_destroyed) eq_refl)
    as [H1 [H2 [_ [H3 [_ [_ [_ [_ H4]]]]]]]].
  split; [exact H1|]. split; [apply H2; reflexivity|].
  split; [apply H3; reflexivity | exact H4].
Defined.

(** ** The fragment stage *)

Section FragmentProperties.

Local Open Scope R_scope.
Import Shader.

Lemma Reqb_true (u v : R) : u = v -> Reqb u v = true.
Proof. intros H. unfold Reqb. destruct (Req_dec_T u v); [reflexivity | contradiction]. Qed.

Lemma Reqb_false (u v : R) : u <> v -> Reqb u v = false.
Proof. intros H. unfold Reqb. destruct (Req_dec_T u v); [contradiction | reflexivity]. Qed.

Lemma outside_true (p : vec2) :
  x p < 0 \/ 1 < x p \/ y p < 0 \/ 1 < y p -> outside p = true.
Proof.
  unfold outside, Rltb. intros H.
  destruct (Rlt_dec (x p) 0), (Rlt_dec 1 (x p)), (Rlt_dec (y p) 0),
    (Rlt_dec 1 (y p)); try reflexivity. exfalso. tauto.
Qed.

Lemma outside_false (p : vec2) :
  0 <= x p <= 1 /\ 0 <= y p <= 1 -> outside p = false.
Proof.
  unfold outside, Rltb. intros H.
  destruct (Rlt_dec (x p) 0), (Rlt_dec 1 (x p)), (Rlt_dec (y p) 0),
    (Rlt_dec 1 (y p)); try reflexivity; exfalso; lra.
Qed.

(** C4, as amended. At every fragment, the stage samples the displacement
    texture at [vUv] and turns its red and green channels by the angle
    [3.14159265 / 4 + direction], clockwise: [mat2( c, -s, s, c )] is filled
    column by column, so the offset is the standard rotation of the sample by
    the opposite angle (it has the length of the sample). Then
    [pos1 = vUv + offset * intensity * progress] and
    [pos2 = vUv + offset * intensity * (1 - progress)], "from" is sampled at
    [pos1] and "to" at [pos2], and the output is: with "from" absent,
    transparent where [pos2] is outside the unit square and otherwise the
    colour of "to" with its alpha times [progress]; with "from" present and
    "to" absent, the same with [pos1], "from" and [1 - progress]; with both
    present, the mix of the two sampled colours by [progress]. *)
Theorem fragment_output
    (intensity direction progress disableFromImage disableToImage : R)
    (textureFrom textureTo textureDisplacement : vec2 -> vec4) (vUv : vec2) :
  let sample := xy (textureDisplacement vUv) in
  let offset := displacement direction textureDisplacement vUv in
  let pos1 := distortedPosition1 intensity direction progress
                textureDisplacement vUv in
  let pos2 := distortedPosition2 intensity direction progress
                textureDisplacement vUv in
  let fromColor := textureFrom pos1 in
  let toColor := textureTo pos2 in
  let color := main intensity direction progress disableFromImage
                 disableToImage textureFrom textureTo textureDisplacement
                 vUv in
  (offset = rotate (- (defaultAngle + direction)) sample
   /\ x offset * x offset + y offset * y offset
      = x sample * x sample + y sample * y sample)
  /\ pos1 = {| x := x vUv + x offset * intensity * progress;
               y := y vUv + y offset * intensity * progress |}
  /\ pos2 = {| x := x vUv + x offset * intensity * (1 - progress);
               y := y vUv + y offset * intensity * (1 - progress) |}
  /\ (disableFromImage = 1 ->
      (x pos2 < 0 \/ 1 < x pos2 \/ y pos2 < 0 \/ 1 < y pos2 ->
       color = {| r := 0; g := 0; b := 0; a := 0 |})
      /\ (0 <= x pos2 <= 1 /\ 0 <= y pos2 <= 1 ->
          color = {| r := r toColor; g := g toColor; b := b toColor;
                     a := a toColor * progress |}))
  /\ (disableFromImage <> 1 -> disableToImage = 1 ->
      (x pos1 < 0 \/ 1 < x pos1 \/ y pos1 < 0 \/ 1 < y pos1 ->
       color = {| r := 0; g := 0; b := 0; a := 0 |})
      /\ (0 <= x pos1 <= 1 /\ 0 <= y pos1 <= 1 ->
          color = {| r := r fromColor; g := g fromColor; b := b fromColor;
                     a := a fromColor * (1 - progress) |}))
  /\ (disableFromImage <> 1 -> disableToImage <> 1 ->
      color = {| r := r fromColor * (1 - progress) + r toColor * progress;
                 g := g fromColor * (1 - progress) + g toColor * progress;
                 b := b fromColor * (1 - progress) + b toColor * progress;
                 a := a fromColor * (1 - progress) + a toColor * progress |}).
Proof.
  intros sample offset pos1 pos2 fromColor toColor color.
  split; [split|split; [|split; [|split; [|split]]]].
  - unfold offset, displacement, rotationMatrix, mat2_mul, mat2_, rotate.
    fold sample. cbn [x y col0 col1]. rewrite cos_neg, sin_neg.
    f_equal; ring.
  - unfold offset, displacement, rotationMatrix, mat2_mul, mat2_.
    fold sample. cbn [x y col0 col1].
    pose proof (sin2_cos2 (defaultAngle + direction)) as H.
    unfold Rsqr in H.
    set (s := sin (defaultAngle + direction)) in *.
    set (c := cos (defaultAngle + direction)) in *.
    replace ((c * x sample + s * y sample) * (c * x sample + s * y sample)
             + (- s * x sample + c * y sample) * (- s * x sample + c * y sample))
      with ((s * s + c * c) * (x sample * x sample + y sample * y sample))
      by ring.
    rewrite H. ring.
  - reflexivity.
  - reflexivity.
  - intros H1. unfold color, main. rewrite (Reqb_true _ _ H1). fold pos2.
    split; intros H.
    + rewrite (outside_true _ H). reflexivity.
    + rewrite (outside_false _ H). reflexivity.
  - intros H0 H1. unfold color, main.
    rewrite (Reqb_false _ _ H0), (Reqb_true _ _ H1). fold pos1.
    split; intros H.
    + rewrite (outside_true _ H). reflexivity.
    + rewrite (outside_false _ H). reflexivity.
  - intros H0 H1. unfold color, main.
    rewrite (Reqb_false _ _ H0), (Reqb_false _ _ H1). reflexivity.
Qed.

End FragmentProperties.

(** The claim as stated fails on the sense of the rotation: for an angle of
    a quarter turn the stage sends the sample [(1, 0)] to [(0, -1)], where
    the rotation by that angle sends it to [(0, 1)]. *)
Lemma displacement_turns_clockwise :
  Shader.displacement (PI / 2 - Shader.defaultAngle)
    (fun _ => {| Shader.r := 1; Shader.g := 0; Shader.b := 0; Shader.a := 0 |})
    {| Shader.x := 0; Shader.y := 0 |}
  = {| Shader.x := 0; Shader.y := -1 |}
  /\ rotate (Shader.defaultAngle + (PI / 2 - Shader.defaultAngle))
       {| Shader.x := 1; Shader.y := 0 |}
     = {| Shader.x := 0; Shader.y := 1 |}.
Proof.
  unfold Shader.displacement, Shader.rotationMatrix, Shader.mat2_mul,
    Shader.mat2_, Shader.xy, rotate.
  cbn [Shader.x Shader.y Shader.r Shader.g Shader.col0 Shader.col1].
  replace (Shader.defaultAngle + (PI / 2 - Shader.defaultAngle))%R
    with (PI / 2)%R by ring.
  rewrite cos_PI2, sin_PI2. split; f_equal; ring.
Qed.

Lemma fragment_output_witness :
  Shader.main 1 0 (1 / 2) 1 0
    (fun _ => {| Shader.r := 1; Shader.g := 0; Shader.b := 0; Shader.a := 1 |})
    (fun _ => {| Shader.r := 0; Shader.g := 1; Shader.b := 0; Shader.a := 1 |})
    (fun _ => {| Shader.r := 0; Shader.g := 0; Shader.b := 0; Shader.a := 0 |})
    {| Shader.x := 1 / 2; Shader.y := 1 / 2 |}
  = {| Shader.r := 0; Shader.g := 1; Shader.b := 0;
       Shader.a := 1 * (1 / 2) |}%R.
Proof.
  apply (proj2 (proj1 (proj2 (proj2 (proj2
           (fragment_output 1 0 (1 / 2) 1 0
              (fun _ => {| Shader.r := 1; Shader.g := 0; Shader.b := 0;
                           Shader.a := 1 |})
              (fun _ => {| Shader.r := 0; Shader.g := 1; Shader.b := 0;
                           Shader.a := 1 |})
              (fun _ => {| Shader.r := 0; Shader.g := 0; Shader.b := 0;
                           Shader.a := 0 |})
              {| Shader.x := 1 / 2; Shader.y := 1 / 2 |})))) eq_refl)).
  unfold Shader.distortedPosition2, Shader.displacement,
    Shader.rotationMatrix, Shader.mat2_mul, Shader.mat2_, Shader.xy,
    Shader.vadd, Shader.scale.
  cbn [Shader.x Shader.y Shader.r Shader.g Shader.col0 Shader.col1].
  lra.
Defined.

(** * More properties *)

(** ** Powers of two *)

Lemma isPowerOfTwo_pow2 (k : N) : isPowerOfTwo (2 ^ k) = true.
Proof.
  unfold isPowerOfTwo. apply andb_true_iff. split.
  - apply N.eqb_eq. rewrite N.sub_1_r, <- N.ones_equiv, N.land_ones.
    apply N.Div0.mod_same.
  - apply negb_true_iff, N.eqb_neq. apply N.pow_nonzero. discriminate.
Qed.

Lemma isPowerOfTwo_inv (n : N) :
  isPowerOfTwo n = true -> exists k, n = (2 ^ k)%N.
Proof.
  unfold isPowerOfTwo. intros H. apply andb_true_iff in H.
  destruct H as [H1 H2]. apply N.eqb_eq in H1.
  apply negb_true_iff, N.eqb_neq in H2.
  assert (P : (0 < n)%N) by lia.
  destruct (N.log2_spec_alt n P) as [r [E [_ R]]].
  destruct (N.eq_dec r 0) as [->|Z]; [exists (N.log2 n); lia|].
  exfalso.
  assert (L : N.log2 (n - 1) = N.log2 n).
  { apply (N.log2_unique' _ _ (r - 1)); lia. }
  assert (B : N.testbit (N.land n (n - 1)) (N.log2 n) = true).
  { rewrite N.land_spec, N.bit_log2 by lia.
    rewrite <- L. rewrite N.bit_log2 by lia. reflexivity. }
  rewrite H1, N.bits_0 in B. discriminate.
Qed.

Lemma ToInt32_small (z : Z) :
  (- 2 ^ 31 <= z < 2 ^ 31)%Z -> ToInt32 z = z.
Proof. intros H. unfold ToInt32. rewrite Z.mod_small; lia. Qed.

Lemma isPowerOfTwo_int32_N (n : N) :
  (n < 2 ^ 31)%N -> isPowerOfTwo_int32 (Z.of_N n) = isPowerOfTwo n.
Proof.
  intros H. unfold isPowerOfTwo_int32, isPowerOfTwo.
  assert (Hz : (0 <= Z.of_N n < 2 ^ 31)%Z).
  { split; [lia|]. change (2 ^ 31)%Z with (Z.of_N (2 ^ 31)). lia. }
  rewrite !ToInt32_small by lia.
  destruct (N.eq_dec n 0) as [->|P]; [reflexivity|].
  replace (Z.of_N n - 1)%Z with (Z.of_N (n - 1)) by lia.
  rewrite <- N2Z.inj_land. f_equal.
  - destruct (N.eqb_spec (N.land n (n - 1)) 0) as [E|E].
    + rewrite E. reflexivity.
    + apply Z.eqb_neq. lia.
  - f_equal. destruct (N.eqb_spec n 0); [contradiction|].
    apply Z.eqb_neq. lia.
Qed.

(** X1. On a size below [2 ^ 31], where the 32-bit wrapping of [&] changes
    nothing, [isPowerOfTwo] answers true exactly on the powers of two
    (1 included, 0 excluded). *)
Theorem isPowerOfTwo_characterized (n : N) :
  (n < 2 ^ 31)%N ->
  isPowerOfTwo_int32 (Z.of_N n) = isPowerOfTwo n
  /\ (isPowerOfTwo n = true <-> exists k, n = (2 ^ k)%N).
Proof.
  intros H. split; [apply isPowerOfTwo_int32_N, H|]. split.
  - apply isPowerOfTwo_inv.
  - intros [k ->]. apply isPowerOfTwo_pow2.
Qed.

Lemma isPowerOfTwo_characterized_witness :
  isPowerOfTwo_int32 (Z.of_N 256) = isPowerOfTwo 256
  /\ (isPowerOfTwo 256 = true <-> exists k, 256%N = (2 ^ k)%N).
Proof. apply (isPowerOfTwo_characterized 256). reflexivity. Defined.

(** ** convertPowerOfTwo *)

Lemma isPowerOfTwo_min_pow2 (k m : N) :
  isPowerOfTwo m = true -> isPowerOfTwo (N.min (2 ^ k) m) = true.
Proof.
  intros H. destruct (N.min_spec (2 ^ k) m) as [[_ ->]|[_ ->]];
    [apply isPowerOfTwo_pow2 | exact H].
Qed.

(** X2. When [MAX_TEXTURE_SIZE] is a power of two (below [2^31], where
    [&] does not wrap), [convertPowerOfTwo] returns the very source it was
    given, without a warning, for every source whose width and height are
    not zero, power-of-two sized or not: the sizes it tests are already
    rounded up to powers of two. (An image that is not loaded is returned
    too, with a warning.) *)
Theorem convertPowerOfTwo_returns_its_argument
    (MAX_TEXTURE_SIZE : N) (ceil_log2 : N -> N) (image : TextureSource) :
  (MAX_TEXTURE_SIZE < 2 ^ 31)%N -> isPowerOfTwo MAX_TEXTURE_SIZE = true ->
  Texture.width_of image <> 0%N -> Texture.height_of image <> 0%N ->
  convertPowerOfTwo MAX_TEXTURE_SIZE ceil_log2 image = (image, false).
Proof.
  intros _ M W H. unfold convertPowerOfTwo, ceilPowerOfTwo.
  apply N.eqb_neq in W, H. rewrite W, H, andb_false_r.
  rewrite !isPowerOfTwo_min_pow2 by exact M. reflexivity.
Qed.

Lemma convertPowerOfTwo_returns_its_argument_witness :
  convertPowerOfTwo 4096 N.log2_up (HTMLImageElement 300 200)
  = (HTMLImageElement 300 200, false).
Proof.
  apply (convertPowerOfTwo_returns_its_argument 4096 N.log2_up
           (HTMLImageElement 300 200));
    [reflexivity | reflexivity | discriminate | discriminate].
Defined.

(** ** EventDispatcher *)

Module EventDispatcherFacts.
Import EventDispatcher.












Section Registered.

Import String.
Local Open Scope string_scope.


End Registered.



End EventDispatcherFacts.

(** ** Textures: uploads and deferred loads *)

Lemma upload_shape (s : Texture.t) (i : TextureSource) :
  exists es,
    Texture.upload s i
    = es ++ [GL (bindTexture_TEXTURE_2D None);
             dispatchEvent (updated (Texture.texture s))]
    /\ updates es = 0 /\ draws es = 0 /\ transitionEnds es = 0.
Proof.
  unfold Texture.upload. cbv zeta.
  destruct (isPowerOfTwo _ && isPowerOfTwo _);
    eexists; (split; [rewrite app_assoc; reflexivity|]); repeat split.
Qed.




(** An element is, or is not, in a list that is written out. *)
Ltac in_list :=
  solve [cbn [In]; repeat (first [left; reflexivity | right])].
Ltac not_in K :=
  solve [cbn [In] in K; repeat (destruct K as [K|K]; try discriminate K);
         contradiction].

(** X7. [setImage] asks for mipmaps ([LINEAR_MIPMAP_NEAREST] as the
    minification filter, then [generateMipmap]) exactly when the width and
    the height of what it uploads both pass [isPowerOfTwo]; otherwise the
    filter is [LINEAR] and no mipmap is generated. What it uploads is the
    source when it is loaded, and the 2 by 2 default canvas, which always
    gets mipmaps, otherwise. *)
Theorem setImage_mipmaps_powers_of_two (image : option TextureSource)
    (s : Texture.t) :
  let src := uploaded_by_setImage image in
  let es := snd (Texture.setImage image s) in
  let pot := isPowerOfTwo (Texture.width_of src)
             && isPowerOfTwo (Texture.height_of src) in
  In (GL (texImage2D_RGBA_UNSIGNED_BYTE src)) es
  /\ (In (GL generateMipmap_TEXTURE_2D) es <-> pot = true)
  /\ (In (GL (texParameteri_TEXTURE_MIN_FILTER LINEAR_MIPMAP_NEAREST)) es
      <-> pot = true)
  /\ (In (GL (texParameteri_TEXTURE_MIN_FILTER LINEAR)) es <-> pot = false)
  /\ (src = defaultImage -> pot = true).
Proof.
  intros src es pot.
  assert (E : exists pre,
            es = pre ++ Texture.upload (Texture.set_image image s) src
            /\ (pre = [] \/ exists i, pre = [addEventListener_load i])).
  { pose proof (setImage_cases image s) as H. cbv zeta in H.
    unfold es, src, uploaded_by_setImage.
    destruct image as [i|]; [destruct (source_loaded i)|]; rewrite H.
    - exists []. split; [reflexivity | left; reflexivity].
    - exists [addEventListener_load i]. split; [reflexivity | right; eauto].
    - exists []. split; [reflexivity | left; reflexivity]. }
  destruct E as [pre [-> P]]. unfold Texture.upload. cbv zeta. fold pot.
  assert (D : src = defaultImage -> pot = true)
    by (intros X; unfold pot; rewrite X; reflexivity).
  destruct pot; destruct P as [->|[i ->]]; cbn [app];
    (split; [in_list|]);
    (split; [split; intros K; first [reflexivity | discriminate K
                                    | in_list | not_in K]|]);
    (split; [split; intros K; first [reflexivity | discriminate K
                                    | in_list | not_in K]|]);
    (split; [split; intros K; first [reflexivity | discriminate K
                                    | in_list | not_in K] | exact D]).
Qed.

(** X8. The deferred upload. When the image of a texture fires ['load']
    with a natural width that is not zero, the continuation removes itself
    from the image, uploads the image and notifies ['updated']: the handle
    then holds the image. With a natural width of zero it uploads the
    default canvas and registers a continuation again. A texture without an
    image ignores the event. *)
Theorem load_uploads_the_image (s : Texture.t) (tr : list effect)
    (w0 h0 w h : N) :
  Texture.image s = Some (HTMLImageElement w0 h0) ->
  let i := HTMLImageElement w h in
  let st := TextureLife.step (s, tr) (TextureLife.Load w h) in
  Texture.image (fst st) = Some i
  /\ Texture.texture (fst st) = Texture.texture s
  /\ snd st
     = tr ++ removeEventListener_load i
          :: (if (w =? 0)%N
              then addEventListener_load i
                   :: Texture.upload (fst st) defaultImage
              else Texture.upload (fst st) i)
  /\ texture_pixels (snd st) (Texture.texture s)
     = Some (PixelsOf (if (w =? 0)%N then defaultImage else i))
  /\ updates (snd st) = S (updates tr).
Proof.
  intros H i st.
  assert (D : Texture.decoded w h s = Texture.set_image (Some i) s)
    by (unfold Texture.decoded; rewrite H; reflexivity).
  assert (L : source_loaded i = negb (w =? 0)%N) by reflexivity.
  pose proof (setImage_cases (Some i) (Texture.set_image (Some i) s)) as C.
  cbv beta iota zeta in C. rewrite L in C.
  assert (E : st = (Texture.set_image (Some i) s,
                    tr ++ removeEventListener_load i
                       :: (if (w =? 0)%N
                           then addEventListener_load i
                                :: Texture.upload
                                     (Texture.set_image (Some i) s) defaultImage
                           else Texture.upload
                                  (Texture.set_image (Some i) s) i))).
  { unfold st, TextureLife.step, Texture.onLoad_listener. cbn [fst snd].
    rewrite D. cbn [Texture.set_image Texture.image].
    destruct (w =? 0)%N; cbn [negb] in C;
      cbn [Texture.set_image Texture.image Texture.texture] in C |- *;
      rewrite C; reflexivity. }
  rewrite E. cbn [fst snd Texture.set_image Texture.image Texture.texture].
  assert (A : forall a b, updates (a ++ b) = updates a + updates b)
    by (intros a b; unfold updates; rewrite filter_app, length_app; reflexivity).
  split; [reflexivity|]. split; [reflexivity|]. split; [reflexivity|].
  split.
  - unfold texture_pixels. rewrite gl_state_app.
    destruct (w =? 0)%N; cbn [fold_left gl_exec];
      apply (store_upload {| Texture.image := Some i;
                             Texture.texture := Texture.texture s |}).
  - rewrite A.
    destruct (w =? 0)%N;
      match goal with |- context [Texture.upload ?t ?x] =>
        destruct (upload_shape t x) as [es [U [N _]]]; rewrite U
      end;
      change (removeEventListener_load i :: addEventListener_load i :: es ++ ?l)
        with ([removeEventListener_load i; addEventListener_load i] ++ es ++ l);
      change (removeEventListener_load i :: es ++ ?l)
        with ([removeEventListener_load i] ++ es ++ l);
      rewrite !A, N; cbn; lia.
Qed.

Lemma load_uploads_the_image_witness :
  texture_pixels
    (snd (TextureLife.step (Texture.new 0 (Some (HTMLImageElement 0 0)))
            (TextureLife.Load 640 480)))
    0
  = Some (PixelsOf (HTMLImageElement 640 480)).
Proof.
  apply (proj1 (proj2 (proj2 (proj2
           (load_uploads_the_image
              (fst (Texture.new 0 (Some (HTMLImageElement 0 0))))
              (snd (Texture.new 0 (Some (HTMLImageElement 0 0))))
              0 0 640 480 eq_refl))))).
Defined.

Lemma load_without_image (h : WebGLTexture) (tr : list effect) (w hh : N) :
  TextureLife.step ({| Texture.image := None; Texture.texture := h |}, tr)
    (TextureLife.Load w hh)
  = ({| Texture.image := None; Texture.texture := h |}, tr).
Proof.
  unfold TextureLife.step. cbn. rewrite app_nil_r. reflexivity.
Qed.

(** ** Updates between frames *)

Lemma quiet_refl s : quiet s s.
Proof. split; [apply aside_refl | reflexivity | reflexivity | left; auto]. Qed.

Lemma idle_aside s s' : aside s s' -> idle s' = idle s.
Proof. intros [_ _ E L _ _]. unfold idle. rewrite E, L. reflexivity. Qed.

Lemma quiet_trans s1 s2 s3 : quiet s1 s2 -> quiet s2 s3 -> quiet s1 s3.
Proof.
  intros [A1 D1 E1 Q1] [A2 D2 E2 Q2].
  split; [eapply aside_trans; eassumption | congruence | congruence |].
  destruct Q1 as [[H1 F1]|[I1 [U1 [V1 F1]]]];
    destruct Q2 as [[H2 F2]|[I2 [U2 [V2 F2]]]].
  - left. split; congruence.
  - right. rewrite (idle_aside _ _ A1) in I2.
    repeat split; congruence.
  - right. repeat split; congruence.
  - congruence.
Qed.

Lemma quiet_onUpdate s : quiet s (_onUpdate s).
Proof.
  split; [apply aside_onUpdate | rewrite trace_onUpdate; reflexivity
         | rewrite trace_onUpdate; reflexivity |].
  unfold _onUpdate, idle.
  destruct (_isEntering s), (_isLeaving s), (_hasUpdated s) eqn:U;
    cbn [orb negb andb]; try (left; split; [assumption || reflexivity | reflexivity]).
  right. repeat split.
Qed.

Lemma quiet_emit es s :
  draws es = 0 -> transitionEnds es = 0 -> quiet s (emit es s).
Proof.
  intros D E. split; [apply aside_emit | | | left; split; reflexivity].
  - cbn [trace emit]. rewrite draws_app, D. apply Nat.add_0_r.
  - cbn [trace emit]. rewrite transitionEnds_app, E. apply Nat.add_0_r.
Qed.

Lemma quiet_updateAspect s : quiet s (_updateAspect s).
Proof.
  unfold _updateAspect. cbv zeta.
  match goal with |- context [if ?c then _ else _] => destruct c end;
    (eapply quiet_trans; [|apply quiet_onUpdate]);
    apply quiet_emit; reflexivity.
Qed.

Lemma quiet_updateTexture s : quiet s (_updateTexture s).
Proof.
  unfold _updateTexture. cbv zeta.
  eapply quiet_trans; [|apply quiet_updateAspect].
  apply quiet_emit; reflexivity.
Qed.

(** Once [_hasUpdated] is set, what is quiet leaves it set. *)
Lemma quiet_hasUpdated s s' :
  quiet s s' -> _hasUpdated s = true -> _hasUpdated s' = true.
Proof.
  intros [_ _ _ [[H _]|[_ [U _]]]] T; congruence.
Qed.

Lemma hasUpdated_onUpdate s : idle s = true -> _hasUpdated (_onUpdate s) = true.
Proof.
  unfold idle, _onUpdate.
  destruct (_isEntering s), (_isLeaving s); try discriminate. intros _.
  cbn [orb]. destruct (_hasUpdated s) eqn:U; [exact U | reflexivity].
Qed.

Lemma hasUpdated_updateTexture s :
  idle s = true -> _hasUpdated (_updateTexture s) = true.
Proof.
  intros I. unfold _updateTexture, _updateAspect. cbv zeta.
  match goal with |- context [if ?c then _ else _] => destruct c end;
    apply hasUpdated_onUpdate; exact I.
Qed.

Lemma draws_cons e es : draws (e :: es) = (if is_draw e then 1 else 0) + draws es.
Proof. unfold draws. cbn [filter]. destruct (is_draw e); reflexivity. Qed.

Lemma transitionEnds_cons e es :
  transitionEnds (e :: es)
  = (if is_transitionEnd e then 1 else 0) + transitionEnds es.
Proof.
  unfold transitionEnds. cbn [filter]. destruct (is_transitionEnd e); reflexivity.
Qed.

Lemma updates_cons e es :
  updates (e :: es) = (if is_updated e then 1 else 0) + updates es.
Proof. unfold updates. cbn [filter]. destruct (is_updated e); reflexivity. Qed.

Lemma updates_app a b : updates (a ++ b) = updates a + updates b.
Proof. unfold updates. rewrite filter_app, length_app. reflexivity. Qed.

Lemma quiet_perform es s :
  draws es = 0 -> transitionEnds es = 0 -> quiet s (perform es s).
Proof.
  revert s. induction es as [|e es IH]; intros s D E; [apply quiet_refl|].
  rewrite draws_cons in D. rewrite transitionEnds_cons in E.
  assert (De : is_draw e = false) by (destruct (is_draw e); [discriminate D | reflexivity]).
  assert (Ee : is_transitionEnd e = false)
    by (destruct (is_transitionEnd e); [discriminate E | reflexivity]).
  rewrite De in D. rewrite Ee in E. cbn [Nat.add] in D, E.
  assert (Q1 : quiet s (emit [e] s)).
  { apply quiet_emit.
    - rewrite draws_cons, De. reflexivity.
    - rewrite transitionEnds_cons, Ee. reflexivity. }
  cbn [perform]. eapply quiet_trans; [|apply IH; assumption].
  destruct e as [| | |[|]|]; try exact Q1.
  eapply quiet_trans; [exact Q1 | apply quiet_updateTexture].
Qed.

(** A notification that reaches an idle controller sets [_hasUpdated]. *)
Lemma hasUpdated_perform es s :
  draws es = 0 -> transitionEnds es = 0 -> updates es <> 0 ->
  idle s = true -> _hasUpdated (perform es s) = true.
Proof.
  revert s. induction es as [|e es IH]; intros s D E U I;
    [contradiction U; reflexivity|].
  rewrite draws_cons in D. rewrite transitionEnds_cons in E.
  assert (De : draws es = 0) by lia.
  assert (Ee : transitionEnds es = 0) by lia.
  cbn [perform].
  destruct e as [| | |[h|]|]; cbn [is_updated] in U;
    rewrite updates_cons in U; cbn [is_updated Nat.add] in U;
    try (apply IH; [assumption | assumption | exact U | exact I]).
  apply (quiet_hasUpdated _ _ (quiet_perform es _ De Ee)).
  apply hasUpdated_updateTexture. exact I.
Qed.

(** What a texture does draws nothing and ends no transition. *)
Lemma upload_counts (s : Texture.t) (i : TextureSource) :
  draws (Texture.upload s i) = 0
  /\ transitionEnds (Texture.upload s i) = 0
  /\ updates (Texture.upload s i) = 1.
Proof.
  destruct (upload_shape s i) as [es [U [N [D E]]]]. rewrite U.
  rewrite draws_app, transitionEnds_app, updates_app, N, D, E.
  repeat split.
Qed.

Lemma setImage_counts (image : option TextureSource) (s : Texture.t) :
  draws (snd (Texture.setImage image s)) = 0
  /\ transitionEnds (snd (Texture.setImage image s)) = 0
  /\ updates (snd (Texture.setImage image s)) = 1.
Proof.
  pose proof (setImage_cases image s) as C. cbv zeta in C.
  destruct image as [i|]; [destruct (source_loaded i)|]; rewrite C;
    cbn [snd]; rewrite ?draws_cons, ?transitionEnds_cons, ?updates_cons;
    cbn [is_draw is_transitionEnd is_updated Nat.add]; apply upload_counts.
Qed.

Lemma onLoad_listener_counts (s : Texture.t) :
  draws (snd (Texture.onLoad_listener s)) = 0
  /\ transitionEnds (snd (Texture.onLoad_listener s)) = 0.
Proof.
  unfold Texture.onLoad_listener. destruct (Texture.image s) as [i|];
    [|repeat split].
  destruct (setImage_counts (Some i) s) as [D [E _]].
  destruct (Texture.setImage (Some i) s) as [s' e]. cbn [snd] in *.
  rewrite draws_cons, transitionEnds_cons, D, E. repeat split.
Qed.

Lemma quiet_set_texture sl t s : quiet s (set_texture sl t s).
Proof.
  destruct sl; (split; [apply (aside_set_texture _ t s) | reflexivity
                       | reflexivity | left; split; reflexivity]).
Qed.

Lemma quiet_setSize w h s : quiet s (setSize w h s).
Proof.
  unfold setSize.
  destruct ((width (_canvas s) =? w)%N && (height (_canvas s) =? h)%N);
    [apply quiet_refl|].
  cbv zeta. eapply quiet_trans; [|apply quiet_updateAspect].
  eapply quiet_trans; [|apply quiet_emit; reflexivity].
  split; [split; auto | reflexivity | reflexivity | left; split; reflexivity].
Qed.

Lemma quiet_setFromImage i s : quiet s (setFromImage i s).
Proof.
  unfold setFromImage.
  destruct (setImage_counts (Some i) (_textureFrom s)) as [D [E _]].
  destruct (Texture.setImage _ _) as [t es]. cbn [snd] in D, E.
  eapply quiet_trans; [apply (quiet_set_texture From t s)|].
  apply quiet_perform; assumption.
Qed.

Lemma quiet_setToImage i s : quiet s (setToImage i s).
Proof.
  unfold setToImage.
  destruct (setImage_counts (Some i) (_textureTo s)) as [D [E _]].
  destruct (Texture.setImage _ _) as [t es]. cbn [snd] in D, E.
  eapply quiet_trans; [apply (quiet_set_texture To t s)|].
  apply quiet_perform; assumption.
Qed.

Lemma quiet_image_load sl w h s : quiet s (image_load sl w h s).
Proof.
  unfold image_load.
  destruct (onLoad_listener_counts (Texture.decoded w h (get_texture sl s)))
    as [D E].
  destruct (Texture.onLoad_listener _) as [t es]. cbn [snd] in D, E.
  eapply quiet_trans; [apply (quiet_set_texture sl t s)|].
  apply quiet_perform; assumption.
Qed.

Lemma quiet_step o s : is_update o = true -> quiet s (step o s).
Proof.
  destruct o; try discriminate; intros _; cbn [step].
  - apply quiet_setSize.
  - apply quiet_setFromImage.
  - apply quiet_setToImage.
  - apply quiet_image_load.
Qed.

Lemma quiet_run os s : forallb is_update os = true -> quiet s (run os s).
Proof.
  revert s. induction os as [|o os IH]; intros s H; [apply quiet_refl|].
  cbn [forallb] in H. apply andb_true_iff in H. destruct H as [H1 H2].
  unfold run. cbn [fold_left]. eapply quiet_trans; [apply quiet_step, H1|].
  apply IH, H2.
Qed.

Lemma hasUpdated_set_image_op o s :
  sets_image o = true -> idle s = true -> _hasUpdated (step o s) = true.
Proof.
  destruct o; try discriminate; intros _ I; cbn [step].
  - unfold setFromImage.
    destruct (setImage_counts (Some source) (_textureFrom s)) as [D [E U]].
    destruct (Texture.setImage _ _) as [t es]. cbn [snd] in D, E, U.
    apply hasUpdated_perform; try assumption. rewrite U. discriminate.
  - unfold setToImage.
    destruct (setImage_counts (Some source) (_textureTo s)) as [D [E U]].
    destruct (Texture.setImage _ _) as [t es]. cbn [snd] in D, E, U.
    apply hasUpdated_perform; try assumption. rewrite U. discriminate.
Qed.

Lemma hasUpdated_run os s :
  forallb is_update os = true -> existsb sets_image os = true ->
  idle s = true -> _hasUpdated (run os s) = true.
Proof.
  revert s. induction os as [|o os IH]; intros s H X I; [discriminate X|].
  cbn [forallb existsb] in H, X. apply andb_true_iff in H.
  destruct H as [H1 H2]. unfold run. cbn [fold_left].
  fold (run os (step o s)).
  pose proof (quiet_step o s H1) as Q.
  destruct (sets_image o) eqn:S.
  - apply (quiet_hasUpdated _ _ (quiet_run os _ H2)).
    apply hasUpdated_set_image_op; assumption.
  - cbn [orb] in X. apply IH; try assumption.
    rewrite (idle_aside _ _ (quiet_aside _ _ Q)). exact I.
Qed.

(** X9. Updates are debounced. Over any sequence of resizes, [setFromImage],
    [setToImage] and loads of images, nothing is drawn, no ['transitionEnd']
    is dispatched, progress, [duration] and the mode and destroyed flags
    stay as they are, and at most one lazy render is requested in all: none
    while a transition runs or while [_hasUpdated] is set. *)
Theorem updates_request_at_most_one_render (os : list operation)
    (s : ImageTransition) :
  forallb is_update os = true ->
  let s' := run os s in
  draws (trace s') = draws (trace s)
  /\ transitionEnds (trace s') = transitionEnds (trace s)
  /\ _progress s' = _progress s /\ duration s' = duration s
  /\ _isEntering s' = _isEntering s /\ _isLeaving s' = _isLeaving s
  /\ _destroyed s' = _destroyed s
  /\ (animationFrames s' = animationFrames s
      \/ animationFrames s' = animationFrames s ++ [lazy_render])
  /\ (idle s = false \/ _hasUpdated s = true ->
      animationFrames s' = animationFrames s).
Proof.
  intros H s'. destruct (quiet_run os s H) as [[A1 A2 A3 A4 A5 _] D E Q].
  fold s' in A1, A2, A3, A4, A5, D, E, Q.
  repeat (split; [assumption|]). split.
  - destruct Q as [[_ F]|[_ [_ [_ F]]]]; [left | right]; exact F.
  - intros C. destruct Q as [[_ F]|[I [U _]]]; [exact F|].
    destruct C; congruence.
Qed.

Lemma updates_request_at_most_one_render_witness :
  draws (trace (run [SetSize 200 100; SetToImage (HTMLImageElement 8 8);
                     SetSize 300 100; Load To 8 8] demo_shown))
  = draws (trace demo_shown).
Proof.
  apply (proj1 (updates_request_at_most_one_render
                  [SetSize 200 100; SetToImage (HTMLImageElement 8 8);
                   SetSize 300 100; Load To 8 8] demo_shown eq_refl)).
Defined.

Lemma render_live s :
  _destroyed s = false ->
  trace (render s) = trace s ++ render_effects (_progress s)
  /\ animationFrames (render s) = animationFrames s
  /\ _progress (render s) = _progress s.
Proof.
  intros D. unfold render. rewrite D. cbv zeta.
  destruct (_ === _)%num; repeat split.
Qed.

(** X10. An update is drawn at the next frame, once. On a live, idle
    controller with [_hasUpdated] unset and nothing waiting, any sequence of
    resizes, image changes and image loads that holds at least one
    [setFromImage] or [setToImage] leaves exactly one lazy render waiting;
    the next animation frame draws once, at the progress of before,
    dispatches no ['transitionEnd'], unsets [_hasUpdated] and leaves nothing
    waiting. *)
Theorem update_is_drawn_at_the_next_frame (os : list operation)
    (s : ImageTransition) (now : number) :
  forallb is_update os = true -> existsb sets_image os = true ->
  idle s = true -> _hasUpdated s = false -> _destroyed s = false ->
  animationFrames s = [] ->
  let s1 := run os s in
  let s2 := frame now s1 in
  animationFrames s1 = [lazy_render]
  /\ draws (trace s1) = draws (trace s)
  /\ trace s2 = trace s1 ++ render_effects (_progress s)
  /\ draws (trace s2) = S (draws (trace s))
  /\ transitionEnds (trace s2) = transitionEnds (trace s)
  /\ _hasUpdated s2 = false /\ animationFrames s2 = [].
Proof.
  intros H X I U D F s1 s2.
  destruct (quiet_run os s H) as [[_ A2 _ _ A5 _] Dr En Q].
  pose proof (hasUpdated_run os s H X I) as T.
  fold s1 in A2, A5, Dr, En, Q, T.
  assert (F1 : animationFrames s1 = [lazy_render]).
  { destruct Q as [[V _]|[_ [_ [_ G]]]]; [congruence|].
    rewrite G, F. reflexivity. }
  assert (D1 : _destroyed (set_animationFrames [] s1) = false)
    by (cbn [set_animationFrames _destroyed]; congruence).
  destruct (render_live _ D1) as [R1 [R2 R3]].
  assert (E2 : s2 = set_hasUpdated false (render (set_animationFrames [] s1)))
    by (unfold s2; rewrite (frame_one now lazy_render s1 F1); reflexivity).
  cbn [set_animationFrames trace animationFrames _progress] in R1, R2.
  split; [exact F1|]. split; [exact Dr|].
  rewrite E2. cbn [set_hasUpdated trace _hasUpdated animationFrames].
  rewrite R1, R2, A2.
  split; [reflexivity|]. split.
  - rewrite draws_app, Dr. unfold render_effects, draws. cbn. lia.
  - split; [|split; reflexivity].
    rewrite transitionEnds_app, En. unfold render_effects, transitionEnds.
    cbn. lia.
Qed.

Lemma update_is_drawn_at_the_next_frame_witness :
  draws (trace (frame (Fin 3016)
                  (run [SetSize 200 100; SetToImage (HTMLImageElement 8 8)]
                       demo_shown)))
  = S (draws (trace demo_shown)).
Proof.
  apply (proj1 (proj2 (proj2 (proj2
           (update_is_drawn_at_the_next_frame
              [SetSize 200 100; SetToImage (HTMLImageElement 8 8)]
              demo_shown (Fin 3016)
              eq_refl eq_refl eq_refl eq_refl eq_refl eq_refl))))).
Defined.

(** ** A new controller *)

Lemma draws_new (h : WebGLTexture) (image : option TextureSource) :
  draws (snd (Texture.new h image)) = 0
  /\ transitionEnds (snd (Texture.new h image)) = 0.
Proof.
  pose proof (new_cases h image) as C. cbv zeta in C.
  destruct image as [i|]; [destruct (source_loaded i)|]; rewrite C;
    cbn [snd]; rewrite draws_app, transitionEnds_app;
    try (destruct (upload_counts
                     {| Texture.image := Some i; Texture.texture := h |} i)
           as [D [E _]]; rewrite D, E; split; reflexivity);
    try (destruct (upload_counts
                     {| Texture.image := None; Texture.texture := h |}
                     defaultImage)
           as [D [E _]]; rewrite D, E; split; reflexivity).
  split; reflexivity.
Qed.

Lemma untouched_quiet s s' : quiet s s' -> untouched s -> untouched s'.
Proof.
  intros [A D E Q] [I U P F Dr En].
  pose proof (idle_aside _ _ A) as I'. destruct A as [_ A2 _ _ _ _].
  assert (G : _hasUpdated s' = true /\ animationFrames s' = []).
  { destruct Q as [[V W]|[_ [V _]]]; [split|]; congruence. }
  destruct G as [G1 G2]. split; congruence.
Qed.

Lemma untouched_constructor p : untouched (constructor p).
Proof.
  unfold constructor. cbv zeta.
  destruct (draws_new 0 (Params.sourceFrom p)) as [D0 E0].
  destruct (draws_new 1 (Params.sourceTo p)) as [D1 E1].
  destruct (draws_new 2 (Some (Params.displacementSource p))) as [D2 E2].
  destruct (Texture.new 0 _) as [tFrom eFrom].
  destruct (Texture.new 1 _) as [tTo eTo].
  destruct (Texture.new 2 _) as [tDisp eDisp].
  cbn [snd] in D0, E0, D1, E1, D2, E2.
  match goal with |- untouched (setSize _ _ (_updateTexture ?s0)) =>
    apply (untouched_quiet (_updateTexture s0)); [apply quiet_setSize|];
    apply (untouched_quiet s0); [apply quiet_updateTexture|]
  end.
  split; try reflexivity; cbn [trace].
  - rewrite !draws_app, D0, D1, D2. reflexivity.
  - rewrite !transitionEnds_app, E0, E1, E2. reflexivity.
Qed.

Lemma untouched_step o s :
  is_passive o = true -> untouched s -> untouched (step o s).
Proof.
  intros P U.
  destruct o; try discriminate P; cbn [step].
  - (* leave *)
    destruct U as [I H Pr F Dr En]. unfold leave.
    destruct (_isLeaving s); [split; assumption|].
    rewrite Pr. cbn. split; assumption.
  - (* stop *)
    destruct U as [I H Pr F Dr En]. unfold stop. fold (idle s). rewrite I.
    split; assumption.
  - apply (untouched_quiet s); [apply quiet_setSize | exact U].
  - apply (untouched_quiet s); [apply quiet_setFromImage | exact U].
  - apply (untouched_quiet s); [apply quiet_setToImage | exact U].
  - (* frame *)
    destruct U as [I H Pr F Dr En]. unfold frame. rewrite F.
    cbn [fold_left]. split; first [assumption | reflexivity].
  - (* tick *)
    destruct U as [I H Pr F Dr En]. unfold next_callback. rewrite F.
    split; assumption.
  - apply (untouched_quiet s); [apply quiet_image_load | exact U].
Qed.

(** X11. A new controller draws nothing by itself. The constructor draws
    nothing and leaves [_hasUpdated] set, so that from a new controller no
    sequence of resizes, image changes, image loads, [leave()], [stop()]
    and animation frames draws anything, requests an animation frame or
    dispatches ['transitionEnd']; progress stays 0. The first picture needs
    [render()], [reset()] or [enter()]. *)
Theorem new_controller_draws_nothing (p : Params.t) (os : list operation) :
  forallb is_passive os = true ->
  let s := run os (constructor p) in
  draws (trace s) = 0 /\ transitionEnds (trace s) = 0
  /\ animationFrames s = [] /\ _progress s = Fin 0
  /\ _hasUpdated s = true /\ _isEntering s = false /\ _isLeaving s = false.
Proof.
  intros H s.
  assert (U : untouched s).
  { unfold s. generalize (untouched_constructor p).
    generalize (constructor p) as s0. clear s.
    induction os as [|o os IH]; intros s0 U0; [exact U0|].
    cbn [forallb] in H. apply andb_true_iff in H. destruct H as [H1 H2].
    unfold run. cbn [fold_left]. apply (IH H2). apply untouched_step; assumption. }
  destruct U as [I V Pr F Dr En]. unfold idle in I.
  destruct (_isEntering s), (_isLeaving s); try discriminate I.
  repeat split; assumption.
Qed.

Lemma new_controller_draws_nothing_witness :
  draws (trace (run [SetSize 640 480; SetFromImage (HTMLCanvasElement 64 64);
                     Load To 32 32; Frame (Fin 16); Leave (Fin 20) (Fin 20)]
                    demo)) = 0.
Proof.
  apply (proj1 (new_controller_draws_nothing demo_params
                  [SetSize 640 480; SetFromImage (HTMLCanvasElement 64 64);
                   Load To 32 32; Frame (Fin 16); Leave (Fin 20) (Fin 20)]
                  eq_refl)).
Defined.

(** ** destroy *)

Lemma fold_destroyed (now : number) (cbs : list callback) (s : ImageTransition) :
  _destroyed s = true ->
  let s' := fold_left (fun s cb => run_callback now cb s) cbs s in
  trace s' = trace s /\ animationFrames s' = animationFrames s
  /\ _progress s' = _progress s /\ _destroyed s' = true
  /\ _canvas s' = _canvas s.
Proof.
  revert s. induction cbs as [|cb cbs IH]; intros s D; [repeat split; exact D|].
  cbn [fold_left].
  assert (E : run_callback now cb s = s
              \/ run_callback now cb s = set_hasUpdated false s).
  { destruct cb as [st se|st se|]; cbn [run_callback].
    - left. apply tick_enter_idle. left. exact D.
    - left. apply tick_leave_idle. left. exact D.
    - right. unfold render. rewrite D. reflexivity. }
  destruct E as [-> | ->]; [apply IH, D|].
  apply (IH (set_hasUpdated false s)). exact D.
Qed.

(** X12. [destroy()] ends the loop silently. Whatever the controller was
    doing, [destroy()] draws nothing, dispatches no ['transitionEnd'] (an
    interrupted transition never reports its end) and keeps progress; it
    requests at most one lazy render (that of the resize to 1 by 1). At the
    next animation frame every waiting callback runs without any effect and
    none asks for another frame. *)
Theorem destroy_ends_the_loop (b : bool) (s : ImageTransition) (now : number) :
  let s1 := destroy b s in
  let s2 := frame now s1 in
  draws (trace s1) = draws (trace s)
  /\ transitionEnds (trace s1) = transitionEnds (trace s)
  /\ _progress s1 = _progress s
  /\ (animationFrames s1 = animationFrames s
      \/ animationFrames s1 = animationFrames s ++ [lazy_render])
  /\ trace s2 = trace s1
  /\ animationFrames s2 = []
  /\ _progress s2 = _progress s
  /\ _canvas s2 = _canvas s1.
Proof.
  intros s1 s2.
  set (s0 := set_isLeaving false (set_isEntering false (set_destroyed true s))).
  set (sa := if b then setSize 1 1 s0 else s0).
  assert (Q : quiet s0 sa)
    by (unfold sa; destruct b; [apply quiet_setSize | apply quiet_refl]).
  assert (E1 : exists es,
               trace s1 = trace sa ++ es
               /\ draws es = 0 /\ transitionEnds es = 0
               /\ animationFrames s1 = animationFrames sa
               /\ _progress s1 = _progress sa
               /\ _destroyed s1 = _destroyed sa).
  { unfold s1, destroy. cbv zeta. fold s0. fold sa.
    destruct (b && parentNode (_canvas _));
      cbn [emit set_canvas trace animationFrames _progress _destroyed];
      rewrite <- ?app_assoc; eexists; (split; [reflexivity|]);
      repeat split. }
  destruct E1 as [es [T [D0 [E0 [F1 [P1 X1]]]]]].
  destruct Q as [[_ A2 _ _ A5 _] Dr En Qq].
  assert (D1 : _destroyed s1 = true) by (rewrite X1, A5; reflexivity).
  assert (D1' : _destroyed (set_animationFrames [] s1) = true) by exact D1.
  destruct (fold_destroyed now (animationFrames s1) _ D1')
    as [G1 [G2 [G3 [_ G5]]]].
  fold (frame now s1) in G1, G2, G3, G5. fold s2 in G1, G2, G3, G5.
  split; [rewrite T, draws_app, D0, Dr; apply Nat.add_0_r|].
  split; [rewrite T, transitionEnds_app, E0, En; apply Nat.add_0_r|].
  split; [rewrite P1, A2; reflexivity|].
  split.
  { rewrite F1. destruct Qq as [[_ F]|[_ [_ [_ F]]]]; [left | right]; exact F. }
  split; [exact G1|]. split; [exact G2|].
  split; [rewrite G3; cbn [set_animationFrames _progress];
          rewrite P1, A2; reflexivity | exact G5].
Qed.

(** ** setSize *)





(** ** The UV scale covers the canvas *)

(** X14. The image covers the canvas. When the media aspect and the canvas
    aspect are finite and positive, [_updateAspect] sets [uvScale] to a
    pair of numbers of [(0, 1]], one of which is 1: along no axis is more
    than the whole image shown, and along one axis the whole image is. *)
Theorem uvScale_covers_the_canvas (s : ImageTransition) (m c : Q) :
  mediaAspect (aspectImage s) = Fin m -> canvasAspect s = Fin c ->
  (0 < m)%Q -> (0 < c)%Q ->
  exists a b : Q,
    trace (_updateAspect s)
    = trace s ++ [GL (uniform2f UuvScale (Fin a) (Fin b))]
    /\ (0 < a <= 1)%Q /\ (0 < b <= 1)%Q
    /\ ((a == 1)%Q \/ (b == 1)%Q).
Proof.
  intros Hm Hc Pm Pc.
  assert (Zc : ~ (c == 0)%Q) by lra.
  assert (Pr : (0 < m / c)%Q).
  { unfold Qdiv. apply Qmult_lt_0_compat; [exact Pm|].
    apply Qinv_lt_0_compat. exact Pc. }
  unfold _updateAspect. cbv zeta. fold (canvasAspect s).
  rewrite Hm, Hc, (div_Fin m c Zc). cbn [Num.ltb].
  destruct (Qle_bool 1 (m / c)) eqn:L;
    [apply Qle_bool_iff in L | apply Qle_bool_false in L]; cbn [negb];
    rewrite trace_onUpdate.
  - assert (Zr : ~ (m / c == 0)%Q) by lra.
    exists (1 / (m / c))%Q, 1%Q.
    rewrite (div_Fin 1 (m / c) Zr).
    split; [reflexivity|].
    assert (I : (0 < 1 / (m / c))%Q).
    { unfold Qdiv at 1. rewrite Qmult_1_l. apply Qinv_lt_0_compat. exact Pr. }
    assert (J : (1 / (m / c) * (m / c) == 1)%Q) by (field; split; [exact Zc | lra]).
    split; [split; [exact I | nra]|].
    split; [lra|]. right; reflexivity.
  - exists 1%Q, (m / c)%Q. split; [reflexivity|].
    split; [lra|]. split; [lra|]. left; reflexivity.
Qed.

Lemma uvScale_covers_the_canvas_witness :
  exists a b : Q,
    trace (_updateAspect demo)
    = trace demo ++ [GL (uniform2f UuvScale (Fin a) (Fin b))]
    /\ (0 < a <= 1)%Q /\ (0 < b <= 1)%Q
    /\ ((a == 1)%Q \/ (b == 1)%Q).
Proof.
  apply (uvScale_covers_the_canvas demo (16 # 9) (100 # 100));
    reflexivity.
Defined.

(** ** The vertex stage *)

(** X15. The vertex stage crops about the centre. With a [uvScale] whose
    components are in [(0, 1]] and one of which is 1 -- what [_updateAspect]
    sets -- the texture coordinate of a vertex is its [uv] attribute moved
    towards the centre [(1/2, 1/2)] by the factor [uvScale.x] along x and
    [uvScale.y] along y; it stays in the unit square when [uv] is there,
    and the corners of the quad get the corners of a centred rectangle of
    [uvScale.x] by [uvScale.y]. The position of the vertex is not changed. *)
Theorem vertex_crops_about_the_centre (uvScale uv : Shader.vec2) :
  (0 < Shader.x uvScale <= 1)%R -> (0 < Shader.y uvScale <= 1)%R ->
  Shader.x uvScale = 1%R \/ Shader.y uvScale = 1%R ->
  Vertex.vUv uvScale uv = centred uvScale uv
  /\ (in_square uv -> in_square (Vertex.vUv uvScale uv))
  /\ (Shader.x (Vertex.vUv uvScale {| Shader.x := 1; Shader.y := 1 |})
      - Shader.x (Vertex.vUv uvScale {| Shader.x := 0; Shader.y := 0 |})
      = Shader.x uvScale
      /\ Shader.y (Vertex.vUv uvScale {| Shader.x := 1; Shader.y := 1 |})
         - Shader.y (Vertex.vUv uvScale {| Shader.x := 0; Shader.y := 0 |})
         = Shader.y uvScale)%R
  /\ Shader.xy (Vertex.gl_Position uv) = uv.
Proof.
  intros Hx Hy H1.
  assert (E : forall p, Vertex.vUv uvScale p = centred uvScale p).
  { intros p. unfold Vertex.vUv, centred, Shader.Rltb.
    destruct (Rlt_dec (Shader.y uvScale) 1) as [L|L]; cbv zeta.
    - assert (X : Shader.x uvScale = 1%R) by lra. rewrite X. f_equal; lra.
    - assert (Y : Shader.y uvScale = 1%R) by lra. rewrite Y. f_equal; lra. }
  split; [apply E|]. split; [|split].
  - rewrite E. unfold in_square, centred. cbn [Shader.x Shader.y].
    intros [[A B] [C D]]. repeat split; nra.
  - rewrite !E. unfold centred. cbn [Shader.x Shader.y]. split; lra.
  - destruct uv. reflexivity.
Qed.

Lemma vertex_crops_about_the_centre_witness :
  Vertex.vUv {| Shader.x := 9 / 16; Shader.y := 1 |}
             {| Shader.x := 0; Shader.y := 1 |}
  = centred {| Shader.x := 9 / 16; Shader.y := 1 |}
            {| Shader.x := 0; Shader.y := 1 |}.
Proof.
  apply (vertex_crops_about_the_centre
           {| Shader.x := 9 / 16; Shader.y := 1 |}
           {| Shader.x := 0; Shader.y := 1 |});
    cbn [Shader.x Shader.y]; [lra | lra | right; reflexivity].
Defined.

(** ** The easing *)

Lemma cos_PI_minus (x : R) : cos (PI * (1 - x)) = (- cos (PI * x))%R.
Proof.
  replace (PI * (1 - x))%R with (- (PI * x) + PI)%R by ring.
  rewrite neg_cos, cos_neg. reflexivity.
Qed.

(** X16. [easeInOutSine] maps 0 to 0 and 1 to 1, takes its values in
    [0, 1], is symmetric about the point (1/2, 1/2), and is strictly
    increasing on [0, 1]: the progress handed to the fragment stage is in
    [0, 1] and moves in the sense of the progress of the controller. *)
Theorem easeInOutSine_shape :
  easeInOutSine 0 = 0%R /\ easeInOutSine 1 = 1%R
  /\ (forall x, 0 <= easeInOutSine x <= 1)%R
  /\ (forall x, easeInOutSine (1 - x) = 1 - easeInOutSine x)%R
  /\ (forall x y, 0 <= x -> x < y -> y <= 1 ->
        easeInOutSine x < easeInOutSine y)%R.
Proof.
  unfold easeInOutSine. split; [|split; [|split; [|split]]].
  - rewrite Rmult_0_r, cos_0. lra.
  - rewrite Rmult_1_r, cos_PI. lra.
  - intros x. pose proof (COS_bound (PI * x)) as [A B]. lra.
  - intros x. rewrite cos_PI_minus. lra.
  - intros x y Hx Hxy Hy. pose proof PI_RGT_0 as P.
    assert (C : (cos (PI * y) < cos (PI * x))%R).
    { apply cos_decreasing_1; try nra. }
    lra.
Qed.

(** ** The picture at rest *)





(** ** How long a transition lasts *)

Section Remaining.

Local Open Scope Q_scope.

Variable rnd : Q -> Q.
Variable u : Q.
Hypothesis u_small : 0 <= u <= 1 # 100.
Hypothesis u_pos : 0 < u.
Hypothesis rnd_error : forall x, Qabs (rnd x - x) <= u * Qabs x.


End Remaining.


